(** * The offline tour-asset cache of the heritage tour application

    A shallow embedding of [src/services/tourAssetDownloader.ts]
    (class [TourAssetDownloader]) together with the parts of the
    platform it talks to: the Expo file system, the AsyncStorage
    key-value store, the clock, the random source, the console and the
    remote server.  Asynchronous methods become computations in a small
    state-and-exception monad over an explicit [World]. *)

From stdpp Require Import gmap strings list fin_maps.
From Stdlib Require Import ZArith QArith Qround Lqa Ascii String DecimalString
  DecimalZ DecimalPos Sorted.

Local Open Scope string_scope.
Local Open Scope Z_scope.

(** ** JavaScript strings *)

Module JsString.

(** Truthiness of a string value: only the empty string is falsy. *)
Definition truthy (s : string) : bool :=
  match s with
  | EmptyString => false
  | String _ _ => true
  end.

(** Truthiness of an optional string ([undefined] and [null] are falsy). *)
Definition truthy_opt (o : option string) : bool :=
  match o with
  | Some s => truthy s
  | None => false
  end.

(** [occurs c s]: the character [c] occurs in [s]. *)
Fixpoint occurs (c : ascii) (s : string) : bool :=
  match s with
  | EmptyString => false
  | String a s' => if Ascii.eqb a c then true else occurs c s'
  end.

(** [s.split(sep)] for a one-character separator. *)
Fixpoint split (sep : ascii) (s : string) : list string :=
  match s with
  | EmptyString => [EmptyString]
  | String a s' =>
      if Ascii.eqb a sep then EmptyString :: split sep s'
      else match split sep s' with
           | h :: t => String a h :: t
           | [] => [String a EmptyString]
           end
  end.

(** [parts[parts.length - 1]] *)
Definition last_part (parts : list string) : string :=
  List.last parts EmptyString.

(** Position of the last occurrence of [c], if any. *)
Fixpoint last_index (c : ascii) (s : string) : option nat :=
  match s with
  | EmptyString => None
  | String a s' =>
      match last_index c s' with
      | Some i => Some (S i)
      | None => if Ascii.eqb a c then Some O else None
      end
  end.

(** [s.lastIndexOf(c)], with [-1] when [c] does not occur. *)
Definition lastIndexOf (c : ascii) (s : string) : Z :=
  match last_index c s with
  | Some i => Z.of_nat i
  | None => -1
  end.

(** [s.substring(from, to)] for [0 <= from <= to]. *)
Definition substring (from to : nat) (s : string) : string :=
  String.substring from (to - from) s.

(** [s.substring(from)] *)
Definition substring_from (from : nat) (s : string) : string :=
  String.substring from (String.length s - from) s.

(** [s.startsWith(p)] *)
Definition startsWith (p s : string) : bool := String.prefix p s.

(** A number in a template literal: its decimal rendering. *)
Definition of_number (z : Z) : string :=
  NilZero.string_of_int (Z.to_int z).

(** The digits of [Number.prototype.toString(36)]. *)
Definition alphabet36 : list ascii :=
  list_ascii_of_string "0123456789abcdefghijklmnopqrstuvwxyz".

Definition digit36 (n : N) : ascii :=
  List.nth (N.to_nat (n mod 36)) alphabet36 "0"%char.

Definition of_digits36 (ds : list N) : string :=
  string_of_list_ascii (List.map digit36 ds).

End JsString.

(** ** Data model ([types/api.ts])

    The identifiers, the URL-valued fields and the interaction tag are
    kept; the cache manager reads nothing but the URL fields.  An
    optional field ([f?: string]) is an [option]. *)

Inductive InteractionMethod := place_on_plane | show_on_marker | show_directly.

Module Asset.
Record t := mk {
  id : Z;
  model_url : option string;
  material_urls : option (list string);
  thumbnail_image_url : option string;
  interaction_method : option InteractionMethod;
  marker_image_url : option string;
  audio_url : option string;
  video_url : option string
}.
End Asset.

Module Task.
Record t := mk {
  id : Z;
  thumbnail_url : option string;
  detailed_img_url : option string
}.
End Task.

Module TourObject.
Record t := mk {
  id : Z;
  thumbnail_url : option string;
  assets : option (list Asset.t);
  tasks : option (list Task.t)
}.
End TourObject.

Module TourDetails.
Record t := mk {
  id : Z;
  thumbnail_url : option string;
  objects : list TourObject.t
}.
End TourDetails.

Record DownloadProgress := {
  total : nat;
  downloaded : nat;
  currentFile : string;
  percentage : Z
}.

Record CachedTourData := {
  tourDetails : TourDetails.t;
  downloadedAt : string;
  localAssets : gmap string string
}.

(** ** The URL collector *)

Module Collector.

(** [if (u) urls.push(u)] *)
Definition push_if (u : option string) (urls : list string) : list string :=
  match u with
  | Some s => if JsString.truthy s then urls ++ [s] else urls
  | None => urls
  end.

(** [material_urls.forEach(url => { if (url) urls.push(url) })] *)
Definition push_materials (ms : list string) (urls : list string) : list string :=
  fold_left (fun acc u => push_if (Some u) acc) ms urls.

Definition push_asset (urls : list string) (a : Asset.t) : list string :=
  let urls := push_if (Asset.thumbnail_image_url a) urls in
  let urls := push_if (Asset.model_url a) urls in
  let urls := match Asset.material_urls a with
              | Some ms => push_materials ms urls
              | None => urls
              end in
  let urls := push_if (Asset.marker_image_url a) urls in
  let urls := push_if (Asset.audio_url a) urls in
  push_if (Asset.video_url a) urls.

Definition push_task (urls : list string) (k : Task.t) : list string :=
  let urls := push_if (Task.thumbnail_url k) urls in
  push_if (Task.detailed_img_url k) urls.

(** [xs?.forEach(f)] *)
Definition forEach_opt {A} (f : list string -> A -> list string)
    (xs : option (list A)) (urls : list string) : list string :=
  match xs with
  | Some l => fold_left f l urls
  | None => urls
  end.

Definition push_object (urls : list string) (o : TourObject.t) : list string :=
  let urls := push_if (TourObject.thumbnail_url o) urls in
  let urls := forEach_opt push_asset (TourObject.assets o) urls in
  forEach_opt push_task (TourObject.tasks o) urls.

(** Every push of [collectAllAssetUrls], before duplicates are removed. *)
Definition pushed (td : TourDetails.t) : list string :=
  let urls := push_if (TourDetails.thumbnail_url td) [] in
  fold_left push_object (TourDetails.objects td) urls.

(** [new Set(urls)] then [Array.from]: a set keeps insertion order, so
    the first occurrence of every element survives. *)
Fixpoint set_add_all (seen : list string) (urls : list string) : list string :=
  match urls with
  | [] => seen
  | u :: rest =>
      if bool_decide (u ∈ seen) then set_add_all seen rest
      else set_add_all (seen ++ [u]) rest
  end.

Definition Array_from_Set (urls : list string) : list string :=
  set_add_all [] urls.

Definition collectAllAssetUrls (td : TourDetails.t) : list string :=
  Array_from_Set (pushed td).

(** *** What the record holds, independently of the traversal *)

(** The optional field [f] carries the URL [u]: it is present and not
    the empty string. *)
Definition carries (f : option string) (u : string) : Prop :=
  f = Some u ∧ u ≠ EmptyString.

Definition asset_url (a : Asset.t) (u : string) : Prop :=
  carries (Asset.model_url a) u
  ∨ (∃ ms, Asset.material_urls a = Some ms ∧ u ∈ ms ∧ u ≠ EmptyString)
  ∨ carries (Asset.thumbnail_image_url a) u
  ∨ carries (Asset.marker_image_url a) u
  ∨ carries (Asset.audio_url a) u
  ∨ carries (Asset.video_url a) u.

Definition task_url (k : Task.t) (u : string) : Prop :=
  carries (Task.thumbnail_url k) u ∨ carries (Task.detailed_img_url k) u.

Definition object_url (o : TourObject.t) (u : string) : Prop :=
  carries (TourObject.thumbnail_url o) u
  ∨ (∃ l a, TourObject.assets o = Some l ∧ a ∈ l ∧ asset_url a u)
  ∨ (∃ l k, TourObject.tasks o = Some l ∧ k ∈ l ∧ task_url k u).

Definition tour_url (td : TourDetails.t) (u : string) : Prop :=
  carries (TourDetails.thumbnail_url td) u
  ∨ (∃ o, o ∈ TourDetails.objects td ∧ object_url o u).

End Collector.

(** ** The world the cache manager runs in *)

Inductive JsError := Error (message : string).

(** What the asset server does with a request. *)
Inductive Response :=
| Unreachable                 (* the request itself fails *)
| Http (status : Z).          (* a response with this status arrives *)

Inductive LogEntry :=
| Warn (message : string)
| Err (message : string).

(** What an observer of a run sees, in the order it happens. *)
Inductive Event :=
| Requested (url : string)            (* an asset request is sent *)
| Logged (entry : LogEntry)           (* console.warn / console.error *)
| Reported (p : DownloadProgress).    (* the progress callback is called *)

Record World := mkWorld {
  fs : gset string;                     (* paths of files and directories *)
  kv : gmap string string;              (* AsyncStorage contents *)
  kv_failing : bool;                    (* AsyncStorage rejects every call *)
  cacheInitialized : bool;              (* this._cacheInitialized *)
  clock : nat -> Z;                     (* successive readings of the clock *)
  clock_reads : nat;
  random : nat -> list N;               (* successive Math.random() values,
                                           as base-36 fraction digits *)
  random_draws : nat;
  tour_api : Z -> option TourDetails.t; (* GET /tours/<id> *)
  asset_server : string -> Response;
  events : list Event
}.

Definition set_fs (f : gset string) (w : World) : World :=
  mkWorld f (kv w) (kv_failing w) (cacheInitialized w) (clock w) (clock_reads w)
    (random w) (random_draws w) (tour_api w) (asset_server w) (events w).

Definition set_kv (m : gmap string string) (w : World) : World :=
  mkWorld (fs w) m (kv_failing w) (cacheInitialized w) (clock w) (clock_reads w)
    (random w) (random_draws w) (tour_api w) (asset_server w) (events w).

Definition set_cacheInitialized (b : bool) (w : World) : World :=
  mkWorld (fs w) (kv w) (kv_failing w) b (clock w) (clock_reads w)
    (random w) (random_draws w) (tour_api w) (asset_server w) (events w).

Definition set_clock_reads (n : nat) (w : World) : World :=
  mkWorld (fs w) (kv w) (kv_failing w) (cacheInitialized w) (clock w) n
    (random w) (random_draws w) (tour_api w) (asset_server w) (events w).

Definition set_random_draws (n : nat) (w : World) : World :=
  mkWorld (fs w) (kv w) (kv_failing w) (cacheInitialized w) (clock w)
    (clock_reads w) (random w) n (tour_api w) (asset_server w) (events w).

Definition emit (e : Event) (w : World) : World :=
  mkWorld (fs w) (kv w) (kv_failing w) (cacheInitialized w) (clock w)
    (clock_reads w) (random w) (random_draws w) (tour_api w) (asset_server w)
    (events w ++ [e]).

(** The three things an observer can single out of the events. *)
Definition requests_of (evs : list Event) : list string :=
  omap (λ e, match e with Requested u => Some u | _ => None end) evs.
Definition console_of (evs : list Event) : list LogEntry :=
  omap (λ e, match e with Logged l => Some l | _ => None end) evs.
Definition progress_of (evs : list Event) : list DownloadProgress :=
  omap (λ e, match e with Reported p => Some p | _ => None end) evs.

Definition requests (w : World) : list string := requests_of (events w).
Definition console (w : World) : list LogEntry := console_of (events w).
Definition progress_calls (w : World) : list DownloadProgress :=
  progress_of (events w).

(** ** Computations that may change the world and may throw *)

Inductive Outcome (A : Type) :=
| Ok (a : A)
| Throw (e : JsError).
Arguments Ok {A} a.
Arguments Throw {A} e.

Definition M (A : Type) : Type := World -> Outcome A * World.

Definition ret {A} (a : A) : M A := fun w => (Ok a, w).

Definition bind {A B} (c : M A) (k : A -> M B) : M B :=
  fun w => match c w with
           | (Ok a, w') => k a w'
           | (Throw e, w') => (Throw e, w')
           end.

Definition throw {A} (e : JsError) : M A := fun w => (Throw e, w).

(** [try { body } catch (e) { handler }]: what [body] did to the world
    before it threw stays done. *)
Definition try_catch {A} (body : M A) (handler : JsError -> M A) : M A :=
  fun w => match body w with
           | (Ok a, w') => (Ok a, w')
           | (Throw e, w') => handler e w'
           end.

Declare Scope js_scope.
Delimit Scope js_scope with js.
Notation "x <- c ;; k" := (bind c (fun x => k))
  (at level 100, c at next level, right associativity) : js_scope.
Notation "c ;;; k" := (bind c (fun _ => k))
  (at level 100, right associativity) : js_scope.
Local Open Scope js_scope.

(** ** Platform services *)

Module Console.
Definition warn (msg : string) : M unit :=
  fun w => (Ok tt, emit (Logged (Warn msg)) w).
Definition error (msg : string) : M unit :=
  fun w => (Ok tt, emit (Logged (Err msg)) w).
End Console.

Module Date.
(** [Date.now()], also the time held by [new Date()]. *)
Definition now : M Z :=
  fun w => (Ok (clock w (clock_reads w)), set_clock_reads (S (clock_reads w)) w).
End Date.

Module Math.
(** [Math.random()], as the base-36 digits after the point. *)
Definition random : M (list N) :=
  fun w => (Ok (random w (random_draws w)),
            set_random_draws (S (random_draws w)) w).

(** [Math.round(x)]: the nearest integer, a tie going up. *)
Definition round (x : Q) : Z := Qfloor (x + (1 # 2))%Q.
End Math.

Module FileSystem.
Record FileInfo := { exists_ : bool }.
Record DownloadResult := { status : Z; uri : string }.

(** The directory a path lies in: the path up to its last slash. *)
Definition dirname (path : string) : string :=
  match JsString.last_index "/" path with
  | Some i => JsString.substring 0 (S i) path
  | None => EmptyString
  end.

Definition getInfoAsync (path : string) : M FileInfo :=
  fun w => (Ok {| exists_ := bool_decide (path ∈ fs w) |}, w).

(** [makeDirectoryAsync(path, { intermediates: true })] *)
Definition makeDirectoryAsync (path : string) : M unit :=
  fun w => (Ok tt, set_fs ({[ path ]} ∪ fs w) w).

(** Deletes a file, or a directory with everything below it; rejects
    when nothing is there. *)
Definition deleteAsync (path : string) : M unit :=
  fun w =>
    if bool_decide (path ∈ fs w)
    then (Ok tt, set_fs (filter (λ q, String.prefix path q = false) (fs w)) w)
    else (Throw (Error ("File '" +:+ path +:+ "' could not be deleted "
                        +:+ "because it could not be found")), w).

(** Rejects when the target directory is missing or the request fails;
    otherwise the response body is saved at [path], whatever the status. *)
Definition downloadAsync (url path : string) : M DownloadResult :=
  fun w =>
    if bool_decide (dirname path ∈ fs w) then
      let w := emit (Requested url) w in
      match asset_server w url with
      | Unreachable => (Throw (Error "Network request failed"), w)
      | Http s => (Ok {| status := s; uri := path |},
                   set_fs ({[ path ]} ∪ fs w) w)
      end
    else (Throw (Error ("Directory for '" +:+ path +:+ "' doesn't exist.")), w).
End FileSystem.

Module AsyncStorage.
Definition unavailable : JsError := Error "AsyncStorage is unavailable".

Definition getItem (key : string) : M (option string) :=
  fun w => if kv_failing w then (Throw unavailable, w)
           else (Ok (kv w !! key), w).

Definition setItem (key value : string) : M unit :=
  fun w => if kv_failing w then (Throw unavailable, w)
           else (Ok tt, set_kv (<[key := value]> (kv w)) w).

Definition removeItem (key : string) : M unit :=
  fun w => if kv_failing w then (Throw unavailable, w)
           else (Ok tt, set_kv (delete key (kv w)) w).

Definition getAllKeys : M (list string) :=
  fun w => if kv_failing w then (Throw unavailable, w)
           else (Ok (elements (dom (kv w))), w).

Definition multiRemove (keys : list string) : M unit :=
  fun w => if kv_failing w then (Throw unavailable, w)
           else (Ok tt, set_kv (foldr delete (kv w) keys) w).
End AsyncStorage.

(** [config/api.ts] *)
Module STORAGE_KEYS.
Definition ACCESS_TOKEN : string := "access_token".
Definition REFRESH_TOKEN : string := "refresh_token".
Definition USER : string := "user".
End STORAGE_KEYS.

(** [services/api.ts]: a request first reads the access token from
    AsyncStorage, then asks the server. *)
Module ApiService.
Definition getAuthHeaders : M (option string) :=
  AsyncStorage.getItem STORAGE_KEYS.ACCESS_TOKEN.

Definition getTourDetails (id : Z) : M TourDetails.t :=
  _ <- getAuthHeaders ;;
  fun w => match tour_api w id with
           | Some td => (Ok td, w)
           | None => (Throw (Error "Request failed"), w)
           end.
End ApiService.

(** Functions of the JavaScript runtime and of Expo that are taken as
    given: the JSON codec for [CachedTourData], the ISO rendering and
    parsing of dates (times are epoch milliseconds; [None] is an invalid
    date), the application's document directory, and the rounding of a
    real number to the nearest double, which ends every arithmetic
    operation on numbers. *)
Record Platform := {
  documentDirectory : string;
  JSON_stringify : CachedTourData -> string;
  JSON_parse : string -> option CachedTourData;
  Date_toISOString : Z -> string;
  Date_parse : string -> option Z;
  double : Q -> Q
}.

(** ** The cache manager ([class TourAssetDownloader]) *)

Section TourAssetDownloader.
Variable P : Platform.

Definition cacheDir : string := documentDirectory P +:+ "tour_cache/".
Definition CACHE_EXPIRY_HOURS : Z := 24.

(** [Math.round((downloaded / total) * 100)]: the quotient and the
    product are each rounded to a double.  (For [total = 0] JavaScript
    yields NaN; the loop never asks, since it then has no URL.) *)
Definition round_percent (downloaded total : nat) : Z :=
  Math.round
    (double P (double P (inject_Z (Z.of_nat downloaded)
                         / inject_Z (Z.of_nat total))%Q * 100)%Q).

(** The key-value key of a tour: [`cached_tour_${tourId}`]. *)
Definition cache_key (tourId : Z) : string :=
  "cached_tour_" +:+ JsString.of_number tourId.

Definition ensureCacheDirectoryExists : M unit :=
  fun w =>
    if cacheInitialized w then (Ok tt, w)
    else (dirInfo <- FileSystem.getInfoAsync cacheDir ;;
          (if negb (FileSystem.exists_ dirInfo)
           then FileSystem.makeDirectoryAsync cacheDir
           else ret tt) ;;;
          fun w => (Ok tt, set_cacheInitialized true w)) w.

(** The string work of [getFileNameFromUrl], once the time stamp and
    the random token are drawn. *)
Definition file_name (url : string) (timestamp : Z) (randomId : string) : string :=
  let urlParts := JsString.split "/" url in
  let fileName := JsString.last_part urlParts in
  let dotIndex := JsString.lastIndexOf "." fileName in
  if 0 <? dotIndex then
    let name := JsString.substring 0 (Z.to_nat dotIndex) fileName in
    let ext := JsString.substring_from (Z.to_nat dotIndex) fileName in
    name +:+ "_" +:+ JsString.of_number timestamp +:+ "_" +:+ randomId +:+ ext
  else
    fileName +:+ "_" +:+ JsString.of_number timestamp +:+ "_" +:+ randomId.

(** [Math.random().toString(36).substring(2, 8)] *)
Definition random_token : M string :=
  r <- Math.random ;; ret (JsString.of_digits36 (take 6 r)).

Definition getFileNameFromUrl (url : string) : M string :=
  timestamp <- Date.now ;;
  randomId <- random_token ;;
  ret (file_name url timestamp randomId).

Definition downloadFile (url : string) : M string :=
  ensureCacheDirectoryExists ;;;
  fileName <- getFileNameFromUrl url ;;
  let localPath := cacheDir +:+ fileName in
  fileInfo <- FileSystem.getInfoAsync localPath ;;
  if FileSystem.exists_ fileInfo then ret localPath
  else
    downloadResult <- FileSystem.downloadAsync url localPath ;;
    if FileSystem.status downloadResult =? 200
    then ret (FileSystem.uri downloadResult)
    else throw (Error ("Failed to download " +:+ url +:+ ": Status "
                       +:+ JsString.of_number (FileSystem.status downloadResult))).

(** [onProgress?.(arg)]: without a callback the argument is not even
    evaluated; with one, the call is an event.  The callback is an
    observer: it takes the report and returns. *)
Definition call_onProgress (onProgress : bool) (arg : M DownloadProgress) : M unit :=
  if onProgress then
    p <- arg ;;
    fun w => (Ok tt, emit (Reported p) w)
  else ret tt.

Definition failed_message (url : string) : string :=
  "Failed to download " +:+ url +:+ ":".

(** The [if (url) { try { ... } catch { ... } }] of the loop body. *)
Definition attempt (onProgress : bool) (total downloaded : nat) (url : string)
    (localAssets : gmap string string) : M (gmap string string) :=
  if JsString.truthy url then
    try_catch
      (call_onProgress onProgress
         (fileName <- getFileNameFromUrl url ;;
          ret {| total := total; downloaded := downloaded;
                 currentFile := fileName;
                 percentage := round_percent downloaded total |}) ;;;
       localPath <- downloadFile url ;;
       ret (<[url := localPath]> localAssets))
      (fun error => Console.warn (failed_message url) ;;; ret localAssets)
  else ret localAssets.

(** The report that follows [downloaded++]. *)
Definition after_report (total downloaded : nat) : DownloadProgress :=
  {| total := total; downloaded := downloaded;
     currentFile := if (downloaded <? total)%nat
                    then "Next file..." else "Complete!";
     percentage := round_percent downloaded total |}.

(** [for (const url of urlsToDownload) { ... }], with the loop
    variables [downloaded] and [localAssets] passed along. *)
Fixpoint download_loop (onProgress : bool) (total : nat) (urls : list string)
    (downloaded : nat) (localAssets : gmap string string)
    : M (gmap string string) :=
  match urls with
  | [] => ret localAssets
  | url :: rest =>
      localAssets <- attempt onProgress total downloaded url localAssets ;;
      let downloaded := S downloaded in
      call_onProgress onProgress (ret (after_report total downloaded)) ;;;
      download_loop onProgress total rest downloaded localAssets
  end.

Definition start_report (total : nat) : DownloadProgress :=
  {| total := total; downloaded := 0;
     currentFile := "Starting download..."; percentage := 0 |}.

Definition downloadTourAssets (tourId : Z) (onProgress : bool) : M CachedTourData :=
  try_catch
    (ensureCacheDirectoryExists ;;;
     tourResponse <- ApiService.getTourDetails tourId ;;
     let tourDetails := tourResponse in
     let urlsToDownload := Collector.collectAllAssetUrls tourDetails in
     let total := List.length urlsToDownload in
     call_onProgress onProgress (ret (start_report total)) ;;;
     localAssets <- download_loop onProgress total urlsToDownload 0 ∅ ;;
     now <- Date.now ;;
     let cachedData := {| tourDetails := tourDetails;
                          downloadedAt := Date_toISOString P now;
                          localAssets := localAssets |} in
     AsyncStorage.setItem (cache_key tourId) (JSON_stringify P cachedData) ;;;
     ret cachedData)
    (fun error => Console.error "Tour asset download failed:" ;;; throw error).

(** [JSON.parse(s)], throwing a syntax error on malformed text. *)
Definition parse_cached (s : string) : M CachedTourData :=
  match JSON_parse P s with
  | Some c => ret c
  | None => throw (Error "JSON Parse error")
  end.

Definition isTourCached (tourId : Z) : M bool :=
  try_catch
    (cachedDataString <- AsyncStorage.getItem (cache_key tourId) ;;
     if negb (JsString.truthy_opt cachedDataString) then ret false
     else
       cachedData <- parse_cached (default EmptyString cachedDataString) ;;
       let downloadedAt := Date_parse P (downloadedAt cachedData) in
       let expiryTime :=
         (λ t, t + CACHE_EXPIRY_HOURS * 60 * 60 * 1000) <$> downloadedAt in
       now <- Date.now ;;
       (* a comparison with an invalid date is false *)
       ret (match expiryTime with
            | Some e => now <? e
            | None => false
            end))
    (fun error => Console.error "Error checking tour cache:" ;;; ret false).

Definition getCachedTourData (tourId : Z) : M (option CachedTourData) :=
  try_catch
    (cachedDataString <- AsyncStorage.getItem (cache_key tourId) ;;
     if negb (JsString.truthy_opt cachedDataString) then ret None
     else
       cachedData <- parse_cached (default EmptyString cachedDataString) ;;
       ret (Some cachedData))
    (fun error => Console.error "Error getting cached tour data:" ;;; ret None).

(** [cachedData.localAssets[remoteUrl] || null] *)
Definition getLocalPath (remoteUrl : string) (cachedData : CachedTourData)
    : option string :=
  match localAssets cachedData !! remoteUrl with
  | Some p => if JsString.truthy p then Some p else None
  | None => None
  end.

(** [`${this.cacheDir}tour_${tourId}/`] *)
Definition tourCacheDir (tourId : Z) : string :=
  cacheDir +:+ "tour_" +:+ JsString.of_number tourId +:+ "/".

Definition clearTourCache (tourId : Z) : M unit :=
  try_catch
    (ensureCacheDirectoryExists ;;;
     AsyncStorage.removeItem (cache_key tourId) ;;;
     dirInfo <- FileSystem.getInfoAsync (tourCacheDir tourId) ;;
     if FileSystem.exists_ dirInfo
     then FileSystem.deleteAsync (tourCacheDir tourId)
     else ret tt)
    (fun error => Console.error "Error clearing tour cache:").

Definition clearAllCache : M unit :=
  try_catch
    (ensureCacheDirectoryExists ;;;
     keys <- AsyncStorage.getAllKeys ;;
     let tourCacheKeys := List.filter (JsString.startsWith "cached_tour_") keys in
     AsyncStorage.multiRemove tourCacheKeys ;;;
     dirInfo <- FileSystem.getInfoAsync cacheDir ;;
     (if FileSystem.exists_ dirInfo then FileSystem.deleteAsync cacheDir
      else ret tt) ;;;
     ensureCacheDirectoryExists)
    (fun error => Console.error "Error clearing all cache:").

End TourAssetDownloader.

(** ** A concrete platform and concrete worlds, to run the model *)

Module Demo.

Definition empty_tour : TourDetails.t := TourDetails.mk 0 None [].

(** A stand-in codec: the persisted text is the download time between
    braces, and reading it back yields an entry with that time.
    Arithmetic is exact: every real number is taken to be a double. *)
Definition platform : Platform := {|
  documentDirectory := "file:///data/app/files/";
  JSON_stringify := fun c => "{" +:+ downloadedAt c +:+ "}";
  JSON_parse := fun s =>
    match s with
    | String "{" rest =>
        Some {| tourDetails := empty_tour;
                downloadedAt := JsString.substring 0 (String.length rest - 1) rest;
                localAssets := ∅ |}
    | _ => None
    end;
  Date_toISOString := JsString.of_number;
  Date_parse := fun s => Z.of_int <$> NilZero.int_of_string s;
  double := fun x => x
|}.

Definition statue : Asset.t :=
  Asset.mk 11 (Some "https://cdn.example.org/models/statue.glb")
    (Some ["https://cdn.example.org/models/statue.mtl"])
    None (Some show_directly) None None None.

Definition tour7 : TourDetails.t :=
  TourDetails.mk 7 (Some "https://cdn.example.org/img/tour7.png")
    [TourObject.mk 1 (Some "https://cdn.example.org/img/tour7.png")
       (Some [statue]) None].

(** A fresh installation: only the document directory exists. *)
Definition fresh : World := {|
  fs := {[ "file:///data/app/files/" ]};
  kv := {[ "access_token" := "tok"; "user" := "{}" ]};
  kv_failing := false;
  cacheInitialized := false;
  clock := fun n => Z.of_nat n + 1700000000000;
  clock_reads := 0;
  random := fun n => (N.of_nat n :: [10; 11; 35; 4; 5; 6; 7])%N;
  random_draws := 0;
  tour_api := fun id => if id =? 7 then Some tour7 else None;
  asset_server := fun url =>
    if String.eqb url "https://cdn.example.org/models/statue.mtl"
    then Http 404 else Http 200;
  events := []
|}.

Definition statue_url : string := "https://cdn.example.org/models/statue.glb".

Definition with_entry (text : string) (w : World) : World :=
  set_kv (<["cached_tour_7" := text]> (kv w)) w.

(** Entries written 23 and 25 hours before the clock's next reading. *)
Definition cached_23h_ago : World := with_entry "{1699917200000}" fresh.
Definition cached_25h_ago : World := with_entry "{1699910000000}" fresh.

(** An entry that is not JSON, and a store that rejects every call. *)
Definition garbled : World := with_entry "oops" fresh.
Definition store_down : World :=
  mkWorld (fs fresh) (kv fresh) true (cacheInitialized fresh) (clock fresh)
    (clock_reads fresh) (random fresh) (random_draws fresh) (tour_api fresh)
    (asset_server fresh) (events fresh).

(** A tour with three assets, all of which the server delivers. *)
Definition tour3 : TourDetails.t :=
  TourDetails.mk 3 (Some "https://cdn.example.org/a.png")
    [TourObject.mk 1 (Some "https://cdn.example.org/b.png") None
       (Some [Task.mk 5 (Some "https://cdn.example.org/c") None])].

(** The batch for tour 7 in the fresh installation, and its record. *)
Definition batch7 : Outcome CachedTourData * World :=
  downloadTourAssets platform 7 true fresh.

Definition record7 : CachedTourData :=
  match batch7.1 with
  | Ok c => c
  | Throw _ => {| tourDetails := empty_tour; downloadedAt := EmptyString;
                  localAssets := ∅ |}
  end.

Definition fresh3 : World :=
  mkWorld (fs fresh) (kv fresh) false false (clock fresh) 0 (random fresh) 0
    (fun id => if id =? 3 then Some tour3 else None)
    (fun _ => Http 200) [].

End Demo.

(** ** Vocabulary for stating what a run does *)

Section Vocabulary.
Variable P : Platform.

(** The world after [ensureCacheDirectoryExists]. *)
Definition ensured (w : World) : World :=
  if cacheInitialized w then w
  else set_cacheInitialized true
         (if bool_decide (cacheDir P ∈ fs w) then w
          else set_fs ({[ cacheDir P ]} ∪ fs w) w).

(** The name [getFileNameFromUrl] derives in [w], and the world after
    the clock and the random source have been read once each. *)
Definition next_name (url : string) (w : World) : string :=
  file_name url (clock w (clock_reads w))
    (JsString.of_digits36 (take 6 (random w (random_draws w)))).

Definition drawn (w : World) : World :=
  set_random_draws (S (random_draws w)) (set_clock_reads (S (clock_reads w)) w).

(** A path directly under the cache root: the root followed by a name
    without a slash. *)
Definition under_cache_root (path : string) : Prop :=
  ∃ name, path = cacheDir P +:+ name ∧ JsString.occurs "/" name = false.

(** From [w] to [w'] the file system has only grown, and only by paths
    directly under the cache root (the root itself among them). *)
Definition fs_grows (w w' : World) : Prop :=
  fs w ⊆ fs w' ∧ ∀ q, q ∈ fs w' → q ∈ fs w ∨ under_cache_root q.

(** Nothing but the file system, the flag, the counters and the event
    trace differs between [w] and [w']. *)
Definition same_services (w w' : World) : Prop :=
  kv w' = kv w ∧ kv_failing w' = kv_failing w ∧ tour_api w' = tour_api w
  ∧ asset_server w' = asset_server w ∧ clock w' = clock w
  ∧ random w' = random w.

(** The expiry window in milliseconds. *)
Definition expiry_ms : Z := CACHE_EXPIRY_HOURS * 60 * 60 * 1000.

(** The report made before the download of the [downloaded]-th URL. *)
Definition before_report (total downloaded : nat) (fileName : string)
    : DownloadProgress :=
  {| total := total; downloaded := downloaded; currentFile := fileName;
     percentage := round_percent P downloaded total |}.

(** What is assumed of the rounding to a double: it keeps zero, it is
    monotone, and on the range met here its relative error is at most
    [2^-53].  Rounding to the nearest binary64 number has these
    properties; so has exact arithmetic. *)
Definition unit_roundoff : Q := (1 # 9007199254740992)%Q.

Record rounds_like_binary64 : Prop := {
  double_zero : (double P 0 == 0)%Q;
  double_monotone : ∀ x y : Q,
    (0 <= x)%Q → (x <= y)%Q → (y <= 128)%Q → (double P x <= double P y)%Q;
  double_accurate : ∀ x : Q,
    ((1 # 4) <= x)%Q → (x <= 128)%Q →
    (x * (1 - unit_roundoff) <= double P x)%Q ∧ (double P x <= x * (1 + unit_roundoff))%Q
}.

(** [downloaded / total] as a real number. *)
Definition ratio (downloaded total : nat) : Q :=
  (inject_Z (Z.of_nat downloaded) / inject_Z (Z.of_nat total))%Q.

(** The events a callback call contributes. *)
Definition reported (onProgress : bool) (p : DownloadProgress) : list Event :=
  if onProgress then [Reported p] else [].

(** The shape of the events of a batch over [urls], starting with
    [downloaded] URLs already counted; [failed] lists the URLs whose
    download failed.  For each URL, in this order: the report before
    the download, at most one request for that URL, a warning exactly
    when the download failed, the report after. *)
Inductive batch_events (onProgress : bool) (total : nat)
    : nat → list string → list string → list Event → Prop :=
| batch_done downloaded :
    batch_events onProgress total downloaded [] [] []
| batch_success downloaded url rest failed fileName reqs evs :
    reqs = [] ∨ reqs = [Requested url] →
    batch_events onProgress total (S downloaded) rest failed evs →
    batch_events onProgress total downloaded (url :: rest) failed
      (reported onProgress (before_report total downloaded fileName)
       ++ reqs
       ++ reported onProgress (after_report P total (S downloaded))
       ++ evs)
| batch_failure downloaded url rest failed fileName reqs evs :
    reqs = [] ∨ reqs = [Requested url] →
    batch_events onProgress total (S downloaded) rest failed evs →
    batch_events onProgress total downloaded (url :: rest) (url :: failed)
      (reported onProgress (before_report total downloaded fileName)
       ++ reqs
       ++ [Logged (Warn (failed_message url))]
       ++ reported onProgress (after_report P total (S downloaded))
       ++ evs).

(** The (downloaded, percentage) pairs a batch over [n] URLs reports
    after its opening report, starting from [downloaded]. *)
Definition expected_reports (total downloaded n : nat) : list (nat * Z) :=
  flat_map (λ i, [(i, round_percent P i total);
                  (S i, round_percent P (S i) total)])
           (seq downloaded n).

End Vocabulary.

(** ** More vocabulary *)

(** The extension of a file name, as [getFileNameFromUrl] understands
    it: what starts at the last dot, unless that dot is the first
    character or there is none. *)
Definition extension (s : string) : string :=
  match JsString.last_index "." s with
  | Some (S i) => JsString.substring_from (S i) s
  | _ => EmptyString
  end.

(** A step of the collector's traversal only appends to the list. *)
Definition appends (f : list string → list string) : Prop :=
  ∀ urls, ∃ r, f urls = (urls ++ r)%list.

(** The world with the server out of reach: no tour record and no
    asset can be fetched. *)
Definition offline (w : World) : World :=
  mkWorld (fs w) (kv w) (kv_failing w) (cacheInitialized w) (clock w)
    (clock_reads w) (random w) (random_draws w) (fun _ => None)
    (fun _ => Unreachable) (events w).

(** ** The session calls of the API service ([services/api.ts]) *)

Module User.
Record t := mk {
  id : Z;
  auth_user_id : string;
  email : string;
  username : string;
  display_name : string;
  avatar_url : option string;
  last_login_at : string;
  created_at : string
}.
End User.

Module Session.
Record t := mk {
  access_token : string;
  refresh_token : string;
  expires_at : Z
}.
End Session.

Module AuthResponse.
Record t := mk {
  user : User.t;
  session : Session.t
}.
End AuthResponse.

Module LoginRequest.
Record t := mk {
  email : string;
  password : string
}.
End LoginRequest.

Module SignupRequest.
Record t := mk {
  email : string;
  password : string;
  display_name : string;
  username : string
}.
End SignupRequest.

Module SiteSettings.
Record t := mk {
  id : Z;
  site_name : string;
  site_logo_url : option string;
  primary_color : option string;
  accent_color : option string;
  created_at : string;
  updated_at : string
}.
End SiteSettings.

Module ApiResponse.
Record t (T : Type) := mk {
  data : T;
  settings : SiteSettings.t
}.
Arguments mk {T} data settings.
Arguments data {T} _.
Arguments settings {T} _.
End ApiResponse.

Module Tour.
Record t := mk {
  id : Z;
  title : string;
  description : string;
  thumbnail_url : option string;
  created_at : string
}.
End Tour.

(** What these calls take as given: the answers of the server to the
    requests they make ([None]: the request fails or the server
    refuses) and the JSON codec for a [User] ([None]: a syntax
    error). *)
Record Backend := {
  auth_login : LoginRequest.t -> option (ApiResponse.t AuthResponse.t);
  auth_signup : SignupRequest.t -> option (ApiResponse.t AuthResponse.t);
  get_settings : option (ApiResponse.t SiteSettings.t);
  get_tours : option (ApiResponse.t (list Tour.t));
  JSON_stringify_user : User.t -> string;
  JSON_parse_user : string -> option User.t
}.

Module ApiSession.
Section WithBackend.
Variable B : Backend.

(** [makeRequest]: the access token is read for the headers, then the
    server is asked. *)
Definition makeRequest {T} (answer : option T) : M T :=
  _ <- ApiService.getAuthHeaders ;;
  match answer with
  | Some response => ret response
  | None => throw (Error "Request failed")
  end.

Definition login (credentials : LoginRequest.t)
    : M (ApiResponse.t AuthResponse.t) :=
  response <- makeRequest (auth_login B credentials) ;;
  AsyncStorage.setItem STORAGE_KEYS.ACCESS_TOKEN
    (Session.access_token (AuthResponse.session (ApiResponse.data response))) ;;;
  AsyncStorage.setItem STORAGE_KEYS.REFRESH_TOKEN
    (Session.refresh_token (AuthResponse.session (ApiResponse.data response))) ;;;
  AsyncStorage.setItem STORAGE_KEYS.USER
    (JSON_stringify_user B (AuthResponse.user (ApiResponse.data response))) ;;;
  ret response.

Definition signup (userData : SignupRequest.t)
    : M (ApiResponse.t AuthResponse.t) :=
  response <- makeRequest (auth_signup B userData) ;;
  AsyncStorage.setItem STORAGE_KEYS.ACCESS_TOKEN
    (Session.access_token (AuthResponse.session (ApiResponse.data response))) ;;;
  AsyncStorage.setItem STORAGE_KEYS.REFRESH_TOKEN
    (Session.refresh_token (AuthResponse.session (ApiResponse.data response))) ;;;
  AsyncStorage.setItem STORAGE_KEYS.USER
    (JSON_stringify_user B (AuthResponse.user (ApiResponse.data response))) ;;;
  ret response.

Definition logout : M unit :=
  AsyncStorage.multiRemove
    [STORAGE_KEYS.ACCESS_TOKEN; STORAGE_KEYS.REFRESH_TOKEN; STORAGE_KEYS.USER].

(** [return !!token] *)
Definition isAuthenticated : M bool :=
  token <- AsyncStorage.getItem STORAGE_KEYS.ACCESS_TOKEN ;;
  ret (JsString.truthy_opt token).

(** [return userString ? JSON.parse(userString) : null] *)
Definition getCurrentUser : M (option User.t) :=
  userString <- AsyncStorage.getItem STORAGE_KEYS.USER ;;
  if JsString.truthy_opt userString then
    match JSON_parse_user B (default EmptyString userString) with
    | Some u => ret (Some u)
    | None => throw (Error "JSON Parse error")
    end
  else ret None.

Definition getSettings : M (ApiResponse.t SiteSettings.t) :=
  makeRequest (get_settings B).

Definition getTours : M (ApiResponse.t (list Tour.t)) :=
  makeRequest (get_tours B).

End WithBackend.
End ApiSession.

(** ** The tour screen ([screens/TourScreen.tsx])

    The state variables of the component that the cache feeds, and the
    alerts it has shown. *)

Module TourScreen.

Record State := mkState {
  tour : option TourDetails.t;
  cachedData : option CachedTourData;
  isLoading : bool;
  alerts : list (string * string)
}.

Definition setTour (v : option TourDetails.t) (s : State) : State :=
  mkState v (cachedData s) (isLoading s) (alerts s).
Definition setCachedData (v : option CachedTourData) (s : State) : State :=
  mkState (tour s) v (isLoading s) (alerts s).
Definition setIsLoading (v : bool) (s : State) : State :=
  mkState (tour s) (cachedData s) v (alerts s).
(** [Alert.alert(title, message)] *)
Definition Alert_alert (title message : string) (s : State) : State :=
  mkState (tour s) (cachedData s) (isLoading s) (alerts s ++ [(title, message)]).

Section WithPlatform.
Variable P : Platform.

Definition loadTourDetails (tourId : Z) (useCachedData : bool) (s : State)
    : M State :=
  let fromApi : M State :=
    response <- ApiService.getTourDetails tourId ;;
    ret (setTour (Some response) s) in
  s <- try_catch
         (if useCachedData then
            cached <- getCachedTourData P tourId ;;
            match cached with
            | Some cached =>
                ret (setIsLoading false
                       (setCachedData (Some cached)
                          (setTour (Some (tourDetails cached)) s)))
            | None => fromApi
            end
          else fromApi)
         (fun error =>
            Console.error "Failed to load tour details:" ;;;
            ret (Alert_alert "Error" "Failed to load tour details" s)) ;;
  (* finally *)
  ret (setIsLoading false s).

(** The [uri] of the image source, [None] for [undefined]. *)
Definition getImageSource (s : State) (remoteUrl : option string)
    : option string :=
  if negb (JsString.truthy_opt remoteUrl) then None
  else
    let remoteUrl := default EmptyString remoteUrl in
    match cachedData s with
    | Some cachedData =>
        match getLocalPath remoteUrl cachedData with
        | Some localPath => Some localPath
        | None => Some remoteUrl
        end
    | None => Some remoteUrl
    end.

(** [return !!remoteUrl] *)
Definition hasValidImageSource (remoteUrl : option string) : bool :=
  JsString.truthy_opt remoteUrl.

End WithPlatform.
End TourScreen.

(** ** Vocabulary for the session and the tour screen *)

(** The keys under which the API service keeps the session. *)
Definition session_key (k : string) : Prop :=
  k = STORAGE_KEYS.ACCESS_TOKEN ∨ k = STORAGE_KEYS.REFRESH_TOKEN
  ∨ k = STORAGE_KEYS.USER.

(** From [w] to [w'] the session of [response] has been written to the
    store, and nothing else has changed there, on disk or in the
    trace. *)
Definition session_stored (B : Backend) (response : AuthResponse.t)
    (w w' : World) : Prop :=
  kv w' !! STORAGE_KEYS.ACCESS_TOKEN
  = Some (Session.access_token (AuthResponse.session response))
  ∧ kv w' !! STORAGE_KEYS.REFRESH_TOKEN
    = Some (Session.refresh_token (AuthResponse.session response))
  ∧ kv w' !! STORAGE_KEYS.USER
    = Some (JSON_stringify_user B (AuthResponse.user response))
  ∧ (∀ k, ¬ session_key k → kv w' !! k = kv w !! k)
  ∧ kv_failing w' = false ∧ fs w' = fs w ∧ events w' = events w.

(** The world after the session of [r] has been written. *)
Definition with_session (B : Backend) (r : AuthResponse.t) (w : World) : World :=
  set_kv
    (<[STORAGE_KEYS.USER := JSON_stringify_user B (AuthResponse.user r)]>
       (<[STORAGE_KEYS.REFRESH_TOKEN :=
            Session.refresh_token (AuthResponse.session r)]>
          (<[STORAGE_KEYS.ACCESS_TOKEN :=
               Session.access_token (AuthResponse.session r)]> (kv w)))) w.

(** JSON reads the user back from its own text, which is not empty. *)
Definition user_reads_back (B : Backend) (u : User.t) : Prop :=
  JSON_stringify_user B u ≠ EmptyString
  ∧ JSON_parse_user B (JSON_stringify_user B u) = Some u.

(** What the screen does when it has to ask the server. *)
Definition from_api (tourId : Z) (s : TourScreen.State) (w : World)
    : Outcome TourScreen.State * World :=
  if kv_failing w
  then (Ok (TourScreen.setIsLoading false
              (TourScreen.Alert_alert "Error" "Failed to load tour details" s)),
        emit (Logged (Err "Failed to load tour details:")) w)
  else match tour_api w tourId with
       | Some td =>
           (Ok (TourScreen.setIsLoading false (TourScreen.setTour (Some td) s)),
            w)
       | None =>
           (Ok (TourScreen.setIsLoading false
                  (TourScreen.Alert_alert "Error" "Failed to load tour details" s)),
            emit (Logged (Err "Failed to load tour details:")) w)
       end.

(** ** Texts of the application ([config/app.ts]) *)

Module AppConfig.
Definition cache_cleared : string := "Cache Cleared".
Definition cache_clearedMessage : string :=
  "Tour cache has been cleared successfully.".
Definition cache_clearError : string := "Failed to clear tour cache.".
Definition download_failed : string := "Download Failed".
Definition download_failedMessage : string :=
  "Failed to download tour assets. Please check your internet connection and try again.".
Definition download_cancel : string := "Cancel".
Definition download_tryAgain : string := "Try Again".
Definition download_preparing : string := "Preparing...".
Definition errors_generic : string := "Error".
End AppConfig.

(** ** The home screen ([screens/HomeScreen.tsx])

    The state variables of the component, the navigations it has asked
    for and the alerts it has shown. *)

Module HomeScreen.

Record DownloadModalState := mkModal {
  visible : bool;
  tourId : option Z;
  tourTitle : string;
  progress : DownloadProgress
}.

(** [navigation.navigate('Tour', { tourId, tourTitle, useCachedData })] *)
Record Navigation := mkNavigation {
  screen : string;
  to_tourId : Z;
  to_tourTitle : string;
  useCachedData : bool
}.

(** [Alert.alert(title, message, buttons)], with the texts of the
    buttons. *)
Record Alert := mkAlert {
  title : string;
  message : string;
  buttons : list string
}.

Record State := mkState {
  tours : list Tour.t;
  isLoading : bool;
  refreshing : bool;
  cachedTours : gset Z;
  downloadModal : DownloadModalState;
  navigations : list Navigation;
  alerts : list Alert
}.

Definition setIsLoading (v : bool) (s : State) : State :=
  mkState (tours s) v (refreshing s) (cachedTours s) (downloadModal s)
    (navigations s) (alerts s).
Definition setCachedTours (v : gset Z) (s : State) : State :=
  mkState (tours s) (isLoading s) (refreshing s) v (downloadModal s)
    (navigations s) (alerts s).
Definition setDownloadModal (v : DownloadModalState) (s : State) : State :=
  mkState (tours s) (isLoading s) (refreshing s) (cachedTours s) v
    (navigations s) (alerts s).
Definition navigate (n : Navigation) (s : State) : State :=
  mkState (tours s) (isLoading s) (refreshing s) (cachedTours s)
    (downloadModal s) (navigations s ++ [n]) (alerts s).
Definition Alert_alert (a : Alert) (s : State) : State :=
  mkState (tours s) (isLoading s) (refreshing s) (cachedTours s)
    (downloadModal s) (navigations s) (alerts s ++ [a]).

(** [setDownloadModal(prev => ({ ...prev, progress }))] *)
Definition showProgress (s : State) (p : DownloadProgress) : State :=
  setDownloadModal
    (mkModal (visible (downloadModal s)) (tourId (downloadModal s))
       (tourTitle (downloadModal s)) p) s.

(** [setDownloadModal(prev => ({ ...prev, visible: false }))] *)
Definition hideModal (s : State) : State :=
  setDownloadModal
    (mkModal false (tourId (downloadModal s)) (tourTitle (downloadModal s))
       (progress (downloadModal s))) s.

(** The reports the progress callback received from [w] to [w'], and
    what the callback made of them. *)
Definition reports_since (w w' : World) : list DownloadProgress :=
  drop (List.length (progress_calls w)) (progress_calls w').

Definition after_reports (w w' : World) (s : State) : State :=
  fold_left showProgress (reports_since w w') s.

Section WithPlatform.
Variable P : Platform.
Variable B : Backend.


(** [for (const tourId of tourIds) { ... }] *)
Fixpoint check_each (tourIds : list Z) (cachedSet : gset Z) : M (gset Z) :=
  match tourIds with
  | [] => ret cachedSet
  | tourId :: rest =>
      isCached <- isTourCached P tourId ;;
      check_each rest (if isCached : bool then {[ tourId ]} ∪ cachedSet
                       else cachedSet)
  end.

Definition checkCachedTours (s : State) : M State :=
  try_catch
    (response <- ApiSession.getTours B ;;
     let tourIds := map Tour.id (ApiResponse.data response) in
     cachedSet <- check_each tourIds ∅ ;;
     ret (setCachedTours cachedSet s))
    (fun error => Console.error "Error checking cached tours:" ;;; ret s).


Definition toTour (tour : Tour.t) : Navigation :=
  mkNavigation "Tour" (Tour.id tour) (Tour.title tour) true.

(** The callback of the batch writes each report into the modal; the
    [try] and [catch] blocks go on from the state it has left. *)
Definition startTour (tour : Tour.t) (s : State) : M State :=
  isCached <- isTourCached P (Tour.id tour) ;;
  if isCached : bool then ret (navigate (toTour tour) s)
  else
    let s :=
      setDownloadModal
        (mkModal true (Some (Tour.id tour)) (Tour.title tour)
           {| total := 0; downloaded := 0;
              currentFile := AppConfig.download_preparing;
              percentage := 0 |}) s in
    fun w =>
      match downloadTourAssets P (Tour.id tour) true w with
      | (Ok _, w') =>
          let s := after_reports w w' s in
          let s := setCachedTours ({[ Tour.id tour ]} ∪ cachedTours s) s in
          let s := hideModal s in
          (Ok (navigate (toTour tour) s), w')
      | (Throw error, w') =>
          let s := after_reports w w' s in
          let s := hideModal s in
          let s :=
            Alert_alert
              (mkAlert AppConfig.download_failed AppConfig.download_failedMessage
                 [AppConfig.download_cancel; AppConfig.download_tryAgain]) s in
          (Console.error "Tour download failed:" ;;; ret s) w'
      end.

Definition cancelDownload (s : State) : State := hideModal s.

Definition clearTourCache (tourId : Z) (s : State) : M State :=
  try_catch
    (clearTourCache P tourId ;;;
     let s := setCachedTours (cachedTours s ∖ {[ tourId ]}) s in
     ret (Alert_alert (mkAlert AppConfig.cache_cleared
                         AppConfig.cache_clearedMessage []) s))
    (fun error =>
       Console.error "Error clearing cache:" ;;;
       ret (Alert_alert (mkAlert AppConfig.errors_generic
                           AppConfig.cache_clearError []) s)).

End WithPlatform.
End HomeScreen.

(** ** The authentication context ([context/AuthContext.tsx]) *)

Module AuthContext.

Record State := mkState {
  user : option User.t;
  settings : option SiteSettings.t;
  isLoading : bool;
  isAuthenticated : bool
}.

(** The state the provider starts with. *)
Definition initial : State := mkState None None true false.

Definition setUser (v : option User.t) (s : State) : State :=
  mkState v (settings s) (isLoading s) (isAuthenticated s).
Definition setSettings (v : option SiteSettings.t) (s : State) : State :=
  mkState (user s) v (isLoading s) (isAuthenticated s).
Definition setIsLoading (v : bool) (s : State) : State :=
  mkState (user s) (settings s) v (isAuthenticated s).
Definition setIsAuthenticated (v : bool) (s : State) : State :=
  mkState (user s) (settings s) (isLoading s) v.

Section WithBackend.
Variable B : Backend.

Definition checkAuthStatus (s : State) : M State :=
  s <- try_catch
         (authenticated <- ApiSession.isAuthenticated ;;
          if authenticated : bool then
            currentUser <- ApiSession.getCurrentUser B ;;
            let s := setIsAuthenticated true (setUser currentUser s) in
            try_catch
              (settingsResponse <- ApiSession.getSettings B ;;
               ret (setSettings (Some (ApiResponse.settings settingsResponse)) s))
              (fun settingsError =>
                 Console.error "Error fetching settings:" ;;; ret s)
          else ret s)
         (fun error => Console.error "Error checking auth status:" ;;; ret s) ;;
  (* finally *)
  ret (setIsLoading false s).

Definition login (email password : string) (s : State) : M State :=
  try_catch
    (response <- ApiSession.login B (LoginRequest.mk email password) ;;
     ret (setIsAuthenticated true
            (setSettings (Some (ApiResponse.settings response))
               (setUser (Some (AuthResponse.user (ApiResponse.data response)))
                  s))))
    (fun error => throw error).

Definition signup (email password displayName username : string) (s : State)
    : M State :=
  try_catch
    (response <- ApiSession.signup B
                   (SignupRequest.mk email password displayName username) ;;
     ret (setIsAuthenticated true
            (setSettings (Some (ApiResponse.settings response))
               (setUser (Some (AuthResponse.user (ApiResponse.data response)))
                  s))))
    (fun error => throw error).

Definition logout (s : State) : M State :=
  try_catch
    (ApiSession.logout ;;;
     ret (setIsAuthenticated false (setSettings None (setUser None s))))
    (fun error => Console.error "Error logging out:" ;;; ret s).

End WithBackend.
End AuthContext.

(** ** More worlds and platforms to run the model in *)

Module Scenario.

(** A codec that reads back one record, and nothing else. *)
Definition reading_back (c : CachedTourData) : Platform := {|
  documentDirectory := documentDirectory Demo.platform;
  JSON_stringify := JSON_stringify Demo.platform;
  JSON_parse := fun s =>
    if String.eqb s (JSON_stringify Demo.platform c) then Some c else None;
  Date_toISOString := Date_toISOString Demo.platform;
  Date_parse := Date_parse Demo.platform;
  double := double Demo.platform
|}.

Definition platform : Platform := reading_back Demo.record7.

(** A tour without any URL. *)
Definition bare : World :=
  mkWorld (fs Demo.fresh) (kv Demo.fresh) false false (clock Demo.fresh) 0
    (random Demo.fresh) 0
    (fun id => if id =? 0 then Some Demo.empty_tour else None)
    (fun _ => Http 200) [].

Definition ada : User.t :=
  User.mk 1 "a-1" "ada@example.org" "ada" "Ada" None
    "2024-01-01T00:00:00.000Z" "2023-01-01T00:00:00.000Z".

Definition site : SiteSettings.t :=
  SiteSettings.mk 1 "Heritage" None None None
    "2023-01-01T00:00:00.000Z" "2023-01-01T00:00:00.000Z".

Definition ada_session : ApiResponse.t AuthResponse.t :=
  ApiResponse.mk (AuthResponse.mk ada (Session.mk "tok-ada" "ref-ada" 1700003600))
    site.

Definition ada_login : LoginRequest.t :=
  LoginRequest.mk "ada@example.org" "secret".

(** A server that knows one user, and a codec that writes a user as
    the e-mail address between braces and reads that user back. *)
Definition backend : Backend := {|
  auth_login := fun r =>
    if String.eqb (LoginRequest.email r) "ada@example.org"
       && String.eqb (LoginRequest.password r) "secret"
    then Some ada_session else None;
  auth_signup := fun _ => None;
  get_settings := Some (ApiResponse.mk site site);
  get_tours :=
    Some (ApiResponse.mk
            [Tour.mk 7 "Statues" "A walk among statues" None
               "2023-01-01T00:00:00.000Z";
             Tour.mk 3 "Gates" "The old gates" None
               "2023-01-01T00:00:00.000Z"]
            site);
  JSON_stringify_user := fun u => "{" +:+ User.email u +:+ "}";
  JSON_parse_user := fun s =>
    if String.eqb s "{ada@example.org}" then Some ada else None
|}.

Definition screen : TourScreen.State :=
  TourScreen.mkState None None true [].

End Scenario.

(** * Verification *)

(** ** Facts about the collector *)

Section CollectorFacts.
Import Collector.

Lemma truthy_iff s : JsString.truthy s = true ↔ s ≠ EmptyString.
Proof. destruct s; simpl; split; intros; congruence. Qed.

Lemma elem_of_push_if f urls u :
  u ∈ push_if f urls ↔ u ∈ urls ∨ carries f u.
Proof.
  unfold push_if, carries. destruct f as [s|].
  - destruct (JsString.truthy s) eqn:E.
    + apply truthy_iff in E. rewrite elem_of_app, list_elem_of_singleton.
      split; intros [H|H]; auto.
      * right. subst. auto.
      * right. destruct H as [H _]. congruence.
    + split; [auto|]. intros [H|[H Hne]]; [auto|].
      injection H as ->. apply truthy_iff in Hne. congruence.
  - split; [auto|]. intros [H|[H _]]; [auto|discriminate].
Qed.

Lemma elem_of_push_materials ms urls u :
  u ∈ push_materials ms urls ↔ u ∈ urls ∨ (u ∈ ms ∧ u ≠ EmptyString).
Proof.
  unfold push_materials. revert urls.
  induction ms as [|m ms IH]; intros urls; cbn [fold_left].
  - split; [auto|]. intros [H|[H _]]; [auto|]. inversion H.
  - rewrite IH, elem_of_push_if, elem_of_cons. unfold carries.
    split.
    + intros [[H|[H Hne]]|[H Hne]]; auto.
      injection H as ->. auto.
    + intros [H|[[->|H] Hne]]; auto.
Qed.

Lemma elem_of_fold_push {A} (f : list string -> A -> list string)
    (P : A -> string -> Prop) :
  (∀ urls a u, u ∈ f urls a ↔ u ∈ urls ∨ P a u) →
  ∀ l urls u, u ∈ fold_left f l urls ↔ u ∈ urls ∨ ∃ a, a ∈ l ∧ P a u.
Proof.
  intros Hf. induction l as [|a l IH]; intros urls u; simpl.
  - split; [auto|]. intros [H|(a & H & _)]; [auto|]. inversion H.
  - rewrite IH, Hf. split.
    + intros [[H|H]|(b & Hb & HP)]; auto.
      * right. exists a. split; [left|done].
      * right. exists b. split; [by right|done].
    + intros [H|(b & Hb & HP)]; auto.
      apply elem_of_cons in Hb as [->|Hb]; auto.
      right. eauto.
Qed.

Lemma elem_of_push_asset urls a u :
  u ∈ push_asset urls a ↔ u ∈ urls ∨ asset_url a u.
Proof.
  unfold push_asset, asset_url. cbv zeta.
  destruct (Asset.material_urls a) as [ms|];
    rewrite ?elem_of_push_if, ?elem_of_push_materials, ?elem_of_push_if.
  - split; [intuition eauto 10|].
    intros [H|[H|[(ms' & E & H)|H]]]; [tauto|tauto| |tauto].
    injection E as <-. tauto.
  - split; [tauto|].
    intros [H|[H|[(ms' & E & H)|H]]]; [tauto|tauto| |tauto].
    discriminate.
Qed.

Lemma elem_of_push_task urls k u :
  u ∈ push_task urls k ↔ u ∈ urls ∨ task_url k u.
Proof.
  unfold push_task, task_url. rewrite !elem_of_push_if. tauto.
Qed.

Lemma elem_of_forEach_opt {A} (f : list string -> A -> list string)
    (P : A -> string -> Prop) :
  (∀ urls a u, u ∈ f urls a ↔ u ∈ urls ∨ P a u) →
  ∀ xs urls u, u ∈ forEach_opt f xs urls
               ↔ u ∈ urls ∨ ∃ l a, xs = Some l ∧ a ∈ l ∧ P a u.
Proof.
  intros Hf [l|] urls u; simpl.
  - rewrite (elem_of_fold_push f P Hf). split.
    + intros [H|(a & Ha & HP)]; eauto 10.
    + intros [H|(l' & a & E & Ha & HP)]; [auto|].
      injection E as <-. eauto.
  - split; [auto|]. intros [H|(l & a & E & _)]; [auto|discriminate].
Qed.

Lemma elem_of_push_object urls o u :
  u ∈ push_object urls o ↔ u ∈ urls ∨ object_url o u.
Proof.
  unfold push_object, object_url.
  rewrite (elem_of_forEach_opt push_task task_url elem_of_push_task).
  rewrite (elem_of_forEach_opt push_asset asset_url elem_of_push_asset).
  rewrite elem_of_push_if. tauto.
Qed.

Lemma elem_of_pushed td u : u ∈ pushed td ↔ tour_url td u.
Proof.
  unfold pushed, tour_url.
  rewrite (elem_of_fold_push push_object object_url elem_of_push_object).
  rewrite elem_of_push_if. split.
  - intros [[H|H]|H]; auto. inversion H.
  - intros [H|H]; auto.
Qed.

Lemma set_add_all_spec urls : ∀ seen,
  NoDup seen →
  NoDup (set_add_all seen urls)
  ∧ ∀ u, u ∈ set_add_all seen urls ↔ u ∈ seen ∨ u ∈ urls.
Proof.
  induction urls as [|x urls IH]; intros seen Hnd; simpl.
  - split; [done|]. intros u. split; [auto|]. intros [H|H]; [done|inversion H].
  - case_bool_decide as Hin.
    + destruct (IH seen Hnd) as [H1 H2]. split; [done|].
      intros u. rewrite H2, elem_of_cons. split; [tauto|].
      intros [H|[->|H]]; auto.
    + assert (Hnd' : NoDup (seen ++ [x])).
      { apply NoDup_app. repeat split; [done| |apply NoDup_singleton].
        intros y Hy Hy'. apply list_elem_of_singleton in Hy'. by subst. }
      destruct (IH _ Hnd') as [H1 H2]. split; [done|].
      intros u. rewrite H2, elem_of_app, list_elem_of_singleton, elem_of_cons.
      tauto.
Qed.

Lemma Array_from_Set_NoDup urls : NoDup (Array_from_Set urls).
Proof. apply set_add_all_spec, NoDup_nil_2. Qed.

Lemma elem_of_Array_from_Set urls u : u ∈ Array_from_Set urls ↔ u ∈ urls.
Proof.
  unfold Array_from_Set.
  destruct (set_add_all_spec urls [] (NoDup_nil_2)) as [_ H].
  rewrite H. split; [|auto]. intros [H'|H']; [inversion H'|done].
Qed.

Lemma collect_NoDup td : NoDup (collectAllAssetUrls td).
Proof. apply Array_from_Set_NoDup. Qed.

Lemma elem_of_collect td u : u ∈ collectAllAssetUrls td ↔ tour_url td u.
Proof.
  unfold collectAllAssetUrls. by rewrite elem_of_Array_from_Set, elem_of_pushed.
Qed.

Lemma carries_nonempty f u : carries f u → u ≠ EmptyString.
Proof. by intros [_ H]. Qed.

Lemma asset_url_nonempty a u : asset_url a u → u ≠ EmptyString.
Proof.
  intros [H|[(ms & _ & _ & H)|[H|[H|[H|H]]]]];
    done || by eapply carries_nonempty.
Qed.

Lemma task_url_nonempty k u : task_url k u → u ≠ EmptyString.
Proof. intros [H|H]; by eapply carries_nonempty. Qed.

Lemma object_url_nonempty o u : object_url o u → u ≠ EmptyString.
Proof.
  intros [H|[(l & a & _ & _ & H)|(l & k & _ & _ & H)]].
  - by eapply carries_nonempty.
  - by eapply asset_url_nonempty.
  - by eapply task_url_nonempty.
Qed.

Lemma tour_url_nonempty td u : tour_url td u → u ≠ EmptyString.
Proof.
  intros [H|(o & _ & H)].
  - by eapply carries_nonempty.
  - by eapply object_url_nonempty.
Qed.

Lemma collect_truthy td u :
  u ∈ collectAllAssetUrls td → JsString.truthy u = true.
Proof.
  intros H. apply truthy_iff. eapply tour_url_nonempty.
  by apply elem_of_collect.
Qed.

End CollectorFacts.

(** ** Facts about strings and paths *)

Section StringFacts.
Import JsString.

Lemma app_cons x (a b : string) : String x a +:+ b = String x (a +:+ b).
Proof. reflexivity. Qed.

Lemma app_nil (b : string) : EmptyString +:+ b = b.
Proof. reflexivity. Qed.

Lemma occurs_app c a b : occurs c (a +:+ b) = occurs c a || occurs c b.
Proof.
  induction a as [|x a IH]; [done|].
  rewrite app_cons. simpl. by destruct (Ascii.eqb x c).
Qed.

Lemma occurs_substring c s : ∀ n m,
  occurs c s = false → occurs c (String.substring n m s) = false.
Proof.
  induction s as [|x s IH]; intros n m; simpl.
  - by destruct n, m.
  - destruct (Ascii.eqb x c) eqn:E; [done|]. intros H.
    destruct n as [|n].
    + destruct m as [|m]; simpl; [done|]. rewrite E. by apply IH.
    + by apply IH.
Qed.

Lemma split_no_sep sep s :
  Forall (λ p, occurs sep p = false) (split sep s).
Proof.
  induction s as [|x s IH]; simpl.
  - by repeat constructor.
  - destruct (Ascii.eqb x sep) eqn:E.
    + by constructor.
    + destruct (split sep s) as [|h t].
      * repeat constructor. simpl. by rewrite E.
      * inversion IH; subst. constructor; [|done]. simpl. by rewrite E.
Qed.

Lemma last_part_no_sep sep s : occurs sep (last_part (split sep s)) = false.
Proof.
  unfold last_part. pose proof (split_no_sep sep s) as H.
  induction H as [|p l Hp Hl IH]; simpl; [done|].
  destruct l; [done|]. apply IH.
Qed.

Lemma occurs_slash_of_uint d : occurs "/" (NilEmpty.string_of_uint d) = false.
Proof. induction d; simpl; done. Qed.

Lemma occurs_slash_of_number z : occurs "/" (of_number z) = false.
Proof.
  unfold of_number.
  destruct (Z.to_int z) as [d|d]; simpl;
    destruct d; simpl; done || apply occurs_slash_of_uint.
Qed.

Lemma digit36_not_slash n : Ascii.eqb (digit36 n) "/" = false.
Proof.
  unfold digit36.
  assert (H : Forall (λ a, Ascii.eqb a "/" = false) alphabet36)
    by (vm_compute; repeat constructor).
  assert (Hd : Ascii.eqb "0" "/" = false) by reflexivity.
  generalize (N.to_nat (n mod 36)). intros k. revert k.
  induction H as [|a l Ha Hl IH]; intros [|k]; simpl; auto.
Qed.

Lemma occurs_slash_of_digits36 ds : occurs "/" (of_digits36 ds) = false.
Proof.
  unfold of_digits36. induction ds as [|d ds IH]; simpl; [done|].
  by rewrite digit36_not_slash.
Qed.

Lemma prefix_app p a b : String.prefix (p +:+ a) (p +:+ b) = String.prefix a b.
Proof.
  induction p as [|x p IH]; [done|].
  rewrite !app_cons. simpl. by destruct (ascii_dec x x).
Qed.

Lemma prefix_refl s : String.prefix s s = true.
Proof.
  induction s as [|x s IH]; simpl; [done|]. by destruct (ascii_dec x x).
Qed.

Lemma prefix_occurs c p : ∀ s,
  String.prefix p s = true → occurs c p = true → occurs c s = true.
Proof.
  induction p as [|x p IH]; intros [|y s]; simpl; try done.
  destruct (ascii_dec x y) as [->|]; [|done].
  destruct (Ascii.eqb y c); [done|]. apply IH.
Qed.

Lemma last_index_none c s : occurs c s = false → last_index c s = None.
Proof.
  induction s as [|x s IH]; simpl; [done|].
  destruct (Ascii.eqb x c); [done|]. intros H. by rewrite IH.
Qed.

Lemma last_index_app_r c a b :
  occurs c b = false → last_index c (a +:+ b) = last_index c a.
Proof.
  intros H. induction a as [|x a IH].
  - by apply last_index_none.
  - rewrite app_cons. simpl. by rewrite IH.
Qed.

Lemma last_index_snoc c a :
  last_index c (a +:+ String c EmptyString) = Some (String.length a).
Proof.
  induction a as [|x a IH].
  - rewrite app_nil. simpl. by rewrite Ascii.eqb_refl.
  - rewrite app_cons. simpl. by rewrite IH.
Qed.

Lemma substring_0_app a b :
  String.substring 0 (String.length a) (a +:+ b) = a.
Proof.
  induction a as [|x a IH]; [by destruct b|].
  rewrite app_cons. simpl. by rewrite IH.
Qed.

Lemma length_snoc a c :
  String.length (a +:+ String c EmptyString) = S (String.length a).
Proof.
  induction a as [|x a IH]; [done|]. rewrite app_cons. simpl. by rewrite IH.
Qed.

Lemma string_app_assoc (a b c : string) : (a +:+ b) +:+ c = a +:+ (b +:+ c).
Proof. induction a as [|x a IH]; [done|]. by rewrite !app_cons, IH. Qed.

(** A file directly under a directory has that directory as parent. *)
Lemma dirname_under d name :
  occurs "/" name = false →
  FileSystem.dirname ((d +:+ "/") +:+ name) = d +:+ "/".
Proof.
  intros H. unfold FileSystem.dirname.
  rewrite (last_index_app_r _ _ _ H), last_index_snoc.
  unfold substring. rewrite Nat.sub_0_r, <- (length_snoc d "/").
  apply substring_0_app.
Qed.

Lemma file_name_no_slash url timestamp randomId :
  occurs "/" randomId = false →
  occurs "/" (file_name url timestamp randomId) = false.
Proof.
  intros Hr. unfold file_name.
  pose proof (last_part_no_sep "/" url) as Hl.
  destruct (0 <? _); rewrite !occurs_app, Hr, occurs_slash_of_number; simpl.
  - unfold substring, substring_from.
    by rewrite !occurs_substring.
  - by rewrite Hl.
Qed.

End StringFacts.

(** ** Running the cache manager, step by step *)

Section Runs.
Variable P : Platform.

Local Close Scope string_scope.

Lemma same_services_refl w : same_services w w.
Proof. by repeat split. Qed.

Lemma same_services_trans w1 w2 w3 :
  same_services w1 w2 → same_services w2 w3 → same_services w1 w3.
Proof.
  unfold same_services. intros (?&?&?&?&?&?) (?&?&?&?&?&?).
  repeat split; congruence.
Qed.

Lemma ensure_run w : ensureCacheDirectoryExists P w = (Ok tt, ensured P w).
Proof.
  unfold ensureCacheDirectoryExists, ensured.
  destruct (cacheInitialized w); [done|].
  unfold bind, FileSystem.getInfoAsync. simpl.
  by destruct (bool_decide (cacheDir P ∈ fs w)).
Qed.

Lemma ensured_services w : same_services w (ensured P w).
Proof.
  unfold ensured. destruct (cacheInitialized w); [apply same_services_refl|].
  by destruct (bool_decide _).
Qed.

Lemma ensured_fs w : fs w ⊆ fs (ensured P w).
Proof.
  unfold ensured. destruct (cacheInitialized w); [done|].
  destruct (bool_decide _); simpl; set_solver.
Qed.

Lemma string_app_nil_r (a : string) : a +:+ EmptyString = a.
Proof.
  induction a as [|x a IH]; [done|]. by rewrite app_cons, IH.
Qed.

Lemma cache_root_under_itself : under_cache_root P (cacheDir P).
Proof. exists EmptyString. by rewrite string_app_nil_r. Qed.

Lemma fs_grows_same w w' : fs w' = fs w → fs_grows P w w'.
Proof. intros E. split; rewrite E; [done|auto]. Qed.

Lemma fs_grows_refl w : fs_grows P w w.
Proof. by apply fs_grows_same. Qed.

Lemma fs_grows_trans w1 w2 w3 :
  fs_grows P w1 w2 → fs_grows P w2 w3 → fs_grows P w1 w3.
Proof.
  intros [Hs1 Hn1] [Hs2 Hn2]. split; [by etrans|].
  intros q Hq. destruct (Hn2 q Hq) as [H|H]; auto.
Qed.

Lemma fs_grows_add w path :
  under_cache_root P path → fs_grows P w (set_fs ({[ path ]} ∪ fs w) w).
Proof.
  intros Hp. split; cbn.
  - apply union_subseteq_r.
  - intros q Hq. apply elem_of_union in Hq as [Hq|Hq]; [|auto].
    apply elem_of_singleton in Hq as ->. auto.
Qed.

Lemma ensured_grows w : fs_grows P w (ensured P w).
Proof.
  unfold ensured. destruct (cacheInitialized w); [apply fs_grows_refl|].
  case_bool_decide; [by apply fs_grows_same|].
  eapply fs_grows_trans; [apply fs_grows_add, cache_root_under_itself|].
  by apply fs_grows_same.
Qed.

Lemma ensured_events w : events (ensured P w) = events w.
Proof.
  unfold ensured. destruct (cacheInitialized w); [done|].
  by destruct (bool_decide _).
Qed.

Lemma ensured_initialized w : cacheInitialized (ensured P w) = true.
Proof.
  unfold ensured. destruct (cacheInitialized w) eqn:E; [done|].
  by destruct (bool_decide _).
Qed.

Lemma ensured_idle w : cacheInitialized w = true → ensured P w = w.
Proof. unfold ensured. by intros ->. Qed.

Lemma getFileNameFromUrl_run url w :
  getFileNameFromUrl url w = (Ok (next_name url w), drawn w).
Proof. reflexivity. Qed.

Lemma next_name_no_slash url w : JsString.occurs "/" (next_name url w) = false.
Proof. apply file_name_no_slash, occurs_slash_of_digits36. Qed.

Lemma cacheDir_slash : ∃ d, cacheDir P = d +:+ "/"%string.
Proof.
  exists (documentDirectory P +:+ "tour_cache"%string).
  unfold cacheDir. by rewrite string_app_assoc.
Qed.

Lemma dirname_under_cache_root name :
  JsString.occurs "/" name = false →
  FileSystem.dirname (cacheDir P +:+ name) = (cacheDir P).
Proof.
  intros H. destruct cacheDir_slash as [d ->]. by apply dirname_under.
Qed.

(** [downloadFile], as one case distinction on the world it meets. *)
Lemma downloadFile_run url w :
  let w1 := drawn (ensured P w) in
  let path := (cacheDir P) +:+ next_name url (ensured P w) in
  downloadFile P url w =
    if bool_decide (path ∈ fs w1) then (Ok path, w1)
    else if bool_decide (cacheDir P ∈ fs w1) then
      match asset_server w1 url with
      | Unreachable =>
          (Throw (Error "Network request failed"%string), emit (Requested url) w1)
      | Http s =>
          (if s =? 200 then Ok path
           else Throw (Error ("Failed to download "%string +:+ url
                              +:+ ": Status "%string +:+ JsString.of_number s)),
           set_fs ({[ path ]} ∪ fs w1) (emit (Requested url) w1))
      end
    else (Throw (Error ("Directory for '"%string +:+ path
                        +:+ "' doesn't exist."%string)), w1).
Proof.
  intros w1 path. subst w1 path. unfold downloadFile, bind.
  rewrite ensure_run, getFileNameFromUrl_run.
  unfold FileSystem.getInfoAsync, FileSystem.downloadAsync.
  cbn [FileSystem.exists_].
  rewrite dirname_under_cache_root by apply next_name_no_slash.
  destruct (bool_decide (_ ∈ _)); [done|].
  destruct (bool_decide (_ ∈ _)); [|done].
  cbn [asset_server emit].
  destruct (asset_server _ url) as [|s]; [done|].
  cbn [FileSystem.status FileSystem.uri]. by destruct (s =? 200).
Qed.

Lemma drawn_services w : same_services w (drawn w).
Proof. by repeat split. Qed.

Lemma emit_services e w : same_services w (emit e w).
Proof. by repeat split. Qed.

Lemma downloadFile_spec url w :
  ∃ r w' reqs,
    downloadFile P url w = (r, w')
    ∧ same_services w w' ∧ fs_grows P w w'
    ∧ events w' = events w ++ reqs
    ∧ (reqs = [] ∨ reqs = [Requested url])
    ∧ match r with
      | Ok p => p ∈ fs w' ∧ under_cache_root P p
      | Throw _ => True
      end.
Proof.
  rewrite downloadFile_run.
  pose proof (ensured_services w) as Hs.
  pose proof (ensured_grows w) as Hf.
  pose proof (ensured_events w) as He.
  pose proof (next_name_no_slash url (ensured P w)) as Hn.
  set (w1 := drawn (ensured P w)).
  set (path := cacheDir P +:+ next_name url (ensured P w)).
  assert (Hpath : under_cache_root P path) by (by eexists).
  assert (Hs1 : same_services w w1)
    by (eapply same_services_trans; [done|apply drawn_services]).
  assert (Hs2 : ∀ e, same_services w (emit e w1))
    by (intros e; eapply same_services_trans; [done|apply emit_services]).
  assert (Hf1 : fs_grows P w w1) by done.
  assert (Hf2 : ∀ e, fs_grows P w (emit e w1)) by done.
  assert (He1 : events w1 = events w) by done.
  case_bool_decide as Hin.
  - exists (Ok path), w1, []. rewrite app_nil_r. split_and!; auto.
  - case_bool_decide as Hdir.
    + destruct (asset_server w1 url) as [|s].
      * eexists _, _, [Requested url]. split_and!; auto; [|exact I].
        cbn. by rewrite He.
      * eexists _, _, [Requested url]. split_and!; auto.
        -- eapply fs_grows_trans; [apply (Hf2 (Requested url))|].
           exact (fs_grows_add (emit (Requested url) w1) path Hpath).
        -- cbn. by rewrite He.
        -- destruct (s =? 200); [|done].
           split; [|done]. cbn. apply elem_of_union_l. by apply elem_of_singleton.
    + eexists _, _, []. rewrite app_nil_r. split_and!; auto. exact I.
Qed.

Lemma attempt_spec onProgress total downloaded url la w :
  JsString.truthy url = true →
  ∃ la' w' fileName reqs,
    attempt P onProgress total downloaded url la w = (Ok la', w')
    ∧ same_services w w' ∧ fs_grows P w w'
    ∧ (reqs = [] ∨ reqs = [Requested url])
    ∧ ((∃ p, la' = <[url := p]> la ∧ p ∈ fs w' ∧ under_cache_root P p
             ∧ events w' = events w
                 ++ reported onProgress (before_report P total downloaded fileName)
                 ++ reqs)
       ∨ (la' = la
          ∧ events w' = events w
              ++ reported onProgress (before_report P total downloaded fileName)
              ++ reqs ++ [Logged (Warn (failed_message url))])).
Proof.
  intros Ht. unfold attempt. rewrite Ht. unfold try_catch, bind.
  set (w0 := if onProgress
             then emit (Reported (before_report P total downloaded (next_name url w)))
                       (drawn w)
             else w).
  assert (Hcall : call_onProgress onProgress
            (λ w2, match getFileNameFromUrl url w2 with
                   | (Ok a, w'0) =>
                       ret {| total := total; downloaded := downloaded;
                              currentFile := a;
                              percentage := round_percent P downloaded total |} w'0
                   | (Throw e, w'0) => (Throw e, w'0)
                   end) w = (Ok tt, w0)).
  { unfold call_onProgress, w0. by destruct onProgress. }
  rewrite Hcall.
  assert (Hs0 : same_services w w0) by (unfold w0; by destruct onProgress).
  assert (Hf0 : fs_grows P w w0).
  { apply fs_grows_same. unfold w0. by destruct onProgress. }
  assert (He0 : events w0 = events w
                ++ reported onProgress
                     (before_report P total downloaded (next_name url w))).
  { unfold w0, reported. destruct onProgress; [done|]. by rewrite app_nil_r. }
  destruct (downloadFile_spec url w0) as (r & w1 & reqs & Hrun & Hs1 & Hf1 & He1 & Hreqs & Hr).
  rewrite Hrun. destruct r as [p|e].
  - exists (<[url := p]> la), w1, (next_name url w), reqs.
    split; [done|].
    split; [by eapply same_services_trans|].
    split; [by eapply fs_grows_trans|].
    split; [done|]. left. exists p. destruct Hr as [Hp Hu].
    split_and!; try done. by rewrite He1, He0, <- app_assoc.
  - exists la, (emit (Logged (Warn (failed_message url))) w1),
      (next_name url w), reqs.
    split; [done|].
    split; [eapply same_services_trans; [by eapply same_services_trans|apply emit_services]|].
    split; [eapply fs_grows_trans; [by eapply fs_grows_trans|];
            by apply fs_grows_same|].
    split; [done|]. right. split; [done|].
    cbn. by rewrite He1, He0, <- !app_assoc.
Qed.

Lemma call_after_run onProgress total downloaded w :
  call_onProgress onProgress (ret (after_report P total downloaded)) w
  = (Ok tt, if onProgress then emit (Reported (after_report P total downloaded)) w
            else w).
Proof. by destruct onProgress. Qed.

(** The loop: it always runs to its end, and what it leaves behind. *)
Lemma download_loop_spec onProgress total urls : ∀ downloaded la w,
  NoDup urls → Forall (λ u, JsString.truthy u = true) urls →
  ∃ la' w' failed evs,
    download_loop P onProgress total urls downloaded la w = (Ok la', w')
    ∧ same_services w w' ∧ fs_grows P w w'
    ∧ events w' = events w ++ evs
    ∧ batch_events P onProgress total downloaded urls failed evs
    ∧ failed `sublist_of` urls
    ∧ (∀ u, u ∉ urls → la' !! u = la !! u)
    ∧ (∀ u, u ∈ failed → la' !! u = la !! u)
    ∧ (∀ u, u ∈ urls → u ∉ failed →
         ∃ p, la' !! u = Some p ∧ p ∈ fs w' ∧ under_cache_root P p)
    ∧ ((∀ u, u ∈ urls → la !! u = None) →
         (size la' + List.length failed = size la + List.length urls)%nat).
Proof.
  induction urls as [|url rest IH]; intros downloaded la w Hnd Htr.
  - exists la, w, [], []. rewrite app_nil_r.
    split_and!; try done; try (intros u Hu; inversion Hu).
    + apply fs_grows_refl.
    + constructor.
  - apply NoDup_cons in Hnd as [Hurl Hnd].
    apply Forall_cons in Htr as [Ht Htr].
    destruct (attempt_spec onProgress total downloaded url la w Ht)
      as (la1 & w1 & fileName & reqs & Hrun & Hs1 & Hf1 & Hreqs & Hcase).
    cbn [download_loop]. unfold bind at 1. rewrite Hrun.
    unfold bind at 1. rewrite call_after_run.
    set (w2 := if onProgress
               then emit (Reported (after_report P total (S downloaded))) w1
               else w1).
    assert (Hs2 : same_services w w2).
    { unfold w2. destruct onProgress; [|done].
      eapply same_services_trans; [done|apply emit_services]. }
    assert (Hf2 : fs_grows P w w2).
    { eapply fs_grows_trans; [exact Hf1|].
      apply fs_grows_same. unfold w2. by destruct onProgress. }
    assert (Hfs2 : fs w2 = fs w1) by (unfold w2; by destruct onProgress).
    assert (He2 : events w2 = events w1
                  ++ reported onProgress (after_report P total (S downloaded))).
    { unfold w2, reported. destruct onProgress; [done|]. by rewrite app_nil_r. }
    destruct (IH (S downloaded) la1 w2 Hnd Htr)
      as (la' & w' & failed & evs & Hloop & Hs & Hf & He & Hb & Hsub
          & Hout & Hfail & Hgood & Hsize).
    rewrite Hloop.
    destruct Hcase as [(p & -> & Hp & Hu & He1)|(-> & He1)].
    + eexists la', w', failed, _.
      split; [done|].
      split; [by eapply same_services_trans|].
      split; [by eapply fs_grows_trans|].
      split; [rewrite He, He2, He1, <- !app_assoc; reflexivity|].
      split; [by eapply batch_success|].
      split; [by apply sublist_cons|].
      split.
      { intros u Hnot. apply not_elem_of_cons in Hnot as [Hne Hnot].
        rewrite Hout by done. by rewrite lookup_insert_ne. }
      split.
      { intros u Hu'. rewrite Hfail by done.
        rewrite lookup_insert_ne; [done|].
        intros ->. apply Hurl. by eapply elem_of_sublist. }
      split.
      { intros u Hin Hnf. apply elem_of_cons in Hin as [->|Hin].
        - exists p. rewrite Hout by done. rewrite lookup_insert_eq.
          split; [done|]. split; [|done]. apply (proj1 Hf). by rewrite Hfs2.
        - by apply Hgood. }
      intros Hnone.
      assert (Hla : la !! url = None) by (apply Hnone; left).
      rewrite Hsize.
      * rewrite map_size_insert_None by done. simpl. lia.
      * intros u Hin. rewrite lookup_insert_ne; [apply Hnone; by right|].
        by intros ->.
    + eexists la', w', (url :: failed), _.
      split; [done|].
      split; [by eapply same_services_trans|].
      split; [by eapply fs_grows_trans|].
      split; [rewrite He, He2, He1, <- !app_assoc; reflexivity|].
      split; [by eapply batch_failure|].
      split; [by apply sublist_skip|].
      split.
      { intros u Hnot. apply not_elem_of_cons in Hnot as [Hne Hnot].
        by apply Hout. }
      split.
      { intros u Hu'. apply elem_of_cons in Hu' as [->|Hu'].
        - by apply Hout.
        - by apply Hfail. }
      split.
      { intros u Hin Hnf. apply not_elem_of_cons in Hnf as [Hne Hnf].
        apply elem_of_cons in Hin as [->|Hin]; [done|]. by apply Hgood. }
      intros Hnone. simpl.
      assert (Hrest : ∀ u, u ∈ rest → la !! u = None)
        by (intros u Hin; apply Hnone; by right).
      specialize (Hsize Hrest). lia.
Qed.

Lemma getTourDetails_run id w :
  ApiService.getTourDetails id w =
    if kv_failing w then (Throw AsyncStorage.unavailable, w)
    else match tour_api w id with
         | Some td => (Ok td, w)
         | None => (Throw (Error "Request failed"%string), w)
         end.
Proof.
  unfold ApiService.getTourDetails, ApiService.getAuthHeaders,
    AsyncStorage.getItem, bind.
  by destruct (kv_failing w).
Qed.

Lemma call_start_run onProgress total w :
  call_onProgress onProgress (ret (start_report total)) w
  = (Ok tt, if onProgress then emit (Reported (start_report total)) w else w).
Proof. by destruct onProgress. Qed.

(** A batch whose tour-detail request succeeds runs to its end. *)
Lemma downloadTourAssets_run tourId onProgress w td :
  kv_failing w = false → tour_api w tourId = Some td →
  ∃ c w' failed evs,
    downloadTourAssets P tourId onProgress w = (Ok c, w')
    ∧ tourDetails c = td
    ∧ kv w' = <[cache_key tourId := JSON_stringify P c]> (kv w)
    ∧ kv_failing w' = false
    ∧ fs_grows P w w'
    ∧ events w' = events w
        ++ reported onProgress
             (start_report (List.length (Collector.collectAllAssetUrls td)))
        ++ evs
    ∧ batch_events P onProgress
        (List.length (Collector.collectAllAssetUrls td)) 0
        (Collector.collectAllAssetUrls td) failed evs
    ∧ failed `sublist_of` Collector.collectAllAssetUrls td
    ∧ (∀ u, u ∉ Collector.collectAllAssetUrls td → localAssets c !! u = None)
    ∧ (∀ u, u ∈ failed → localAssets c !! u = None)
    ∧ (∀ u, u ∈ Collector.collectAllAssetUrls td → u ∉ failed →
         ∃ p, localAssets c !! u = Some p ∧ p ∈ fs w' ∧ under_cache_root P p)
    ∧ (size (localAssets c) + List.length failed
       = List.length (Collector.collectAllAssetUrls td))%nat.
Proof.
  intros Hkv Hapi.
  set (urls := Collector.collectAllAssetUrls td).
  unfold downloadTourAssets, try_catch. unfold bind at 1.
  rewrite ensure_run. unfold bind at 1. rewrite getTourDetails_run.
  destruct (ensured_services w) as (Hk1 & Hk2 & Hk3 & _).
  rewrite Hk2, Hkv, Hk3, Hapi. fold urls.
  unfold bind at 1. rewrite call_start_run.
  set (w0 := if onProgress
             then emit (Reported (start_report (List.length urls))) (ensured P w)
             else ensured P w).
  assert (Hs0 : same_services w w0).
  { unfold w0. destruct onProgress; [|apply ensured_services].
    eapply same_services_trans; [apply ensured_services|apply emit_services]. }
  assert (Hf0 : fs_grows P w w0).
  { eapply fs_grows_trans; [apply ensured_grows|].
    apply fs_grows_same. unfold w0. by destruct onProgress. }
  assert (He0 : events w0 = events w
                ++ reported onProgress (start_report (List.length urls))).
  { unfold w0, reported. destruct onProgress; cbn; rewrite ensured_events;
      [done|by rewrite app_nil_r]. }
  assert (Hnd : NoDup urls) by apply collect_NoDup.
  assert (Htr : Forall (λ u, JsString.truthy u = true) urls).
  { apply Forall_forall. intros u Hu. by eapply collect_truthy. }
  destruct (download_loop_spec onProgress (List.length urls) urls 0 ∅ w0 Hnd Htr)
    as (la & w1 & failed & evs & Hloop & Hs1 & Hf1 & He1 & Hb & Hsub
        & Hout & Hfail & Hgood & Hsize).
  unfold bind at 1. rewrite Hloop.
  unfold bind at 1. unfold Date.now at 1.
  unfold bind at 1. unfold AsyncStorage.setItem at 1.
  destruct (same_services_trans _ _ _ Hs0 Hs1) as (Hkv1 & Hkf1 & _).
  cbn [kv_failing set_clock_reads]. rewrite Hkf1, Hkv.
  eexists _, _, failed, evs. split; [reflexivity|].
  cbn [tourDetails localAssets kv kv_failing fs events set_kv set_clock_reads].
  split_and!; try done.
  - by rewrite Hkv1.
  - by rewrite Hkf1, Hkv.
  - eapply fs_grows_trans; [exact Hf0|].
    eapply fs_grows_trans; [exact Hf1|]. by apply fs_grows_same.
  - by rewrite He1, He0, <- app_assoc.
  - rewrite Hsize; [by rewrite map_size_empty|done].
Qed.

(** Conversely, a batch that returns met a working store and a tour. *)
Lemma downloadTourAssets_ok_inv tourId onProgress w c w' :
  downloadTourAssets P tourId onProgress w = (Ok c, w') →
  kv_failing w = false ∧ tour_api w tourId = Some (tourDetails c).
Proof.
  intros Hrun.
  destruct (kv_failing w) eqn:Hkv.
  - exfalso. revert Hrun.
    unfold downloadTourAssets, try_catch. unfold bind at 1.
    rewrite ensure_run. unfold bind at 1. rewrite getTourDetails_run.
    destruct (ensured_services w) as (_ & Hk2 & _).
    by rewrite Hk2, Hkv.
  - destruct (tour_api w tourId) as [td|] eqn:Hapi.
    + destruct (downloadTourAssets_run tourId onProgress w td Hkv Hapi)
        as (c' & w'' & ? & ? & Hrun' & Htd & _).
      rewrite Hrun in Hrun'. injection Hrun' as -> ->. by rewrite Htd.
    + exfalso. revert Hrun.
      unfold downloadTourAssets, try_catch. unfold bind at 1.
      rewrite ensure_run. unfold bind at 1. rewrite getTourDetails_run.
      destruct (ensured_services w) as (_ & Hk2 & Hk3 & _).
      by rewrite Hk2, Hkv, Hk3, Hapi.
Qed.

(** *** Reading the events of a batch *)

Lemma console_of_app e1 e2 : console_of (e1 ++ e2) = console_of e1 ++ console_of e2.
Proof. apply omap_app. Qed.

Lemma progress_of_app e1 e2 :
  progress_of (e1 ++ e2) = progress_of e1 ++ progress_of e2.
Proof. apply omap_app. Qed.

Lemma console_of_reported onProgress p : console_of (reported onProgress p) = [].
Proof. by destruct onProgress. Qed.

Lemma console_of_request url reqs :
  reqs = [] ∨ reqs = [Requested url] → console_of reqs = [].
Proof. by intros [->| ->]. Qed.

Lemma progress_of_request url reqs :
  reqs = [] ∨ reqs = [Requested url] → progress_of reqs = [].
Proof. by intros [->| ->]. Qed.

(** The console shows one warning per failed URL, and nothing else. *)
Lemma batch_events_console onProgress total downloaded urls failed evs :
  batch_events P onProgress total downloaded urls failed evs →
  console_of evs = map (λ u, Warn (failed_message u)) failed.
Proof.
  induction 1 as [|d url rest failed name reqs evs Hreqs _ IH
                  |d url rest failed name reqs evs Hreqs _ IH]; [done| |].
  - rewrite !console_of_app, !console_of_reported,
      (console_of_request url reqs Hreqs). done.
  - rewrite !console_of_app, !console_of_reported,
      (console_of_request url reqs Hreqs). cbn. by rewrite IH.
Qed.

(** With a callback, the reports are two per URL: before and after. *)
Lemma batch_events_progress n d0 urls failed evs :
  batch_events P true n d0 urls failed evs →
  map (λ p, (downloaded p, percentage p)) (progress_of evs)
  = expected_reports P n d0 (List.length urls).
Proof.
  unfold expected_reports.
  induction 1 as [|d url rest failed name reqs evs Hreqs _ IH
                  |d url rest failed name reqs evs Hreqs _ IH]; [done| |].
  - rewrite !progress_of_app, (progress_of_request url reqs Hreqs).
    cbn. by rewrite IH.
  - rewrite !progress_of_app, (progress_of_request url reqs Hreqs).
    cbn. by rewrite IH.
Qed.

Lemma batch_events_total n d0 urls failed evs :
  batch_events P true n d0 urls failed evs →
  Forall (λ p, total p = n) (progress_of evs).
Proof.
  induction 1 as [|d url rest failed name reqs evs Hreqs _ IH
                  |d url rest failed name reqs evs Hreqs _ IH];
    [constructor| |].
  - rewrite !progress_of_app, (progress_of_request url reqs Hreqs).
    cbn. by repeat constructor.
  - rewrite !progress_of_app, (progress_of_request url reqs Hreqs).
    cbn. by repeat constructor.
Qed.

(** Without a callback nothing is reported. *)
Lemma batch_events_silent total downloaded urls failed evs :
  batch_events P false total downloaded urls failed evs → progress_of evs = [].
Proof.
  induction 1 as [|d url rest failed name reqs evs Hreqs _ IH
                  |d url rest failed name reqs evs Hreqs _ IH]; [done| |].
  - rewrite !progress_of_app, (progress_of_request url reqs Hreqs). by cbn.
  - rewrite !progress_of_app, (progress_of_request url reqs Hreqs). by cbn.
Qed.

(** *** Percentages *)

Lemma Qfloor_eq (y : Q) (n : Z) :
  (inject_Z n <= y)%Q → (y < inject_Z (n + 1))%Q → Qfloor y = n.
Proof.
  intros H1 H2.
  pose proof (Qfloor_le y) as H3. pose proof (Qlt_floor y) as H4.
  assert (H5 : (inject_Z (Qfloor y) < inject_Z (n + 1))%Q)
    by (eapply Qle_lt_trans; eauto).
  assert (H6 : (inject_Z n < inject_Z (Qfloor y + 1))%Q)
    by (eapply Qle_lt_trans; eauto).
  rewrite <- Zlt_Qlt in H5, H6. lia.
Qed.

Lemma round_mono (x y : Q) : (x <= y)%Q → Math.round x ≤ Math.round y.
Proof.
  intros H. unfold Math.round. apply Qfloor_resp_le.
  by apply Qplus_le_l.
Qed.

Lemma ratio_range d t : (d ≤ t)%nat → (0 <= ratio d t)%Q ∧ (ratio d t <= 1)%Q.
Proof.
  intros H. unfold ratio. destruct t as [|t].
  - assert (d = 0%nat) as -> by lia. cbn. split; [apply Qle_refl|discriminate].
  - split.
    + apply Qle_shift_div_l; [reflexivity|]. rewrite Qmult_0_l.
      rewrite <- (Zle_Qle 0). lia.
    + apply Qle_shift_div_r; [reflexivity|]. rewrite Qmult_1_l.
      rewrite <- Zle_Qle. lia.
Qed.

Lemma ratio_mono d1 d2 t : (d1 ≤ d2)%nat → (ratio d1 t <= ratio d2 t)%Q.
Proof.
  intros H. unfold ratio, Qdiv. apply Qmult_le_compat_r.
  - rewrite <- Zle_Qle. lia.
  - apply Qinv_le_0_compat. rewrite <- (Zle_Qle 0). lia.
Qed.

Section Rounding.
Hypothesis HP : rounds_like_binary64 P.

(** The rounded quotient lies between 0 and a little over 1. *)
Lemma double_ratio_range d t :
  (d ≤ t)%nat →
  (0 <= double P (ratio d t))%Q ∧ (double P (ratio d t) * 100 <= 128)%Q.
Proof.
  intros H. destruct (ratio_range d t H) as [H0 H1].
  pose proof (double_zero P HP) as Hz.
  assert (Hlo : (double P 0 <= double P (ratio d t))%Q)
    by (apply (double_monotone P HP); lra).
  assert (Hhi : (double P (ratio d t) <= double P 1)%Q)
    by (apply (double_monotone P HP); lra).
  destruct (double_accurate P HP 1) as [_ Hone]; [lra..|].
  unfold unit_roundoff in *. split; lra.
Qed.

Lemma round_percent_mono total d1 d2 :
  (d1 ≤ d2)%nat → (d2 ≤ total)%nat →
  round_percent P d1 total ≤ round_percent P d2 total.
Proof.
  intros H12 H2. unfold round_percent. fold (ratio d1 total) (ratio d2 total).
  apply round_mono.
  destruct (double_ratio_range d1 total) as [Ha1 Hb1]; [lia|].
  destruct (double_ratio_range d2 total) as [Ha2 Hb2]; [lia|].
  destruct (ratio_range d1 total) as [Hr0 _]; [lia|].
  destruct (ratio_range d2 total H2) as [_ Hr1].
  assert (Hmono : (double P (ratio d1 total) <= double P (ratio d2 total))%Q).
  { apply (double_monotone P HP); [done|by apply ratio_mono|lra]. }
  apply (double_monotone P HP); lra.
Qed.

(** A double that is squeezed between zero and zero rounds to zero. *)
Lemma double_of_zero (x : Q) : (x == 0)%Q → (double P x == 0)%Q.
Proof.
  intros Hx. pose proof (double_zero P HP) as Hz.
  assert (H1 : (double P 0 <= double P x)%Q)
    by (apply (double_monotone P HP); lra).
  assert (H2 : (double P x <= double P 0)%Q)
    by (apply (double_monotone P HP); lra).
  apply Qle_antisym; lra.
Qed.

Lemma double_nonneg (x : Q) : (0 <= x)%Q → (x <= 128)%Q → (0 <= double P x)%Q.
Proof.
  intros H0 H1. pose proof (double_zero P HP) as Hz.
  assert (H : (double P 0 <= double P x)%Q)
    by (apply (double_monotone P HP); lra).
  lra.
Qed.

Lemma round_percent_nonneg total d :
  (d ≤ total)%nat → 0 ≤ round_percent P d total.
Proof.
  intros H. unfold round_percent. fold (ratio d total).
  destruct (double_ratio_range d total H) as [Ha Hb].
  assert (Hc : (0 <= double P (double P (ratio d total) * 100))%Q)
    by (apply double_nonneg; lra).
  change 0 with (Qfloor 0). apply Qfloor_resp_le. lra.
Qed.

Lemma round_percent_zero total : round_percent P 0 total = 0.
Proof.
  unfold round_percent. fold (ratio 0 total).
  assert (Hr : (ratio 0 total == 0)%Q) by (unfold ratio; cbn; apply Qmult_0_l).
  pose proof (double_of_zero _ Hr) as Ha.
  assert (Hb : (double P (ratio 0 total) * 100 == 0)%Q) by lra.
  pose proof (double_of_zero _ Hb) as Hc.
  apply Qfloor_eq.
  - change (inject_Z 0) with 0%Q. lra.
  - change (inject_Z (0 + 1)) with 1%Q. lra.
Qed.

(** The percentages of a batch of three. *)
Lemma round_percent_of_three :
  round_percent P 1 3 = 33 ∧ round_percent P 2 3 = 67
  ∧ round_percent P 3 3 = 100.
Proof.
  assert (Hstep : ∀ (q : Q) (n : Z),
    ((1 # 4) <= q)%Q → (q <= 1)%Q →
    (inject_Z n - (1 # 2) + (1 # 100) <= q * 100)%Q →
    (q * 100 <= inject_Z n + (1 # 2) - (1 # 100))%Q →
    (n <= 100)%Z →
    Math.round (double P (double P q * 100)) = n).
  { intros q n Hq0 Hq1 Hlo Hhi Hn.
    assert (Hn' : (inject_Z n <= 100)%Q) by (rewrite (Zle_Qle n 100) in Hn; done).
    destruct (double_accurate P HP q) as [Ha1 Ha2]; [done|lra|].
    unfold unit_roundoff in *.
    destruct (double_accurate P HP (double P q * 100)) as [Hc1 Hc2]; [lra..|].
    unfold unit_roundoff in *. unfold Math.round. apply Qfloor_eq.
    - lra.
    - rewrite inject_Z_plus. change (inject_Z 1) with 1%Q. lra. }
  unfold round_percent. split_and!.
  - apply Hstep; done || discriminate.
  - apply Hstep; done || discriminate.
  - apply Hstep; done || discriminate.
Qed.

Lemma expected_reports_bounded total d : ∀ n d',
  (d ≤ d')%nat → (d' + n ≤ total)%nat →
  Forall (λ x, round_percent P d total ≤ x)
         (map snd (expected_reports P total d' n)).
Proof.
  unfold expected_reports.
  induction n as [|n IH]; intros d' Hd Hn; cbn; [constructor|].
  constructor; [apply round_percent_mono; lia|].
  constructor; [apply round_percent_mono; lia|].
  apply IH; lia.
Qed.

(** The percentages of a batch never decrease. *)
Lemma expected_reports_sorted total : ∀ n d,
  (d + n ≤ total)%nat →
  StronglySorted Z.le (map snd (expected_reports P total d n)).
Proof.
  induction n as [|n IH]; intros d Hn; [constructor|].
  change (map snd (expected_reports P total d (S n))) with
    (round_percent P d total :: round_percent P (S d) total
       :: map snd (expected_reports P total (S d) n)).
  constructor; [constructor; [apply IH; lia|]|].
  - apply expected_reports_bounded; lia.
  - constructor; [apply round_percent_mono; lia|].
    apply expected_reports_bounded; lia.
Qed.

End Rounding.

(** *** Reading the cache back *)

Lemma isTourCached_run tourId w :
  isTourCached P tourId w =
    if kv_failing w
    then (Ok false, emit (Logged (Err "Error checking tour cache:"%string)) w)
    else match kv w !! cache_key tourId with
         | None => (Ok false, w)
         | Some s =>
             if JsString.truthy s then
               match JSON_parse P s with
               | None =>
                   (Ok false,
                    emit (Logged (Err "Error checking tour cache:"%string)) w)
               | Some c =>
                   (Ok match Date_parse P (downloadedAt c) with
                       | Some d => clock w (clock_reads w) <? d + expiry_ms
                       | None => false
                       end,
                    set_clock_reads (S (clock_reads w)) w)
               end
             else (Ok false, w)
         end.
Proof.
  unfold isTourCached, try_catch, bind, AsyncStorage.getItem, Console.error, ret.
  destruct (kv_failing w); [done|].
  destruct (kv w !! cache_key tourId) as [s|]; [|reflexivity].
  cbn [JsString.truthy_opt default]. unfold id.
  destruct (JsString.truthy s); [|reflexivity]. cbn [negb].
  unfold parse_cached. destruct (JSON_parse P s) as [c|]; [|reflexivity].
  unfold ret, Date.now. fold expiry_ms.
  by destruct (Date_parse P (downloadedAt c)).
Qed.

Lemma getCachedTourData_run tourId w :
  getCachedTourData P tourId w =
    if kv_failing w
    then (Ok None,
          emit (Logged (Err "Error getting cached tour data:"%string)) w)
    else match kv w !! cache_key tourId with
         | None => (Ok None, w)
         | Some s =>
             if JsString.truthy s then
               match JSON_parse P s with
               | None =>
                   (Ok None,
                    emit (Logged (Err "Error getting cached tour data:"%string)) w)
               | Some c => (Ok (Some c), w)
               end
             else (Ok None, w)
         end.
Proof.
  unfold getCachedTourData, try_catch, bind, AsyncStorage.getItem,
    Console.error, ret.
  destruct (kv_failing w); [done|].
  destruct (kv w !! cache_key tourId) as [s|]; [|reflexivity].
  cbn [JsString.truthy_opt default]. unfold id.
  destruct (JsString.truthy s); [|reflexivity]. cbn [negb].
  unfold parse_cached. destruct (JSON_parse P s); reflexivity.
Qed.

(** *** Eviction *)

Lemma clearTourCache_run tourId w :
  clearTourCache P tourId w =
    let w1 := ensured P w in
    if kv_failing w
    then (Ok tt, emit (Logged (Err "Error clearing tour cache:"%string)) w1)
    else
      let w2 := set_kv (delete (cache_key tourId) (kv w1)) w1 in
      if bool_decide (tourCacheDir P tourId ∈ fs w2)
      then (Ok tt,
            set_fs (filter (λ q, String.prefix (tourCacheDir P tourId) q = false)
                           (fs w2)) w2)
      else (Ok tt, w2).
Proof.
  cbv zeta. unfold clearTourCache, try_catch. unfold bind at 1.
  rewrite ensure_run.
  destruct (ensured_services w) as (_ & Hk & _).
  unfold bind, AsyncStorage.removeItem. rewrite Hk.
  destruct (kv_failing w); [reflexivity|].
  unfold FileSystem.getInfoAsync. cbn [FileSystem.exists_].
  unfold FileSystem.deleteAsync. cbn [fs set_kv].
  case_bool_decide as Hdir; [|reflexivity].
  cbn [fs set_kv]. by rewrite bool_decide_eq_true_2.
Qed.

Lemma clearAllCache_run w :
  clearAllCache P w =
    let w1 := ensured P w in
    if kv_failing w
    then (Ok tt, emit (Logged (Err "Error clearing all cache:"%string)) w1)
    else
      let keys := List.filter (JsString.startsWith "cached_tour_")
                              (elements (dom (kv w1))) in
      let w2 := set_kv (foldr delete (kv w1) keys) w1 in
      if bool_decide (cacheDir P ∈ fs w2)
      then (Ok tt,
            set_fs (filter (λ q, String.prefix (cacheDir P) q = false) (fs w2)) w2)
      else (Ok tt, w2).
Proof.
  cbv zeta. unfold clearAllCache, try_catch. unfold bind at 1.
  rewrite ensure_run.
  destruct (ensured_services w) as (_ & Hk & _).
  unfold bind at 1. unfold AsyncStorage.getAllKeys. rewrite Hk.
  destruct (kv_failing w) eqn:Hkv; [reflexivity|].
  unfold bind at 1. unfold AsyncStorage.multiRemove.
  cbn [kv_failing]. rewrite Hk.
  unfold bind at 1. unfold FileSystem.getInfoAsync. cbn [FileSystem.exists_].
  unfold bind at 1. unfold FileSystem.deleteAsync.
  case_bool_decide as Hdir.
  - rewrite bool_decide_eq_true_2 by done.
    rewrite ensure_run, ensured_idle; [done|].
    cbn. apply ensured_initialized.
  - unfold ret. rewrite ensure_run, ensured_idle; [done|].
    cbn. apply ensured_initialized.
Qed.

Lemma under_cache_root_not_in_tour_dir path tourId :
  under_cache_root P path → String.prefix (tourCacheDir P tourId) path = false.
Proof.
  intros (name & -> & Hname). unfold tourCacheDir.
  rewrite prefix_app. destruct (String.prefix _ name) eqn:E; [|done].
  apply (prefix_occurs "/") in E; [congruence|].
  rewrite !occurs_app. cbn. by rewrite orb_true_r.
Qed.

End Runs.

(** ** The claims *)

Section Claims.
Variable P : Platform.

Local Close Scope string_scope.

(** What a batch that returned has done, put together from
    [downloadTourAssets_ok_inv] and [downloadTourAssets_run]. *)
Lemma batch_outcome tourId onProgress w c w' :
  downloadTourAssets P tourId onProgress w = (Ok c, w') →
  tour_api w tourId = Some (tourDetails c)
  ∧ kv_failing w' = false
  ∧ fs_grows P w w'
  ∧ ∀ url path, localAssets c !! url = Some path →
      url ∈ Collector.collectAllAssetUrls (tourDetails c)
      ∧ path ∈ fs w' ∧ under_cache_root P path.
Proof.
  intros Hrun.
  destruct (downloadTourAssets_ok_inv P _ _ _ _ _ Hrun) as [Hkv Hapi].
  destruct (downloadTourAssets_run P tourId onProgress w _ Hkv Hapi)
    as (c' & w'' & failed & evs & Hrun' & _ & _ & Hkf & Hgrow & _ & _ & _
        & Hout & Hfail & Hgood & _).
  rewrite Hrun in Hrun'. injection Hrun' as <- <-.
  split_and!; [done..|].
  intros url path Hlook.
  destruct (decide (url ∈ Collector.collectAllAssetUrls (tourDetails c)))
    as [Hin|Hnot]; [|rewrite Hout in Hlook; done].
  destruct (decide (url ∈ failed)) as [Hf|Hnf];
    [rewrite Hfail in Hlook; done|].
  destruct (Hgood url Hin Hnf) as (p & Hp & Hfs & Hroot).
  rewrite Hp in Hlook. injection Hlook as <-. done.
Qed.

Lemma clearTourCache_keeps tourId w q :
  q ∈ fs w → String.prefix (tourCacheDir P tourId) q = false →
  q ∈ fs (clearTourCache P tourId w).2.
Proof.
  intros Hq Hpre. rewrite clearTourCache_run. cbv zeta.
  pose proof (ensured_fs P w q Hq) as Hq1.
  destruct (kv_failing w); [done|].
  case_bool_decide; [|done].
  cbn. by apply elem_of_filter.
Qed.

Lemma clearTourCache_removes_key tourId w :
  kv_failing w = false → kv (clearTourCache P tourId w).2 !! cache_key tourId = None.
Proof.
  intros Hkv. rewrite clearTourCache_run. cbv zeta. rewrite Hkv.
  case_bool_decide; cbn; apply lookup_delete_eq.
Qed.

Lemma tour_key_removed (m : gmap string string) k :
  JsString.startsWith "cached_tour_" k = true →
  foldr delete m (List.filter (JsString.startsWith "cached_tour_")
                              (elements (dom m))) !! k = None.
Proof.
  intros Hk. destruct (m !! k) as [v|] eqn:Hv.
  - apply lookup_foldr_delete.
    rewrite list_elem_of_In, filter_In, <- list_elem_of_In.
    split; [|done]. apply elem_of_elements, elem_of_dom. by eexists.
  - destruct (decide (k ∈ List.filter (JsString.startsWith "cached_tour_")
                            (elements (dom m)))).
    + by apply lookup_foldr_delete.
    + by rewrite lookup_foldr_delete_not_elem_of.
Qed.

Lemma other_key_kept (m : gmap string string) k :
  JsString.startsWith "cached_tour_" k = false →
  foldr delete m (List.filter (JsString.startsWith "cached_tour_")
                              (elements (dom m))) !! k = m !! k.
Proof.
  intros Hk. apply lookup_foldr_delete_not_elem_of.
  rewrite list_elem_of_In, filter_In. intros [_ E]. congruence.
Qed.

Lemma clearAllCache_kv w :
  kv (clearAllCache P w).2 =
    if kv_failing w then kv w
    else foldr delete (kv w)
           (List.filter (JsString.startsWith "cached_tour_")
                        (elements (dom (kv w)))).
Proof.
  rewrite clearAllCache_run. cbv zeta.
  destruct (ensured_services P w) as (Hkv1 & _).
  destruct (kv_failing w); [by cbn; rewrite Hkv1|].
  case_bool_decide; cbn; by rewrite Hkv1.
Qed.

(** C3.  A batch whose tour record was fetched runs to its end even
    when downloads fail: it returns a record, persists it under the
    tour's key, logs one warning per failed URL, leaves the failed
    URLs out of [localAssets], maps every other URL to a path that
    exists on disk, and so holds exactly N - M entries, for N collected
    URLs of which M failed. *)
Theorem batch_survives_failed_downloads tourId onProgress w td :
  kv_failing w = false → tour_api w tourId = Some td →
  ∃ c w' failed,
    downloadTourAssets P tourId onProgress w = (Ok c, w')
    ∧ tourDetails c = td
    ∧ kv w' !! cache_key tourId = Some (JSON_stringify P c)
    ∧ failed `sublist_of` Collector.collectAllAssetUrls td
    ∧ console w' = console w ++ map (λ u, Warn (failed_message u)) failed
    ∧ (∀ u, u ∈ failed → localAssets c !! u = None)
    ∧ (∀ u, u ∈ Collector.collectAllAssetUrls td → u ∉ failed →
         ∃ path, localAssets c !! u = Some path ∧ path ∈ fs w')
    ∧ size (localAssets c)
      = (List.length (Collector.collectAllAssetUrls td) - List.length failed)%nat.
Proof.
  intros Hkv Hapi.
  destruct (downloadTourAssets_run P tourId onProgress w td Hkv Hapi)
    as (c & w' & failed & evs & Hrun & Htd & Hkv' & _ & _ & Hev & Hb & Hsub
        & _ & Hfail & Hgood & Hsize).
  exists c, w', failed. split_and!; try done.
  - rewrite Hkv'. apply lookup_insert_eq.
  - unfold console. rewrite Hev, !console_of_app, console_of_reported.
    by rewrite (batch_events_console P _ _ _ _ _ _ Hb).
  - intros u Hin Hnf. destruct (Hgood u Hin Hnf) as (p & Hp & Hfs & _). eauto.
  - lia.
Qed.

(** C4.  For every tour record the collector returns a list without
    duplicates whose elements are exactly the URLs the record carries
    in its optional URL fields (a field carries a URL when it is present
    and not the empty string); being a total function, it never fails
    on a missing field. *)
Theorem collectAllAssetUrls_exact (td : TourDetails.t) :
  NoDup (Collector.collectAllAssetUrls td)
  ∧ ∀ u, u ∈ Collector.collectAllAssetUrls td ↔ Collector.tour_url td u.
Proof. split; [apply collect_NoDup|apply elem_of_collect]. Qed.

(** C5.  [isTourCached] returns, without throwing, [true] exactly when
    the store is readable, holds an entry for the tour that parses, and
    the current time is strictly before the entry's download time plus
    24 hours; it changes neither the store nor the file system.  So an
    entry written 23 hours ago is reported cached and one written 25
    hours ago is not. *)
Theorem isTourCached_iff_fresh tourId w :
  JSON_parse P EmptyString = None →
  ∃ b w',
    isTourCached P tourId w = (Ok b, w')
    ∧ (b = true ↔
         ∃ s c d, kv_failing w = false
                  ∧ kv w !! cache_key tourId = Some s
                  ∧ JSON_parse P s = Some c
                  ∧ Date_parse P (downloadedAt c) = Some d
                  ∧ clock w (clock_reads w) < d + 24 * 60 * 60 * 1000)
    ∧ kv w' = kv w ∧ fs w' = fs w
    ∧ ∀ s c d, kv_failing w = false
               → kv w !! cache_key tourId = Some s
               → JSON_parse P s = Some c
               → Date_parse P (downloadedAt c) = Some d
               → (d = clock w (clock_reads w) - 23 * 60 * 60 * 1000 → b = true)
                 ∧ (d = clock w (clock_reads w) - 25 * 60 * 60 * 1000 → b = false).
Proof.
  intros Hempty. rewrite isTourCached_run.
  change expiry_ms with (24 * 60 * 60 * 1000).
  assert (Hmiss : ∀ w',
    (∀ s c d, kv_failing w = false → kv w !! cache_key tourId = Some s →
              JSON_parse P s = Some c →
              Date_parse P (downloadedAt c) = Some d → False) →
    kv w' = kv w → fs w' = fs w →
    ∃ b w'0, (Ok false, w') = (Ok b, w'0)
      ∧ (b = true ↔
           ∃ s c d, kv_failing w = false
                    ∧ kv w !! cache_key tourId = Some s
                    ∧ JSON_parse P s = Some c
                    ∧ Date_parse P (downloadedAt c) = Some d
                    ∧ clock w (clock_reads w) < d + 24 * 60 * 60 * 1000)
      ∧ kv w'0 = kv w ∧ fs w'0 = fs w
      ∧ ∀ s c d, kv_failing w = false
                 → kv w !! cache_key tourId = Some s
                 → JSON_parse P s = Some c
                 → Date_parse P (downloadedAt c) = Some d
                 → (d = clock w (clock_reads w) - 23 * 60 * 60 * 1000 → b = true)
                   ∧ (d = clock w (clock_reads w) - 25 * 60 * 60 * 1000
                      → b = false)).
  { intros w' Hno Hk Hf. exists false, w'. split_and!; try done.
    - split; [done|]. intros (s & c & d & H1 & H2 & H3 & H4 & _).
      destruct (Hno s c d H1 H2 H3 H4).
    - intros s c d H1 H2 H3 H4. destruct (Hno s c d H1 H2 H3 H4). }
  destruct (kv_failing w) eqn:Hkv.
  { apply Hmiss; [|done..]. intros; discriminate. }
  destruct (kv w !! cache_key tourId) as [s|] eqn:Hs.
  2:{ apply Hmiss; [|done..]. intros; discriminate. }
  destruct (JsString.truthy s) eqn:Ht.
  2:{ destruct s; [|done].
      apply Hmiss; [|done..]. intros; simplify_eq. }
  destruct (JSON_parse P s) as [c|] eqn:Hc.
  2:{ apply Hmiss; [|done..]. intros; simplify_eq. }
  destruct (Date_parse P (downloadedAt c)) as [d|] eqn:Hd.
  2:{ eexists _, _. split; [done|]. split_and!; try done.
      - split; [done|]. intros (s' & c' & d' & _ & E1 & E2 & E3 & _).
        simplify_eq.
      - intros; simplify_eq. }
  eexists _, _. split; [done|]. split_and!; try done.
  - rewrite Z.ltb_lt. split.
    + intros Hlt. by exists s, c, d.
    + intros (s' & c' & d' & _ & E1 & E2 & E3 & Hlt). by simplify_eq.
  - intros s' c' d' _ E1 E2 E3. simplify_eq.
    split; intros ->; [apply Z.ltb_lt|apply Z.ltb_ge]; lia.
Qed.

(** C6.  With a progress callback, a batch over N URLs first reports
    0 percent, then for the i-th URL (i = 0 .. N-1) reports
    round(i / N * 100) before the download and round((i+1) / N * 100)
    after the attempt, in that order with the request in between; the
    percentages reported never decrease; and for N = 3 they are
    0, 0, 33, 33, 67, 67, 100, that is the values 0, 33, 67, 100 in
    increasing order.  The arithmetic is that of doubles. *)
Theorem progress_percentages_increase tourId w td :
  rounds_like_binary64 P →
  kv_failing w = false → tour_api w tourId = Some td →
  ∃ c w' failed evs,
    let n := List.length (Collector.collectAllAssetUrls td) in
    let calls := progress_of (Reported (start_report n) :: evs) in
    downloadTourAssets P tourId true w = (Ok c, w')
    ∧ events w' = events w ++ Reported (start_report n) :: evs
    ∧ batch_events P true n 0 (Collector.collectAllAssetUrls td) failed evs
    ∧ map (λ p, (downloaded p, percentage p)) calls
      = (0%nat, 0) :: expected_reports P n 0 n
    ∧ StronglySorted Z.le (map percentage calls)
    ∧ (n = 3%nat →
         map percentage calls = [0; 0; 33; 33; 67; 67; 100]
         ∧ remove_dups (map percentage calls) = [0; 33; 67; 100]).
Proof.
  intros HP Hkv Hapi.
  destruct (downloadTourAssets_run P tourId true w td Hkv Hapi)
    as (c & w' & failed & evs & Hrun & _ & _ & _ & _ & Hev & Hb & _).
  exists c, w', failed, evs. cbv zeta.
  set (n := List.length (Collector.collectAllAssetUrls td)) in *.
  pose proof (batch_events_progress P _ _ _ _ _ Hb) as Hprog. fold n in Hprog.
  assert (Hpct : map percentage (progress_of evs)
                 = map snd (expected_reports P n 0 n)).
  { rewrite <- Hprog, map_map. done. }
  assert (Hcalls : progress_of (Reported (start_report n) :: evs)
                   = start_report n :: progress_of evs) by reflexivity.
  rewrite Hcalls, !map_cons, Hprog, Hpct.
  split_and!; try done.
  - constructor; [by apply expected_reports_sorted|].
    apply Forall_forall. intros x Hx.
    pose proof (expected_reports_bounded P HP n 0 n 0 (le_n _) (le_n _)) as Hall.
    rewrite Forall_forall in Hall. specialize (Hall x Hx).
    rewrite (round_percent_zero P HP) in Hall. done.
  - intros Hn. rewrite Hn.
    destruct (round_percent_of_three P HP) as (H1 & H2 & H3).
    pose proof (round_percent_zero P HP 3) as H0.
    cbn [expected_reports flat_map seq map snd app percentage start_report].
    rewrite H0, H1, H2, H3. done.
Qed.

(** C7.  In every record [downloadTourAssets] returns, each key of
    [localAssets] is a URL the collector lists for the tour record the
    batch fetched, which is the record stored in [tourDetails]. *)
Theorem localAssets_keys_are_collected tourId onProgress w c :
  (downloadTourAssets P tourId onProgress w).1 = Ok c →
  tour_api w tourId = Some (tourDetails c)
  ∧ ∀ url, is_Some (localAssets c !! url) →
           url ∈ Collector.collectAllAssetUrls (tourDetails c).
Proof.
  destruct (downloadTourAssets P tourId onProgress w) as [r w'] eqn:Hrun.
  cbn [fst]. intros ->.
  destruct (batch_outcome _ _ _ _ _ Hrun) as (Hapi & _ & _ & Hkeys).
  split; [done|]. intros url [path Hpath].
  by destruct (Hkeys url path Hpath).
Qed.

(** C8.  When the store cannot be read, or the tour's entry is not
    valid JSON, [isTourCached] returns [false] and [getCachedTourData]
    returns [null]; neither throws. *)
Theorem unreadable_cache_is_a_miss tourId w :
  kv_failing w = true
  ∨ (∃ s, kv w !! cache_key tourId = Some s ∧ JSON_parse P s = None) →
  ∃ w1 w2,
    isTourCached P tourId w = (Ok false, w1)
    ∧ getCachedTourData P tourId w = (Ok None, w2).
Proof.
  rewrite isTourCached_run, getCachedTourData_run.
  intros [->|(s & -> & ->)]; [by eexists _, _|].
  destruct (kv_failing w); [by eexists _, _|].
  destruct (JsString.truthy s); by eexists _, _.
Qed.

(** C9.  Every path a batch adds to the file system is the cache root
    followed by a name without a slash, and so is every path it records
    in [localAssets], which moreover exists on disk when the batch
    returns: the files lie directly under the root, under no per-tour
    subdirectory.  [clearTourCache], for any tour, removes the tour's
    key from the store and keeps every path that is not below that
    tour's subdirectory; so every recorded file, and every path directly
    under the root, is still on disk afterwards. *)
Theorem downloads_survive_clearTourCache tourId onProgress w c :
  (downloadTourAssets P tourId onProgress w).1 = Ok c →
  let w1 := (downloadTourAssets P tourId onProgress w).2 in
  (∀ q, q ∈ fs w1 → q ∈ fs w ∨ under_cache_root P q)
  ∧ (∀ id,
       kv (clearTourCache P id w1).2 !! cache_key id = None
       ∧ (∀ q, q ∈ fs w1 → String.prefix (tourCacheDir P id) q = false →
               q ∈ fs (clearTourCache P id w1).2)
       ∧ (∀ q, q ∈ fs w1 → under_cache_root P q →
               String.prefix (tourCacheDir P id) q = false
               ∧ q ∈ fs (clearTourCache P id w1).2))
  ∧ ∀ url path, localAssets c !! url = Some path →
      under_cache_root P path
      ∧ path ∈ fs w1
      ∧ ∀ id, path ∈ fs (clearTourCache P id w1).2.
Proof.
  destruct (downloadTourAssets P tourId onProgress w) as [r w1] eqn:Hrun.
  cbn [fst snd]. intros ->.
  destruct (batch_outcome _ _ _ _ _ Hrun) as (_ & Hkv & [_ Hnew] & Hkeys).
  split_and!; [done| |].
  - intros id. split_and!.
    + by apply clearTourCache_removes_key.
    + intros q. apply clearTourCache_keeps.
    + intros q Hq Hroot.
      pose proof (under_cache_root_not_in_tour_dir P q id Hroot) as Hpre.
      split; [done|]. by apply clearTourCache_keeps.
  - intros url path Hpath.
    destruct (Hkeys url path Hpath) as (_ & Hfs & Hroot).
    split_and!; try done. intros id. apply clearTourCache_keeps; [done|].
    by apply under_cache_root_not_in_tour_dir.
Qed.

(** C10.  [clearAllCache] leaves every key that does not start with
    [cached_tour_] as it was, in particular the access token, the
    refresh token and the user written by the API service; when the
    store works it removes every key that does start with it. *)
Theorem clearAllCache_touches_only_tour_keys w :
  (∀ k, JsString.startsWith "cached_tour_" k = false →
        kv (clearAllCache P w).2 !! k = kv w !! k)
  ∧ (kv_failing w = false →
     ∀ k, JsString.startsWith "cached_tour_" k = true →
          kv (clearAllCache P w).2 !! k = None)
  ∧ kv (clearAllCache P w).2 !! STORAGE_KEYS.ACCESS_TOKEN
    = kv w !! STORAGE_KEYS.ACCESS_TOKEN
  ∧ kv (clearAllCache P w).2 !! STORAGE_KEYS.REFRESH_TOKEN
    = kv w !! STORAGE_KEYS.REFRESH_TOKEN
  ∧ kv (clearAllCache P w).2 !! STORAGE_KEYS.USER = kv w !! STORAGE_KEYS.USER.
Proof.
  rewrite clearAllCache_kv.
  assert (Hkeep : ∀ k, JsString.startsWith "cached_tour_" k = false →
                       (if kv_failing w then kv w
                        else foldr delete (kv w)
                               (List.filter (JsString.startsWith "cached_tour_")
                                  (elements (dom (kv w))))) !! k = kv w !! k).
  { intros k Hk. destruct (kv_failing w); [done|]. by apply other_key_kept. }
  split_and!; [done| |by apply Hkeep..].
  intros -> k Hk. by apply tour_key_removed.
Qed.

(** C2 fails on the code.  When the store works, [clearAllCache]
    returns normally with the tour keys removed, but the cache root is
    not on disk afterwards: the second [ensureCacheDirectoryExists]
    finds the initialised flag set and does nothing.  No download that
    follows sends a request or stores a file. *)
Theorem clearAllCache_leaves_no_root w :
  kv_failing w = false →
  ∃ w',
    clearAllCache P w = (Ok tt, w')
    ∧ (∀ k, JsString.startsWith "cached_tour_" k = true → kv w' !! k = None)
    ∧ (cacheDir P ∉ fs w')
    ∧ cacheInitialized w' = true
    ∧ ∀ url, ∃ r w'',
        downloadFile P url w' = (r, w'')
        ∧ requests w'' = requests w' ∧ fs w'' = fs w'.
Proof.
  intros Hkv.
  assert (Hnone : ∀ w', cacheInitialized w' = true → cacheDir P ∉ fs w' →
            ∀ url, ∃ r w'', downloadFile P url w' = (r, w'')
                            ∧ requests w'' = requests w' ∧ fs w'' = fs w').
  { intros w' Hf Hdir url. rewrite downloadFile_run, (ensured_idle P w' Hf).
    case_bool_decide; [by eexists _, _|].
    rewrite bool_decide_eq_false_2 by done. by eexists _, _. }
  pose proof (clearAllCache_kv w) as Hkeys. rewrite Hkv in Hkeys.
  pose proof (clearAllCache_run P w) as Hrun. cbv zeta in Hrun.
  rewrite Hkv in Hrun.
  destruct (clearAllCache P w) as [r w']. cbn [snd] in Hkeys.
  pose proof (ensured_initialized P w) as Hinit.
  assert (Hr : r = Ok tt ∧ (cacheDir P ∉ fs w') ∧ cacheInitialized w' = true).
  { case_bool_decide as Hdir; injection Hrun as -> ->; split_and!; try done.
    cbn. rewrite elem_of_filter, prefix_refl. by intros [? _]. }
  destruct Hr as (-> & Hgone & Hflag).
  exists w'. split_and!; try done.
  - intros k Hk. rewrite Hkeys. by apply tour_key_removed.
  - by apply Hnone.
Qed.

(** Two facts about repeated downloads.  A download skips the request
    when the name it derives is already on disk, and sends one whenever
    that name is new, whether or not the URL was downloaded before. *)
Lemma downloadFile_skips_existing_name url w :
  cacheDir P +:+ next_name url (ensured P w) ∈ fs (ensured P w) →
  downloadFile P url w
  = (Ok (cacheDir P +:+ next_name url (ensured P w)), drawn (ensured P w)).
Proof.
  intros Hin. rewrite downloadFile_run. by rewrite bool_decide_eq_true_2.
Qed.

Lemma downloadFile_requests_new_name url w :
  cacheInitialized w = true → cacheDir P ∈ fs w →
  cacheDir P +:+ next_name url w ∉ fs w →
  ∃ r w', downloadFile P url w = (r, w')
          ∧ requests w' = requests w ++ [url].
Proof.
  intros Hflag Hdir Hnew. rewrite downloadFile_run, (ensured_idle P w Hflag).
  rewrite bool_decide_eq_false_2 by done.
  rewrite bool_decide_eq_true_2 by done.
  unfold requests.
  destruct (asset_server _ url); eexists _, _; (split; [done|]);
    cbn; unfold requests_of; by rewrite omap_app.
Qed.

End Claims.

(** ** The claims at concrete inputs *)

Local Close Scope string_scope.

(** The string work on some URLs: an extension is kept behind the time
    stamp and the token; a leading dot is no extension; a trailing
    slash leaves an empty name. *)
Example file_name_keeps_extension :
  file_name "https://cdn.example.org/m/statue.v2.glb" 5 "abc"
  = "statue.v2_5_abc.glb"%string.
Proof. reflexivity. Qed.

Example file_name_without_extension :
  file_name "https://cdn.example.org/m/readme" 5 "abc" = "readme_5_abc"%string.
Proof. reflexivity. Qed.

Example file_name_leading_dot :
  file_name "https://cdn.example.org/.profile" 5 "abc" = ".profile_5_abc"%string.
Proof. reflexivity. Qed.

Example file_name_trailing_slash :
  file_name "https://cdn.example.org/m/" 5 "abc" = "_5_abc"%string.
Proof. reflexivity. Qed.

(** The collector on tour 7: the thumbnail shared by the tour and its
    object is listed once, missing fields are passed over. *)
Example collect_tour7 :
  Collector.collectAllAssetUrls Demo.tour7
  = ["https://cdn.example.org/img/tour7.png"%string;
     "https://cdn.example.org/models/statue.glb"%string;
     "https://cdn.example.org/models/statue.mtl"%string].
Proof. reflexivity. Qed.

(** Exact arithmetic meets what is assumed of the rounding to a double. *)
Lemma Demo_exact_arithmetic : rounds_like_binary64 Demo.platform.
Proof.
  split; cbn.
  - reflexivity.
  - intros x y _ H _. exact H.
  - intros x H0 _. unfold unit_roundoff. split; lra.
Qed.

(** C1 fails on the code.  In a fresh installation the first download of
    a URL sends one request and returns a path; the second download of
    the same URL derives another name (the clock and the random source
    have moved on), finds no file under it, sends a second request and
    returns a different path. *)
Theorem downloadFile_again_fetches_again :
  let first := downloadFile Demo.platform Demo.statue_url Demo.fresh in
  let second := downloadFile Demo.platform Demo.statue_url first.2 in
  first.1
  = Ok "file:///data/app/files/tour_cache/statue_1700000000000_0abz45.glb"%string
  ∧ requests first.2 = [Demo.statue_url]
  ∧ second.1
    = Ok "file:///data/app/files/tour_cache/statue_1700000000001_1abz45.glb"%string
  ∧ requests second.2 = [Demo.statue_url; Demo.statue_url].
Proof. cbv zeta. split_and!; vm_compute; reflexivity. Qed.

Lemma clearAllCache_leaves_no_root_witness :
  ∃ w', clearAllCache Demo.platform Demo.batch7.2 = (Ok tt, w')
        ∧ (cacheDir Demo.platform ∉ fs w').
Proof.
  destruct (clearAllCache_leaves_no_root Demo.platform Demo.batch7.2)
    as (w' & Hrun & _ & Hroot & _).
  - vm_compute. reflexivity.
  - exists w'. split; [exact Hrun|exact Hroot].
Defined.

(** After a batch, [clearAllCache] and a second batch for the same tour,
    nothing is cached: every download of the second batch failed. *)
Example batch_after_clearAllCache_caches_nothing :
  let cleared := (clearAllCache Demo.platform Demo.batch7.2).2 in
  let again := downloadTourAssets Demo.platform 7 false cleared in
  (∃ c, again.1 = Ok c ∧ localAssets c = ∅)
  ∧ requests again.2 = requests Demo.batch7.2.
Proof.
  cbv zeta. split.
  - eexists. split; vm_compute; reflexivity.
  - vm_compute. reflexivity.
Qed.

Lemma batch_survives_failed_downloads_witness :
  ∃ c w' (failed : list string),
    downloadTourAssets Demo.platform 7 true Demo.fresh = (Ok c, w')
    ∧ size (localAssets c)
      = (List.length (Collector.collectAllAssetUrls Demo.tour7)
         - List.length failed)%nat.
Proof.
  destruct (batch_survives_failed_downloads Demo.platform 7 true Demo.fresh
              Demo.tour7)
    as (c & w' & failed & Hrun & _ & _ & _ & _ & _ & _ & Hsize).
  - reflexivity.
  - reflexivity.
  - exists c, w', failed. split; [exact Hrun|exact Hsize].
Defined.

(** In that batch one of the three downloads fails (the server answers
    404) and two entries are recorded. *)
Example batch7_has_two_entries :
  Demo.batch7.1 = Ok Demo.record7
  ∧ size (localAssets Demo.record7) = 2%nat
  ∧ console Demo.batch7.2
    = [Warn (failed_message "https://cdn.example.org/models/statue.mtl")].
Proof. split_and!; vm_compute; reflexivity. Qed.

Lemma isTourCached_iff_fresh_witness :
  ∃ w', isTourCached Demo.platform 7 Demo.cached_23h_ago = (Ok true, w')
        ∧ kv w' = kv Demo.cached_23h_ago.
Proof.
  destruct (isTourCached_iff_fresh Demo.platform 7 Demo.cached_23h_ago)
    as (b & w' & Hrun & _ & Hkv & _ & Hcases).
  - reflexivity.
  - destruct (Hcases "{1699917200000}"%string
                {| tourDetails := Demo.empty_tour;
                   downloadedAt := "1699917200000"%string;
                   localAssets := ∅ |}
                1699917200000) as [H23 _].
    + reflexivity.
    + vm_compute. reflexivity.
    + reflexivity.
    + reflexivity.
    + exists w'. rewrite H23 in Hrun by reflexivity.
      split; [exact Hrun|exact Hkv].
Defined.

Example cached_23h_ago_is_fresh :
  (isTourCached Demo.platform 7 Demo.cached_23h_ago).1 = Ok true.
Proof. vm_compute. reflexivity. Qed.

Example cached_25h_ago_is_stale :
  (isTourCached Demo.platform 7 Demo.cached_25h_ago).1 = Ok false.
Proof. vm_compute. reflexivity. Qed.

Lemma progress_percentages_increase_witness :
  ∃ w' evs,
    events w' = Reported (start_report 3) :: evs
    ∧ map percentage (progress_of (Reported (start_report 3) :: evs))
      = [0; 0; 33; 33; 67; 67; 100].
Proof.
  destruct (progress_percentages_increase Demo.platform 3 Demo.fresh3 Demo.tour3)
    as (c & w' & failed & evs & _ & Hev & _ & _ & _ & H3).
  - exact Demo_exact_arithmetic.
  - reflexivity.
  - reflexivity.
  - exists w', evs. split; [exact Hev|]. apply H3. reflexivity.
Defined.

Lemma localAssets_keys_are_collected_witness :
  (downloadTourAssets Demo.platform 7 true Demo.fresh).1 = Ok Demo.record7
  ∧ tour_api Demo.fresh 7 = Some (tourDetails Demo.record7)
  ∧ Demo.statue_url ∈ Collector.collectAllAssetUrls (tourDetails Demo.record7).
Proof.
  assert (Hrun : (downloadTourAssets Demo.platform 7 true Demo.fresh).1
                 = Ok Demo.record7) by (vm_compute; reflexivity).
  destruct (localAssets_keys_are_collected Demo.platform 7 true Demo.fresh
              Demo.record7 Hrun) as [Hapi Hkeys].
  split; [exact Hrun|]. split; [exact Hapi|].
  apply Hkeys. eexists. vm_compute. reflexivity.
Defined.

Lemma unreadable_cache_is_a_miss_witness :
  ∃ w1 w2,
    isTourCached Demo.platform 7 Demo.garbled = (Ok false, w1)
    ∧ getCachedTourData Demo.platform 7 Demo.garbled = (Ok None, w2).
Proof.
  apply (unreadable_cache_is_a_miss Demo.platform 7 Demo.garbled).
  right. exists "oops"%string. split; vm_compute; reflexivity.
Defined.

Example store_down_is_a_miss :
  (isTourCached Demo.platform 7 Demo.store_down).1 = Ok false
  ∧ (getCachedTourData Demo.platform 7 Demo.store_down).1 = Ok None.
Proof. split; vm_compute; reflexivity. Qed.

Lemma downloads_survive_clearTourCache_witness :
  (downloadTourAssets Demo.platform 7 true Demo.fresh).1 = Ok Demo.record7
  ∧ localAssets Demo.record7 !! Demo.statue_url
    = Some "file:///data/app/files/tour_cache/statue_1700000000003_3abz45.glb"%string
  ∧ "file:///data/app/files/tour_cache/statue_1700000000003_3abz45.glb"%string
    ∈ fs (clearTourCache Demo.platform 7 Demo.batch7.2).2.
Proof.
  assert (Hrun : (downloadTourAssets Demo.platform 7 true Demo.fresh).1
                 = Ok Demo.record7) by (vm_compute; reflexivity).
  assert (Hpath : localAssets Demo.record7 !! Demo.statue_url
    = Some "file:///data/app/files/tour_cache/statue_1700000000003_3abz45.glb"%string)
    by (vm_compute; reflexivity).
  destruct (downloads_survive_clearTourCache Demo.platform 7 true Demo.fresh
              Demo.record7 Hrun) as (_ & _ & Hrec).
  destruct (Hrec _ _ Hpath) as (_ & _ & Hkept).
  split; [exact Hrun|]. split; [exact Hpath|exact (Hkept 7)].
Defined.

(** * Beyond the claims *)

(** ** More facts about strings *)

Section MoreStringFacts.
Import JsString.

Lemma of_number_parse z :
  Z.of_int <$> NilZero.int_of_string (of_number z) = Some z.
Proof.
  unfold of_number. rewrite NilZero.isi.
  - cbn. by rewrite DecimalZ.of_to.
  - destruct z; cbn; [done| |done].
    intros [= E]. by apply Unsigned.to_uint_nonnil in E.
  - destruct z; cbn; [done|done|].
    intros [= E]. by apply Unsigned.to_uint_nonnil in E.
Qed.

Lemma of_number_inj a b : of_number a = of_number b → a = b.
Proof.
  intros E. pose proof (of_number_parse a) as Ha.
  rewrite E, of_number_parse in Ha. by injection Ha.
Qed.

Lemma occurs_underscore_of_uint d : occurs "_" (NilEmpty.string_of_uint d) = false.
Proof. induction d; simpl; done. Qed.

Lemma occurs_underscore_of_number z : occurs "_" (of_number z) = false.
Proof.
  unfold of_number.
  destruct (Z.to_int z) as [d|d]; simpl;
    destruct d; simpl; done || apply occurs_underscore_of_uint.
Qed.

Lemma occurs_dot_of_uint d : occurs "." (NilEmpty.string_of_uint d) = false.
Proof. induction d; simpl; done. Qed.

Lemma occurs_dot_of_number z : occurs "." (of_number z) = false.
Proof.
  unfold of_number.
  destruct (Z.to_int z) as [d|d]; simpl;
    destruct d; simpl; done || apply occurs_dot_of_uint.
Qed.

Lemma digit36_not_dot n : Ascii.eqb (digit36 n) "." = false.
Proof.
  unfold digit36.
  assert (H : Forall (λ a, Ascii.eqb a "." = false) alphabet36)
    by (vm_compute; repeat constructor).
  assert (Hd : Ascii.eqb "0" "." = false) by reflexivity.
  generalize (N.to_nat (n mod 36)). intros k. revert k.
  induction H as [|a l Ha Hl IH]; intros [|k]; simpl; auto.
Qed.

Lemma occurs_dot_of_digits36 ds : occurs "." (of_digits36 ds) = false.
Proof.
  unfold of_digits36. induction ds as [|d ds IH]; simpl; [done|].
  by rewrite digit36_not_dot.
Qed.

Lemma string_app_inv_l (p a b : string) : p +:+ a = p +:+ b → a = b.
Proof.
  induction p as [|x p IH]; [done|]. rewrite !app_cons. intros [= E]. auto.
Qed.

Lemma string_app_length (a b : string) :
  String.length (a +:+ b) = (String.length a + String.length b)%nat.
Proof. induction a as [|x a IH]; [done|]. rewrite app_cons. simpl. by rewrite IH. Qed.

Lemma string_app_inv_r (c a b : string) : a +:+ c = b +:+ c → a = b.
Proof.
  revert b. induction a as [|x a IH]; intros [|y b] E.
  - done.
  - exfalso. apply (f_equal String.length) in E.
    rewrite app_nil, app_cons in E. simpl in E. rewrite string_app_length in E. lia.
  - exfalso. apply (f_equal String.length) in E.
    rewrite app_nil, app_cons in E. simpl in E. rewrite string_app_length in E. lia.
  - rewrite !app_cons in E. injection E as -> E. f_equal. auto.
Qed.

(** A separator splits a string in one way only when the part before
    it does not hold the separator. *)
Lemma split_at_unique c (a1 a2 b1 b2 : string) :
  occurs c a1 = false → occurs c a2 = false →
  a1 +:+ String c b1 = a2 +:+ String c b2 → a1 = a2 ∧ b1 = b2.
Proof.
  revert a2. induction a1 as [|x a1 IH]; intros [|y a2]; simpl.
  - intros _ _. rewrite !app_nil. by intros [= ->].
  - rewrite app_nil, app_cons. destruct (Ascii.eqb y c) eqn:E; [done|].
    intros _ _ [= <- _]. by rewrite Ascii.eqb_refl in E.
  - rewrite app_nil, app_cons. destruct (Ascii.eqb x c) eqn:E; [done|].
    intros _ _ [= -> _]. by rewrite Ascii.eqb_refl in E.
  - rewrite !app_cons.
    destruct (Ascii.eqb x c); [done|]. destruct (Ascii.eqb y c); [done|].
    intros H1 H2 [= -> E]. destruct (IH a2 H1 H2 E) as [-> ->]. done.
Qed.

Lemma last_index_some c s i :
  last_index c s = Some i →
  ∃ a b, s = a +:+ String c b ∧ String.length a = i ∧ occurs c b = false.
Proof.
  revert i. induction s as [|x s IH]; intros i; simpl; [done|].
  destruct (last_index c s) as [j|] eqn:E.
  - intros [= <-]. destruct (IH j eq_refl) as (a & b & -> & Hl & Hb).
    exists (String x a), b. rewrite app_cons. simpl. by rewrite Hl.
  - destruct (Ascii.eqb x c) eqn:Ex; [|done]. intros [= <-].
    apply Ascii.eqb_eq in Ex as ->.
    exists EmptyString, s. split_and!; try done.
    clear IH. induction s as [|y s IH]; simpl in *; [done|].
    destruct (last_index c s); [done|].
    destruct (Ascii.eqb y c); [done|]. by apply IH.
Qed.

Lemma last_index_none_inv c s : last_index c s = None → occurs c s = false.
Proof.
  induction s as [|y s IH]; simpl in *; [done|].
  destruct (last_index c s); [done|].
  destruct (Ascii.eqb y c); [done|]. by intros _; apply IH.
Qed.

Lemma last_index_split c a b :
  occurs c b = false →
  last_index c (a +:+ String c b) = Some (String.length a).
Proof.
  intros Hb. induction a as [|x a IH].
  - rewrite app_nil. simpl. by rewrite (last_index_none c b Hb), Ascii.eqb_refl.
  - rewrite app_cons. simpl. by rewrite IH.
Qed.

Lemma substring_from_app a b :
  substring_from (String.length a) (a +:+ b) = b.
Proof.
  unfold substring_from. rewrite string_app_length.
  replace (String.length a + String.length b - String.length a)%nat
    with (String.length b) by lia.
  induction a as [|x a IH].
  - rewrite app_nil. simpl. clear. induction b as [|y b IH]; simpl; [done|].
    by rewrite IH.
  - rewrite app_cons. simpl. done.
Qed.

Lemma substring_to_app a b :
  substring 0 (String.length a) (a +:+ b) = a.
Proof. unfold substring. rewrite Nat.sub_0_r. apply substring_0_app. Qed.

End MoreStringFacts.

(** ** File names *)

Section FileNames.
Import JsString.

Lemma extension_without_dot s : occurs "." s = false → extension s = EmptyString.
Proof. intros H. unfold extension. by rewrite last_index_none. Qed.

Lemma extension_app a b :
  a ≠ EmptyString → occurs "." b = false →
  extension (a +:+ String "." b) = String "." b.
Proof.
  intros Ha Hb. unfold extension. rewrite last_index_split by done.
  destruct a as [|x a]; [done|]. cbn [String.length].
  change (S (String.length a)) with (String.length (String x a)).
  apply substring_from_app.
Qed.

Lemma extension_leading_dot b c :
  occurs "." b = false → occurs "." c = false →
  extension (String "." b +:+ c) = EmptyString.
Proof.
  intros Hb Hc. unfold extension.
  change (String "." b +:+ c) with (EmptyString +:+ String "." (b +:+ c)).
  rewrite last_index_split; [done|]. by rewrite occurs_app, Hb, Hc.
Qed.

Lemma file_name_extension url timestamp randomId :
  occurs "." randomId = false →
  extension (file_name url timestamp randomId)
  = extension (last_part (split "/" url)).
Proof.
  intros Hr. unfold file_name, lastIndexOf.
  set (fileName := last_part (split "/" url)).
  assert (Hmid : occurs "."
            ("_"%string +:+ of_number timestamp +:+ "_"%string +:+ randomId)
          = false).
  { by rewrite !occurs_app, occurs_dot_of_number, Hr. }
  destruct (last_index "." fileName) as [i|] eqn:Hi.
  - destruct (last_index_some _ _ _ Hi) as (a & b & Hs & Hl & Hb).
    destruct i as [|i].
    + destruct a; [|done]. rewrite app_nil in Hs.
      change (0 <? Z.of_nat 0) with false. cbv iota. rewrite Hs.
      rewrite extension_leading_dot; [|done|done].
      change (String "." b) with (EmptyString +:+ String "." b).
      unfold extension. by rewrite last_index_split.
    + assert (Hpos : (0 <? Z.of_nat (S i)) = true) by (apply Z.ltb_lt; lia).
      rewrite Hpos, Nat2Z.id, <- Hl, Hs.
      rewrite substring_to_app, substring_from_app.
      assert (Ha : a ≠ EmptyString) by (destruct a; done).
      rewrite (extension_app a b Ha Hb).
      replace (a +:+ "_"%string +:+ of_number timestamp +:+ "_"%string
               +:+ randomId +:+ String "." b)
        with ((a +:+ "_"%string +:+ of_number timestamp +:+ "_"%string
               +:+ randomId) +:+ String "." b)
        by (by rewrite !string_app_assoc).
      apply extension_app; [|done]. by destruct a.
  - change (0 <? -1) with false. cbv iota.
    pose proof (last_index_none_inv _ _ Hi) as Hf.
    rewrite !extension_without_dot; [done|done|].
    by rewrite occurs_app, Hf, Hmid.
Qed.

Lemma file_name_nonempty url timestamp randomId :
  file_name url timestamp randomId ≠ EmptyString.
Proof.
  unfold file_name. intros E. apply (f_equal String.length) in E.
  destruct (0 <? _); rewrite !string_app_length in E; simpl in E; lia.
Qed.

Lemma file_name_inj url t1 r1 t2 r2 :
  file_name url t1 r1 = file_name url t2 r2 → t1 = t2 ∧ r1 = r2.
Proof.
  unfold file_name. destruct (0 <? _).
  - intros E. apply string_app_inv_l in E.
    change ("_"%string +:+ ?x) with (EmptyString +:+ String "_" x) in E.
    apply split_at_unique in E as [_ E]; [|done..].
    apply split_at_unique in E as [E1 E2];
      [|apply occurs_underscore_of_number..].
    apply of_number_inj in E1. apply string_app_inv_r in E2. done.
  - intros E. apply string_app_inv_l in E.
    change ("_"%string +:+ ?x) with (EmptyString +:+ String "_" x) in E.
    apply split_at_unique in E as [_ E]; [|done..].
    apply split_at_unique in E as [E1 E2];
      [|apply occurs_underscore_of_number..].
    apply of_number_inj in E1. done.
Qed.

End FileNames.

(** ** More about runs *)

Section MoreRuns.
Variable P : Platform.

Lemma cache_key_inj a b : cache_key a = cache_key b → a = b.
Proof.
  unfold cache_key. intros E. apply string_app_inv_l in E.
  by apply of_number_inj.
Qed.

Lemma cache_key_is_tour_key tourId :
  JsString.startsWith "cached_tour_" (cache_key tourId) = true.
Proof.
  unfold JsString.startsWith, cache_key.
  rewrite <- (string_app_nil_r "cached_tour_") at 1.
  rewrite prefix_app. by destruct (JsString.of_number tourId).
Qed.

Lemma cache_key_not_session_key tourId :
  cache_key tourId ≠ STORAGE_KEYS.ACCESS_TOKEN
  ∧ cache_key tourId ≠ STORAGE_KEYS.REFRESH_TOKEN
  ∧ cache_key tourId ≠ STORAGE_KEYS.USER.
Proof. by split_and!. Qed.



(** A batch that cannot fetch the tour record. *)
Lemma downloadTourAssets_fatal tourId onProgress w :
  kv_failing w = true ∨ tour_api w tourId = None →
  downloadTourAssets P tourId onProgress w
  = (Throw (if kv_failing w then AsyncStorage.unavailable
            else Error "Request failed"%string),
     emit (Logged (Err "Tour asset download failed:"%string)) (ensured P w)).
Proof.
  intros H.
  unfold downloadTourAssets, try_catch. unfold bind at 1.
  rewrite ensure_run. unfold bind at 1. rewrite getTourDetails_run.
  destruct (ensured_services P w) as (_ & Hk2 & Hk3 & _).
  rewrite Hk2, Hk3.
  destruct (kv_failing w); [done|].
  destruct H as [H|H]; [done|]. by rewrite H.
Qed.

(** The time stamp of the record a batch returns, and what a batch
    leaves alone. *)
Lemma downloadTourAssets_stamp tourId onProgress w c w' :
  downloadTourAssets P tourId onProgress w = (Ok c, w') →
  (0 < clock_reads w')%nat
  ∧ downloadedAt c = Date_toISOString P (clock w' (pred (clock_reads w')))
  ∧ clock w' = clock w ∧ tour_api w' = tour_api w
  ∧ asset_server w' = asset_server w ∧ random w' = random w.
Proof.
  intros Hrun.
  destruct (downloadTourAssets_ok_inv P _ _ _ _ _ Hrun) as [Hkv Hapi].
  revert Hrun.
  set (urls := Collector.collectAllAssetUrls (tourDetails c)).
  unfold downloadTourAssets, try_catch. unfold bind at 1.
  rewrite ensure_run. unfold bind at 1. rewrite getTourDetails_run.
  destruct (ensured_services P w) as (Hk1 & Hk2 & Hk3 & Hk4 & Hk5 & Hk6).
  rewrite Hk2, Hkv, Hk3, Hapi. fold urls.
  unfold bind at 1. rewrite call_start_run.
  set (w0 := if onProgress
             then emit (Reported (start_report (List.length urls))) (ensured P w)
             else ensured P w).
  assert (Hs0 : same_services w w0).
  { unfold w0. destruct onProgress; [|apply ensured_services].
    eapply same_services_trans; [apply ensured_services|apply emit_services]. }
  assert (Hnd : NoDup urls) by apply collect_NoDup.
  assert (Htr : Forall (λ u, JsString.truthy u = true) urls).
  { apply Forall_forall. intros u Hu. by eapply collect_truthy. }
  destruct (download_loop_spec P onProgress (List.length urls) urls 0 ∅ w0 Hnd Htr)
    as (la & w1 & failed & evs & Hloop & Hs1 & _).
  unfold bind at 1. rewrite Hloop.
  unfold bind at 1. unfold Date.now at 1.
  unfold bind at 1. unfold AsyncStorage.setItem at 1.
  destruct (same_services_trans _ _ _ Hs0 Hs1) as (Hkv1 & Hkf1 & Ha1 & Ha2 & Ha3 & Ha4).
  cbn [kv_failing set_clock_reads]. rewrite Hkf1, Hkv.
  unfold ret. intros [= <- <-]. cbn. rewrite Ha3. split_and!; try done. lia.
Qed.

(** All that [ensureCacheDirectoryExists] may add to the disk is the
    cache root. *)
Lemma ensured_adds_root w q : q ∈ fs (ensured P w) → q ∈ fs w ∨ q = cacheDir P.
Proof.
  unfold ensured. destruct (cacheInitialized w); [auto|].
  case_bool_decide; cbn; [auto|].
  rewrite elem_of_union, elem_of_singleton. tauto.
Qed.

Lemma ensured_root w : cacheInitialized w = false → cacheDir P ∈ fs (ensured P w).
Proof.
  intros H. unfold ensured. rewrite H. case_bool_decide; cbn; [done|].
  apply elem_of_union_l. by apply elem_of_singleton.
Qed.

Lemma ensured_counters w :
  clock_reads (ensured P w) = clock_reads w
  ∧ random_draws (ensured P w) = random_draws w.
Proof.
  unfold ensured. destruct (cacheInitialized w); [done|].
  by case_bool_decide.
Qed.

End MoreRuns.

(** ** The order of the collector *)

Section CollectorOrder.
Import Collector.

Lemma set_add_all_sublist urls : ∀ seen,
  ∃ r, set_add_all seen urls = seen ++ r
       ∧ r `sublist_of` urls
       ∧ (NoDup (seen ++ urls) → r = urls).
Proof.
  induction urls as [|u rest IH]; intros seen; cbn [set_add_all].
  - exists []. by rewrite app_nil_r.
  - case_bool_decide as Hin.
    + destruct (IH seen) as (r & -> & Hsub & _). exists r.
      split_and!; [done|by apply sublist_cons|].
      intros Hnd. apply NoDup_app in Hnd as (_ & Hdis & _).
      destruct (Hdis u Hin). left.
    + destruct (IH (seen ++ [u])) as (r & -> & Hsub & Heq). exists (u :: r).
      split_and!; [by rewrite <- app_assoc|by apply sublist_skip|].
      intros Hnd. f_equal. apply Heq. by rewrite <- app_assoc.
Qed.

Lemma appends_id : appends (λ urls, urls).
Proof. intros urls. exists []. by rewrite app_nil_r. Qed.

Lemma appends_compose f g : appends f → appends g → appends (λ urls, g (f urls)).
Proof.
  intros Hf Hg urls. destruct (Hf urls) as [r1 ->].
  destruct (Hg (urls ++ r1)) as [r2 ->]. exists (r1 ++ r2). by rewrite app_assoc.
Qed.

Lemma appends_push_if u : appends (push_if u).
Proof.
  intros urls. unfold push_if. destruct u as [s|]; [|apply appends_id].
  destruct (JsString.truthy s); [by eexists|apply appends_id].
Qed.

Lemma appends_fold {A} (f : list string → A → list string) xs :
  (∀ x, appends (λ urls, f urls x)) → appends (fold_left f xs).
Proof.
  intros Hf. induction xs as [|x xs IH]; cbn [fold_left]; [apply appends_id|].
  apply (appends_compose (λ urls, f urls x) (fold_left f xs)); auto.
Qed.

Lemma appends_forEach_opt {A} (f : list string → A → list string) xs :
  (∀ x, appends (λ urls, f urls x)) → appends (forEach_opt f xs).
Proof.
  intros Hf. destruct xs as [l|]; [by apply appends_fold|apply appends_id].
Qed.

Lemma appends_push_materials ms : appends (push_materials ms).
Proof. apply appends_fold. intros x. apply appends_push_if. Qed.

Lemma appends_push_asset a : appends (λ urls, push_asset urls a).
Proof.
  intros urls. unfold push_asset. cbv zeta.
  destruct (appends_push_if (Asset.thumbnail_image_url a) urls) as [r1 ->].
  destruct (appends_push_if (Asset.model_url a) (urls ++ r1)) as [r2 ->].
  assert (∃ r3, match Asset.material_urls a with
                | Some ms => push_materials ms ((urls ++ r1) ++ r2)
                | None => (urls ++ r1) ++ r2
                end = ((urls ++ r1) ++ r2) ++ r3) as [r3 ->].
  { destruct (Asset.material_urls a);
      [apply appends_push_materials|apply appends_id]. }
  destruct (appends_push_if (Asset.marker_image_url a) (((urls ++ r1) ++ r2) ++ r3))
    as [r4 ->].
  destruct (appends_push_if (Asset.audio_url a)
              ((((urls ++ r1) ++ r2) ++ r3) ++ r4)) as [r5 ->].
  destruct (appends_push_if (Asset.video_url a)
              (((((urls ++ r1) ++ r2) ++ r3) ++ r4) ++ r5)) as [r6 ->].
  exists (r1 ++ r2 ++ r3 ++ r4 ++ r5 ++ r6). by rewrite <- !app_assoc.
Qed.

Lemma appends_push_task k : appends (λ urls, push_task urls k).
Proof.
  intros urls. unfold push_task. cbv zeta.
  destruct (appends_push_if (Task.thumbnail_url k) urls) as [r1 ->].
  destruct (appends_push_if (Task.detailed_img_url k) (urls ++ r1)) as [r2 ->].
  exists (r1 ++ r2). by rewrite <- !app_assoc.
Qed.

Lemma appends_push_object o : appends (λ urls, push_object urls o).
Proof.
  intros urls. unfold push_object. cbv zeta.
  destruct (appends_push_if (TourObject.thumbnail_url o) urls) as [r1 ->].
  destruct (appends_forEach_opt push_asset (TourObject.assets o)
              appends_push_asset (urls ++ r1)) as [r2 ->].
  destruct (appends_forEach_opt push_task (TourObject.tasks o)
              appends_push_task ((urls ++ r1) ++ r2)) as [r3 ->].
  exists (r1 ++ r2 ++ r3). by rewrite <- !app_assoc.
Qed.

Lemma pushed_thumbnail_first td u :
  carries (TourDetails.thumbnail_url td) u → ∃ r, pushed td = u :: r.
Proof.
  intros [Hf Hu]. unfold pushed. cbv zeta. rewrite Hf. cbn [push_if].
  apply truthy_iff in Hu. rewrite Hu.
  destruct (appends_fold push_object (TourDetails.objects td)
              appends_push_object ([] ++ [u])) as [r ->].
  by exists r.
Qed.

End CollectorOrder.

(** ** Further properties of the cache manager *)

Section CacheManager.
Variable P : Platform.

(** X1.  The collector keeps the order of the traversal: its list is a
    subsequence of the pushes, it is the list of pushes itself when no
    URL is pushed twice, and the tour thumbnail, when the record
    carries one, comes first. *)
Theorem collectAllAssetUrls_keeps_order (td : TourDetails.t) :
  Collector.collectAllAssetUrls td `sublist_of` Collector.pushed td
  ∧ (NoDup (Collector.pushed td) →
     Collector.collectAllAssetUrls td = Collector.pushed td)
  ∧ (∀ u, Collector.carries (TourDetails.thumbnail_url td) u →
          head (Collector.collectAllAssetUrls td) = Some u).
Proof.
  unfold Collector.collectAllAssetUrls, Collector.Array_from_Set.
  split_and!.
  - destruct (set_add_all_sublist (Collector.pushed td) []) as (r & -> & H & _).
    done.
  - intros Hnd.
    destruct (set_add_all_sublist (Collector.pushed td) []) as (r & -> & _ & H).
    by apply H.
  - intros u Hu. destruct (pushed_thumbnail_first td u Hu) as [r ->].
    cbn [Collector.set_add_all]. rewrite bool_decide_eq_false_2 by apply not_elem_of_nil.
    destruct (set_add_all_sublist r ([] ++ [u])) as (r' & -> & _). done.
Qed.

(** X2.  A batch for a tour without any URL: the record is fetched and
    persisted with an empty [localAssets], the only report is the
    opening one with total 0 and 0 percent, no request is sent and no
    warning is logged; on disk at most the cache root is new. *)
Theorem batch_without_urls tourId onProgress w td :
  kv_failing w = false → tour_api w tourId = Some td →
  Collector.collectAllAssetUrls td = [] →
  ∃ c w',
    downloadTourAssets P tourId onProgress w = (Ok c, w')
    ∧ tourDetails c = td ∧ localAssets c = ∅
    ∧ events w' = events w ++ reported onProgress (start_report 0)
    ∧ kv w' !! cache_key tourId = Some (JSON_stringify P c)
    ∧ ∀ q, q ∈ fs w' → q ∈ fs w ∨ q = cacheDir P.
Proof.
  intros Hkv Hapi Hnone.
  unfold downloadTourAssets, try_catch. unfold bind at 1.
  rewrite ensure_run. unfold bind at 1. rewrite getTourDetails_run.
  destruct (ensured_services P w) as (Hk1 & Hk2 & Hk3 & _).
  rewrite Hk2, Hkv, Hk3, Hapi, Hnone. cbn [List.length download_loop].
  unfold bind at 1. rewrite call_start_run.
  unfold bind, ret, Date.now, AsyncStorage.setItem.
  pose proof (ensured_adds_root P w) as Hfs.
  destruct onProgress; cbn [kv_failing set_clock_reads emit];
    rewrite Hk2, Hkv; eexists _, _; (split; [reflexivity|]);
    cbn [tourDetails localAssets events kv fs set_kv set_clock_reads emit reported];
    rewrite ensured_events, ?app_nil_r, lookup_insert_eq; split_and!; done.
Qed.


(** X4.  [ensureCacheDirectoryExists] never throws and is idempotent:
    after it the initialised flag is set and a second call changes
    nothing.  It removes nothing from the disk and adds at most the
    cache root, which is on disk afterwards whenever the flag was not
    yet set; the store, the console and the counters are left alone. *)
Theorem ensureCacheDirectoryExists_idempotent w :
  ∃ w1,
    ensureCacheDirectoryExists P w = (Ok tt, w1)
    ∧ ensureCacheDirectoryExists P w1 = (Ok tt, w1)
    ∧ cacheInitialized w1 = true
    ∧ fs w ⊆ fs w1
    ∧ (∀ q, q ∈ fs w1 → q ∈ fs w ∨ q = cacheDir P)
    ∧ (cacheInitialized w = false → cacheDir P ∈ fs w1)
    ∧ kv w1 = kv w ∧ events w1 = events w
    ∧ clock_reads w1 = clock_reads w ∧ random_draws w1 = random_draws w.
Proof.
  exists (ensured P w). rewrite !ensure_run.
  rewrite (ensured_idle P (ensured P w)) by apply ensured_initialized.
  destruct (ensured_services P w) as (Hkv & _).
  destruct (ensured_counters P w) as [Hc Hr].
  split_and!; try done.
  - apply ensured_initialized.
  - apply ensured_fs.
  - apply ensured_adds_root.
  - apply ensured_root.
  - apply ensured_events.
Qed.

(** X5.  What [downloadFile] does, in terms of the world it meets.  It
    returns exactly when the name it derives is already on disk, or the
    cache root is on disk and the server answers 200; what it returns
    is the cache root followed by that name, and that path is then on
    disk.  It sends a request for the URL exactly when the name is new
    and the root is on disk, and none otherwise.  Every call reads the
    clock once and draws one random number; the store is left alone. *)
Theorem downloadFile_outcome url w :
  let w0 := ensured P w in
  let path := cacheDir P +:+ next_name url w0 in
  let run := downloadFile P url w in
  (run.1 = Ok path
   ↔ path ∈ fs w0 ∨ (cacheDir P ∈ fs w0 ∧ asset_server w url = Http 200))
  ∧ (∀ p, run.1 = Ok p → p = path ∧ p ∈ fs run.2)
  ∧ requests run.2
    = requests w ++ (if bool_decide ((path ∉ fs w0) ∧ cacheDir P ∈ fs w0)
                     then [url] else [])
  ∧ clock_reads run.2 = S (clock_reads w)
  ∧ random_draws run.2 = S (random_draws w)
  ∧ kv run.2 = kv w.
Proof.
  cbv zeta. rewrite downloadFile_run. cbv zeta.
  destruct (ensured_services P w) as (Hkv & _ & _ & Hsrv & _).
  destruct (ensured_counters P w) as [Hc Hr].
  pose proof (ensured_events P w) as Hev.
  change (fs (drawn (ensured P w))) with (fs (ensured P w)).
  change (asset_server (drawn (ensured P w))) with (asset_server (ensured P w)).
  rewrite Hsrv.
  set (path := cacheDir P +:+ next_name url (ensured P w)).
  assert (Hreq0 : requests (drawn (ensured P w)) = requests w)
    by (unfold requests; cbn; by rewrite Hev).
  assert (Hreq1 : requests (emit (Requested url) (drawn (ensured P w)))
                  = requests w ++ [url]).
  { unfold requests, requests_of. cbn. by rewrite omap_app, Hev. }
  case_bool_decide as Hin.
  - cbn [fst snd]. rewrite bool_decide_eq_false_2 by tauto.
    rewrite app_nil_r. split_and!; cbn; try done; try congruence.
    + split; auto.
    + by intros p [= <-].
  - case_bool_decide as Hdir.
    + rewrite bool_decide_eq_true_2 by done.
      destruct (asset_server w url) as [|s] eqn:Hs; cbn [fst snd].
      * split_and!; cbn; try done; try congruence.
        split; [done|]. intros [?|[_ ?]]; done.
      * split_and!; cbn; try done; try congruence.
        -- destruct (s =? 200) eqn:E.
           ++ apply Z.eqb_eq in E as ->. split; auto.
           ++ split; [done|]. intros [?|[_ [= ->]]]; done.
        -- destruct (s =? 200); [|done]. intros p [= <-].
           split; [done|]. apply elem_of_union_l. by apply elem_of_singleton.
    + rewrite bool_decide_eq_false_2 by tauto. rewrite app_nil_r.
      cbn [fst snd]. split_and!; cbn; try done; try congruence.
      split; [done|]. intros [?|[? _]]; done.
Qed.

(** X6.  The name [getFileNameFromUrl] derives keeps the extension of
    the URL's last segment (what starts at its last dot, unless that
    dot comes first), holds no slash and is never empty; deriving it
    reads the clock once and draws one random number. *)
Theorem getFileNameFromUrl_keeps_extension url w :
  ∃ name,
    (getFileNameFromUrl url w).1 = Ok name
    ∧ extension name
      = extension (JsString.last_part (JsString.split "/" url))
    ∧ JsString.occurs "/" name = false
    ∧ name ≠ EmptyString
    ∧ clock_reads (getFileNameFromUrl url w).2 = S (clock_reads w)
    ∧ random_draws (getFileNameFromUrl url w).2 = S (random_draws w).
Proof.
  rewrite getFileNameFromUrl_run. exists (next_name url w).
  split_and!; try done.
  - apply file_name_extension, occurs_dot_of_digits36.
  - apply next_name_no_slash.
  - apply file_name_nonempty.
Qed.

(** X7.  For one URL the derived name determines the time stamp and
    the token: two names are equal only when both coincide.  So two
    calls of [getFileNameFromUrl] for the same URL yield the same name
    exactly when they read the same time and draw the same token. *)
Theorem file_name_determines_stamp_and_token url :
  (∀ t1 r1 t2 r2,
     file_name url t1 r1 = file_name url t2 r2 ↔ t1 = t2 ∧ r1 = r2)
  ∧ ∀ w w',
      (getFileNameFromUrl url w).1 = (getFileNameFromUrl url w').1
      ↔ clock w (clock_reads w) = clock w' (clock_reads w')
        ∧ JsString.of_digits36 (take 6 (random w (random_draws w)))
          = JsString.of_digits36 (take 6 (random w' (random_draws w'))).
Proof.
  split.
  - intros t1 r1 t2 r2. split; [apply file_name_inj|]. by intros [-> ->].
  - intros w w'. rewrite !getFileNameFromUrl_run. cbn [fst]. unfold next_name.
    split.
    + intros [= E]. by apply file_name_inj in E.
    + by intros [-> ->].
Qed.

(** What [clearTourCache] leaves alone. *)
Lemma clearTourCache_frame tourId w :
  let w' := (clearTourCache P tourId w).2 in
  (clearTourCache P tourId w).1 = Ok tt
  ∧ kv_failing w' = kv_failing w ∧ clock w' = clock w
  ∧ clock_reads w' = clock_reads w
  ∧ kv w' = (if kv_failing w then kv w else delete (cache_key tourId) (kv w))
  ∧ events w' = events w
       ++ (if kv_failing w
           then [Logged (Err "Error clearing tour cache:"%string)] else []).
Proof.
  cbv zeta. rewrite clearTourCache_run. cbv zeta.
  destruct (ensured_services P w) as (Hkv & Hkf & _ & _ & Hcl & _).
  destruct (ensured_counters P w) as [Hc _].
  pose proof (ensured_events P w) as Hev.
  destruct (kv_failing w) eqn:E.
  - cbn. by rewrite Hev.
  - case_bool_decide; cbn; rewrite ?Hkv, ?Hev, ?app_nil_r; done.
Qed.

Lemma clearAllCache_frame w :
  let w' := (clearAllCache P w).2 in
  (clearAllCache P w).1 = Ok tt
  ∧ kv_failing w' = kv_failing w ∧ clock w' = clock w
  ∧ clock_reads w' = clock_reads w
  ∧ events w' = events w
       ++ (if kv_failing w
           then [Logged (Err "Error clearing all cache:"%string)] else []).
Proof.
  cbv zeta. rewrite clearAllCache_run. cbv zeta.
  destruct (ensured_services P w) as (Hkv & Hkf & _ & _ & Hcl & _).
  destruct (ensured_counters P w) as [Hc _].
  pose proof (ensured_events P w) as Hev.
  destruct (kv_failing w) eqn:E.
  - cbn. by rewrite Hev.
  - case_bool_decide; cbn; rewrite ?Hev, ?app_nil_r; done.
Qed.

(** The answer of [isTourCached] depends on the store and the clock
    only. *)
Lemma isTourCached_depends tourId w w' :
  kv_failing w' = kv_failing w →
  kv w' !! cache_key tourId = kv w !! cache_key tourId →
  clock w' = clock w → clock_reads w' = clock_reads w →
  (isTourCached P tourId w').1 = (isTourCached P tourId w).1.
Proof.
  intros Hkf Hkv Hcl Hcr. rewrite !isTourCached_run, Hkf, Hkv, Hcl, Hcr.
  destruct (kv_failing w); [done|].
  destruct (kv w !! cache_key tourId) as [s|]; [|done].
  destruct (JsString.truthy s); [|done].
  by destruct (JSON_parse P s).
Qed.

(** The store after a batch: the tour's entry is written, or nothing. *)
Lemma downloadTourAssets_kv tourId onProgress w k :
  k ≠ cache_key tourId →
  kv (downloadTourAssets P tourId onProgress w).2 !! k = kv w !! k.
Proof.
  intros Hk.
  destruct (kv_failing w) eqn:Hkv.
  { rewrite downloadTourAssets_fatal by auto. cbn.
    destruct (ensured_services P w) as (-> & _). done. }
  destruct (tour_api w tourId) as [td|] eqn:Hapi.
  - destruct (downloadTourAssets_run P tourId onProgress w td Hkv Hapi)
      as (c & w' & ? & ? & Hrun & _ & Hkv' & _).
    rewrite Hrun. cbn [snd]. rewrite Hkv'. by rewrite lookup_insert_ne.
  - rewrite downloadTourAssets_fatal by auto. cbn.
    destruct (ensured_services P w) as (-> & _). done.
Qed.

(** X8.  Tours are cached independently of each other.  Different
    tours have different keys; a batch for one tour, whatever its
    outcome, leaves the entry of every other tour as it was, and so
    does [clearTourCache], after which [isTourCached] answers for every
    other tour as it did before. *)
Theorem other_tours_are_untouched tourId other onProgress w :
  other ≠ tourId →
  cache_key other ≠ cache_key tourId
  ∧ kv (downloadTourAssets P tourId onProgress w).2 !! cache_key other
    = kv w !! cache_key other
  ∧ kv (clearTourCache P tourId w).2 !! cache_key other
    = kv w !! cache_key other
  ∧ (isTourCached P other (clearTourCache P tourId w).2).1
    = (isTourCached P other w).1.
Proof.
  intros Hne.
  assert (Hkey : cache_key other ≠ cache_key tourId)
    by (intros E; by apply cache_key_inj in E).
  destruct (clearTourCache_frame tourId w) as (_ & Hkf & Hcl & Hcr & Hkv & _).
  assert (Hkeep : kv (clearTourCache P tourId w).2 !! cache_key other
                  = kv w !! cache_key other).
  { rewrite Hkv. destruct (kv_failing w); [done|]. by apply lookup_delete_ne. }
  split_and!; [done|by apply downloadTourAssets_kv|done|].
  by apply isTourCached_depends.
Qed.

(** X9.  With a working store, [clearTourCache] makes the tour a cache
    miss: it returns normally and logs nothing, and afterwards
    [isTourCached] answers false and [getCachedTourData] answers null
    for that tour, without logging and without reading the clock. *)
Theorem clearTourCache_then_miss tourId w :
  kv_failing w = false →
  let w1 := (clearTourCache P tourId w).2 in
  (clearTourCache P tourId w).1 = Ok tt
  ∧ events w1 = events w
  ∧ isTourCached P tourId w1 = (Ok false, w1)
  ∧ getCachedTourData P tourId w1 = (Ok None, w1).
Proof.
  intros Hkv. cbv zeta.
  destruct (clearTourCache_frame tourId w) as (Hok & Hkf & _ & _ & Hkv' & Hev).
  rewrite Hkv in *. rewrite app_nil_r in Hev.
  split_and!; [done..| |].
  - rewrite isTourCached_run, Hkf, Hkv', lookup_delete_eq. done.
  - rewrite getCachedTourData_run, Hkf, Hkv', lookup_delete_eq. done.
Qed.

(** X10.  With a working store, [clearAllCache] makes every tour a
    cache miss: afterwards [isTourCached] answers false and
    [getCachedTourData] answers null for every tour id. *)
Theorem clearAllCache_then_all_miss w :
  kv_failing w = false →
  let w1 := (clearAllCache P w).2 in
  (clearAllCache P w).1 = Ok tt
  ∧ events w1 = events w
  ∧ ∀ tourId,
      isTourCached P tourId w1 = (Ok false, w1)
      ∧ getCachedTourData P tourId w1 = (Ok None, w1).
Proof.
  intros Hkv. cbv zeta.
  destruct (clearAllCache_frame w) as (Hok & Hkf & _ & _ & Hev).
  pose proof (clearAllCache_kv P w) as Hkv'.
  rewrite Hkv in *. rewrite app_nil_r in Hev.
  split_and!; [done..|]. intros tourId.
  assert (Hgone : kv (clearAllCache P w).2 !! cache_key tourId = None).
  { rewrite Hkv'. apply tour_key_removed, cache_key_is_tour_key. }
  split.
  - rewrite isTourCached_run, Hkf, Hgone. done.
  - rewrite getCachedTourData_run, Hkf, Hgone. done.
Qed.

(** X11.  Clearing is best effort: [clearTourCache] and [clearAllCache]
    return normally in every world.  When the store rejects the call
    they log one error and leave the store and all files as they were,
    the cache root apart, which the first step may have created. *)
Theorem clearing_never_throws tourId w :
  (clearTourCache P tourId w).1 = Ok tt
  ∧ (clearAllCache P w).1 = Ok tt
  ∧ (kv_failing w = true →
     kv (clearTourCache P tourId w).2 = kv w
     ∧ kv (clearAllCache P w).2 = kv w
     ∧ console (clearTourCache P tourId w).2
       = console w ++ [Err "Error clearing tour cache:"%string]
     ∧ console (clearAllCache P w).2
       = console w ++ [Err "Error clearing all cache:"%string]
     ∧ fs w ⊆ fs (clearTourCache P tourId w).2
     ∧ fs w ⊆ fs (clearAllCache P w).2).
Proof.
  destruct (clearTourCache_frame tourId w) as (Hok1 & _ & _ & _ & Hkv1 & Hev1).
  destruct (clearAllCache_frame w) as (Hok2 & _ & _ & _ & Hev2).
  pose proof (clearAllCache_kv P w) as Hkv2.
  split_and!; [done..|]. intros Hkv. rewrite Hkv in *.
  unfold console. rewrite Hev1, Hev2, !console_of_app.
  split_and!; try done.
  - rewrite clearTourCache_run. cbv zeta. rewrite Hkv. apply ensured_fs.
  - rewrite clearAllCache_run. cbv zeta. rewrite Hkv. apply ensured_fs.
Qed.

(** X12.  Right after a batch that returned, the tour is a cache hit
    for as long as the clock reads less than 24 hours past the reading
    that stamped the record, and [getCachedTourData] yields the record
    the batch returned.  This is for a platform on which JSON reads
    back that record from its own text, the text is not empty, and a
    date reads back from its ISO rendering. *)
Theorem fresh_after_download tourId onProgress w c :
  (downloadTourAssets P tourId onProgress w).1 = Ok c →
  JSON_parse P (JSON_stringify P c) = Some c →
  JSON_stringify P c ≠ EmptyString →
  (∀ t, Date_parse P (Date_toISOString P t) = Some t) →
  let w1 := (downloadTourAssets P tourId onProgress w).2 in
  (isTourCached P tourId w1).1
  = Ok (clock w1 (clock_reads w1)
        <? clock w1 (pred (clock_reads w1)) + 24 * 60 * 60 * 1000)
  ∧ getCachedTourData P tourId w1 = (Ok (Some c), w1).
Proof.
  destruct (downloadTourAssets P tourId onProgress w) as [r w1] eqn:Hrun.
  cbn [fst snd]. intros -> Hjson Htext Hdate.
  destruct (downloadTourAssets_ok_inv P _ _ _ _ _ Hrun) as [Hkv Hapi].
  destruct (downloadTourAssets_run P tourId onProgress w _ Hkv Hapi)
    as (c' & w'' & failed & evs & Hrun' & _ & Hkv' & Hkf & _).
  rewrite Hrun in Hrun'. injection Hrun' as <- <-.
  destruct (downloadTourAssets_stamp P _ _ _ _ _ Hrun) as (_ & Hstamp & _).
  apply truthy_iff in Htext.
  rewrite isTourCached_run, getCachedTourData_run, Hkf, Hkv', lookup_insert_eq.
  rewrite Htext, Hjson, Hstamp, Hdate. done.
Qed.


Section Percentages.
Hypothesis HP : rounds_like_binary64 P.

Lemma round_percent_full total :
  (0 < total)%nat → round_percent P total total = 100.
Proof.
  intros Ht. unfold round_percent. fold (ratio total total).
  assert (Hr : (ratio total total == 1)%Q).
  { unfold ratio. apply Qmult_inv_r. intros E.
    unfold Qeq in E. cbn in E. lia. }
  assert (Hlo : (double P 1 <= double P (ratio total total))%Q)
    by (apply (double_monotone P HP); lra).
  assert (Hhi : (double P (ratio total total) <= double P 1)%Q)
    by (apply (double_monotone P HP); lra).
  destruct (double_accurate P HP 1) as [Ha1 Ha2]; [lra..|].
  unfold unit_roundoff in *.
  destruct (double_accurate P HP (double P (ratio total total) * 100))
    as [Hc1 Hc2]; [lra..|].
  unfold unit_roundoff in *. unfold Math.round. apply Qfloor_eq.
  - change (inject_Z 100) with (100 # 1)%Q. lra.
  - change (inject_Z (100 + 1)) with (101 # 1)%Q. lra.
Qed.

Lemma round_percent_range d total :
  (d ≤ total)%nat → 0 ≤ round_percent P d total ≤ 100.
Proof.
  intros H. split; [by apply round_percent_nonneg|].
  destruct total as [|total].
  - assert (d = 0%nat) as -> by lia. by rewrite round_percent_zero.
  - rewrite <- (round_percent_full (S total)) by lia.
    apply round_percent_mono; [done|lia|lia].
Qed.

(** Every report of a batch counts within range. *)
Lemma batch_events_range n d0 urls failed evs :
  batch_events P true n d0 urls failed evs →
  Forall (λ p, total p = n
               ∧ (d0 ≤ downloaded p ≤ d0 + List.length urls)%nat
               ∧ percentage p = round_percent P (downloaded p) n)
         (progress_of evs).
Proof.
  induction 1 as [|d url rest failed name reqs evs Hreqs _ IH
                  |d url rest failed name reqs evs Hreqs _ IH];
    [constructor| |].
  - rewrite !progress_of_app, (progress_of_request url reqs Hreqs).
    cbn. constructor; [cbn; split_and!; done || lia|].
    constructor; [cbn; split_and!; done || lia|].
    eapply Forall_impl; [exact IH|]. cbn. intros p (? & ? & ?).
    split_and!; done || lia.
  - rewrite !progress_of_app, (progress_of_request url reqs Hreqs).
    cbn. constructor; [cbn; split_and!; done || lia|].
    constructor; [cbn; split_and!; done || lia|].
    eapply Forall_impl; [exact IH|]. cbn. intros p (? & ? & ?).
    split_and!; done || lia.
Qed.

Lemma batch_events_last n d0 urls failed evs :
  batch_events P true n d0 urls failed evs →
  ∀ x, last (x :: progress_of evs)
       = Some (match urls with
               | [] => x
               | _ => after_report P n (d0 + List.length urls)
               end)
  ∧ List.length (progress_of evs) = (2 * List.length urls)%nat.
Proof.
  assert (Hstep : ∀ d (rest : list string) evs x,
    (∀ x, last (x :: progress_of evs)
          = Some (match rest with
                  | [] => x
                  | _ => after_report P n (S d + List.length rest)
                  end)
     ∧ List.length (progress_of evs) = (2 * List.length rest)%nat) →
    ∀ name,
    last (x :: before_report P n d name :: after_report P n (S d)
            :: progress_of evs)
    = Some (after_report P n (d + S (List.length rest)))
    ∧ S (S (List.length (progress_of evs))) = (2 * S (List.length rest))%nat).
  { intros d rest evs' x IH name.
    destruct (IH (after_report P n (S d))) as [IH1 IH2].
    rewrite !last_cons_cons, IH1. split; [|lia].
    destruct rest; cbn [List.length]; f_equal; f_equal; lia. }
  induction 1 as [|d url rest failed name reqs evs Hreqs Hb IH
                  |d url rest failed name reqs evs Hreqs Hb IH]; [done| |];
    intros x;
    rewrite !progress_of_app, (progress_of_request url reqs Hreqs);
    cbn [reported progress_of omap app List.length];
    by apply Hstep.
Qed.

End Percentages.

(** X14.  With a callback, a batch over N >= 1 URLs makes 2N + 1
    reports: the first is the opening report, the last says
    [Complete!] with N of N downloaded and 100 percent, and every
    report carries the total N, a count of at most N and a percentage
    between 0 and 100.  The arithmetic is that of doubles. *)
Theorem progress_ends_complete tourId w td :
  rounds_like_binary64 P →
  kv_failing w = false → tour_api w tourId = Some td →
  Collector.collectAllAssetUrls td ≠ [] →
  let n := List.length (Collector.collectAllAssetUrls td) in
  ∃ calls,
    progress_calls (downloadTourAssets P tourId true w).2
    = progress_calls w ++ calls
    ∧ head calls = Some (start_report n)
    ∧ last calls = Some {| total := n; downloaded := n;
                           currentFile := "Complete!"%string;
                           percentage := 100 |}
    ∧ Forall (λ p, total p = n ∧ (downloaded p ≤ n)%nat
                   ∧ 0 ≤ percentage p ≤ 100) calls
    ∧ List.length calls = (2 * n + 1)%nat.
Proof.
  intros HP Hkv Hapi Hne. cbv zeta.
  destruct (downloadTourAssets_run P tourId true w td Hkv Hapi)
    as (c & w' & failed & evs & Hrun & _ & _ & _ & _ & Hev & Hb & _).
  set (n := List.length (Collector.collectAllAssetUrls td)) in *.
  exists (start_report n :: progress_of evs).
  rewrite Hrun. cbn [snd]. unfold progress_calls.
  rewrite Hev, progress_of_app. cbn [reported].
  destruct (batch_events_last _ _ _ _ _ Hb (start_report n)) as [Hlast Hlen].
  pose proof (batch_events_range _ _ _ _ _ Hb) as Hrange.
  fold n in Hlast, Hlen, Hrange.
  split_and!.
  - by rewrite progress_of_app.
  - done.
  - rewrite Hlast. fold n.
    destruct (Collector.collectAllAssetUrls td) eqn:E; [done|].
    cbn [Nat.add]. unfold after_report.
    rewrite Nat.ltb_irrefl, (round_percent_full HP) by (unfold n; cbn; lia).
    done.
  - constructor.
    + cbn. split_and!; done || lia.
    + eapply Forall_impl; [exact Hrange|]. cbn. intros p (Ht & Hd & Hp).
      split_and!; [done|lia|rewrite Hp; apply (round_percent_range HP); lia..].
  - cbn [List.length]. rewrite Hlen. lia.
Qed.

End CacheManager.

(** ** The session *)

Section SessionFacts.
Variable B : Backend.
Variable P : Platform.

Lemma makeRequest_run {T} (answer : option T) w :
  ApiSession.makeRequest answer w =
    if kv_failing w then (Throw AsyncStorage.unavailable, w)
    else match answer with
         | Some r => (Ok r, w)
         | None => (Throw (Error "Request failed"%string), w)
         end.
Proof.
  unfold ApiSession.makeRequest, ApiService.getAuthHeaders,
    AsyncStorage.getItem, bind.
  destruct (kv_failing w); [done|]. by destruct answer.
Qed.

Lemma not_session_key k :
  ¬ session_key k →
  STORAGE_KEYS.ACCESS_TOKEN ≠ k ∧ STORAGE_KEYS.REFRESH_TOKEN ≠ k
  ∧ STORAGE_KEYS.USER ≠ k.
Proof.
  unfold session_key. intros Hk. split_and!; intros E; apply Hk; auto.
Qed.

(** A login or signup, as one case distinction. *)
Lemma login_run credentials w :
  ApiSession.login B credentials w =
    if kv_failing w then (Throw AsyncStorage.unavailable, w)
    else match auth_login B credentials with
         | None => (Throw (Error "Request failed"%string), w)
         | Some response =>
             (Ok response, with_session B (ApiResponse.data response) w)
         end.
Proof.
  unfold ApiSession.login. unfold bind at 1. rewrite makeRequest_run.
  destruct (kv_failing w) eqn:Hkv; [done|].
  destruct (auth_login B credentials) as [response|]; [|done].
  unfold bind, AsyncStorage.setItem, ret. rewrite Hkv.
  cbn [kv_failing set_kv]. rewrite Hkv. cbn [kv_failing set_kv]. rewrite Hkv.
  reflexivity.
Qed.

Lemma signup_run userData w :
  ApiSession.signup B userData w =
    if kv_failing w then (Throw AsyncStorage.unavailable, w)
    else match auth_signup B userData with
         | None => (Throw (Error "Request failed"%string), w)
         | Some response =>
             (Ok response, with_session B (ApiResponse.data response) w)
         end.
Proof.
  unfold ApiSession.signup. unfold bind at 1. rewrite makeRequest_run.
  destruct (kv_failing w) eqn:Hkv; [done|].
  destruct (auth_signup B userData) as [response|]; [|done].
  unfold bind, AsyncStorage.setItem, ret. rewrite Hkv.
  cbn [kv_failing set_kv]. rewrite Hkv. cbn [kv_failing set_kv]. rewrite Hkv.
  reflexivity.
Qed.

Lemma session_stored_intro r w :
  kv_failing w = false → session_stored B r w (with_session B r w).
Proof.
  intros Hkv. unfold session_stored, with_session.
  cbn [kv fs events kv_failing set_kv].
  split_and!; try done.
  - rewrite lookup_insert_ne, lookup_insert_ne, lookup_insert_eq; done.
  - rewrite lookup_insert_ne, lookup_insert_eq; done.
  - by rewrite lookup_insert_eq.
  - intros k Hk. apply not_session_key in Hk as (H1 & H2 & H3).
    by rewrite !lookup_insert_ne.
Qed.

Lemma isAuthenticated_run w :
  ApiSession.isAuthenticated w =
    if kv_failing w then (Throw AsyncStorage.unavailable, w)
    else (Ok (JsString.truthy_opt (kv w !! STORAGE_KEYS.ACCESS_TOKEN)), w).
Proof.
  unfold ApiSession.isAuthenticated, AsyncStorage.getItem, bind.
  by destruct (kv_failing w).
Qed.

Lemma getCurrentUser_run w :
  ApiSession.getCurrentUser B w =
    if kv_failing w then (Throw AsyncStorage.unavailable, w)
    else match kv w !! STORAGE_KEYS.USER with
         | Some s =>
             if JsString.truthy s then
               match JSON_parse_user B s with
               | Some u => (Ok (Some u), w)
               | None => (Throw (Error "JSON Parse error"%string), w)
               end
             else (Ok None, w)
         | None => (Ok None, w)
         end.
Proof.
  unfold ApiSession.getCurrentUser, AsyncStorage.getItem, bind.
  destruct (kv_failing w); [done|].
  destruct (kv w !! STORAGE_KEYS.USER) as [s|]; [|done].
  cbn [JsString.truthy_opt default]. unfold id.
  destruct (JsString.truthy s); [|done].
  by destruct (JSON_parse_user B s).
Qed.

Lemma session_stored_reads r w w' :
  session_stored B r w w' →
  ApiSession.isAuthenticated w'
  = (Ok (JsString.truthy (Session.access_token (AuthResponse.session r))), w')
  ∧ (user_reads_back B (AuthResponse.user r) →
     ApiSession.getCurrentUser B w' = (Ok (Some (AuthResponse.user r)), w')).
Proof.
  intros (Ha & _ & Hu & _ & Hkf & _). split.
  - by rewrite isAuthenticated_run, Hkf, Ha.
  - intros [Hne Hrt]. apply truthy_iff in Hne.
    by rewrite getCurrentUser_run, Hkf, Hu, Hne, Hrt.
Qed.

(** X15.  With a working store, a login or signup that the server
    accepts returns the server's response and writes the session: the
    access token, the refresh token and the user, under their three
    keys, and nothing else.  Afterwards [isAuthenticated] is true
    exactly when the access token is not empty, and [getCurrentUser]
    yields the user of the response, provided JSON reads that user back
    from its own non-empty text. *)
Theorem login_and_signup_open_a_session w :
  kv_failing w = false →
  (∀ credentials response,
     auth_login B credentials = Some response →
     let r := ApiResponse.data response in
     let w' := (ApiSession.login B credentials w).2 in
     (ApiSession.login B credentials w).1 = Ok response
     ∧ session_stored B r w w'
     ∧ ApiSession.isAuthenticated w'
       = (Ok (JsString.truthy (Session.access_token (AuthResponse.session r))),
          w')
     ∧ (user_reads_back B (AuthResponse.user r) →
        ApiSession.getCurrentUser B w' = (Ok (Some (AuthResponse.user r)), w')))
  ∧ (∀ userData response,
       auth_signup B userData = Some response →
       let r := ApiResponse.data response in
       let w' := (ApiSession.signup B userData w).2 in
       (ApiSession.signup B userData w).1 = Ok response
       ∧ session_stored B r w w'
       ∧ ApiSession.isAuthenticated w'
         = (Ok (JsString.truthy (Session.access_token (AuthResponse.session r))),
            w')
       ∧ (user_reads_back B (AuthResponse.user r) →
          ApiSession.getCurrentUser B w' = (Ok (Some (AuthResponse.user r)), w'))).
Proof.
  intros Hkv. split.
  - intros credentials response Hans. cbv zeta.
    rewrite login_run, Hkv, Hans. cbn [fst snd].
    pose proof (session_stored_intro (ApiResponse.data response) w Hkv) as Hst.
    split; [done|]. split; [done|]. exact (session_stored_reads _ w _ Hst).
  - intros userData response Hans. cbv zeta.
    rewrite signup_run, Hkv, Hans. cbn [fst snd].
    pose proof (session_stored_intro (ApiResponse.data response) w Hkv) as Hst.
    split; [done|]. split; [done|]. exact (session_stored_reads _ w _ Hst).
Qed.


Lemma logout_run w :
  ApiSession.logout w =
    if kv_failing w then (Throw AsyncStorage.unavailable, w)
    else (Ok tt,
          set_kv (delete STORAGE_KEYS.ACCESS_TOKEN
                    (delete STORAGE_KEYS.REFRESH_TOKEN
                       (delete STORAGE_KEYS.USER (kv w)))) w).
Proof.
  unfold ApiSession.logout, AsyncStorage.multiRemove.
  by destruct (kv_failing w).
Qed.

(** X17.  With a working store, [logout] removes the three session
    keys and nothing else: afterwards [isAuthenticated] is false and
    [getCurrentUser] is null, every other key is as before, and the
    tour cache is untouched, so [isTourCached] and [getCachedTourData]
    answer for every tour as they did before the logout. *)
Theorem logout_closes_the_session_only w :
  kv_failing w = false →
  ∃ w',
    ApiSession.logout w = (Ok tt, w')
    ∧ ApiSession.isAuthenticated w' = (Ok false, w')
    ∧ ApiSession.getCurrentUser B w' = (Ok None, w')
    ∧ (∀ k, ¬ session_key k → kv w' !! k = kv w !! k)
    ∧ fs w' = fs w
    ∧ ∀ tourId,
        (isTourCached P tourId w').1 = (isTourCached P tourId w).1
        ∧ (getCachedTourData P tourId w').1 = (getCachedTourData P tourId w).1.
Proof.
  intros Hkv. rewrite logout_run, Hkv. eexists. split; [reflexivity|].
  assert (Hkeep : ∀ k, ¬ session_key k →
            delete STORAGE_KEYS.ACCESS_TOKEN
              (delete STORAGE_KEYS.REFRESH_TOKEN
                 (delete STORAGE_KEYS.USER (kv w))) !! k = kv w !! k).
  { intros k Hk. apply not_session_key in Hk as (H1 & H2 & H3).
    by rewrite !lookup_delete_ne. }
  split_and!.
  - rewrite isAuthenticated_run. cbn [kv_failing kv set_kv]. rewrite Hkv.
    by rewrite lookup_delete_eq.
  - rewrite getCurrentUser_run. cbn [kv_failing kv set_kv]. rewrite Hkv.
    rewrite lookup_delete_ne, lookup_delete_ne, lookup_delete_eq; done.
  - exact Hkeep.
  - done.
  - intros tourId.
    destruct (cache_key_not_session_key tourId) as (H1 & H2 & H3).
    assert (Hk : ¬ session_key (cache_key tourId))
      by (unfold session_key; tauto).
    rewrite !isTourCached_run, !getCachedTourData_run.
    cbn [kv_failing kv set_kv clock clock_reads]. rewrite (Hkeep _ Hk), Hkv.
    destruct (kv w !! cache_key tourId) as [s|]; [|done].
    destruct (JsString.truthy s); [|done].
    by destruct (JSON_parse P s).
Qed.

End SessionFacts.

(** ** The tour screen *)

Section TourScreenFacts.
Variable P : Platform.
Import TourScreen.

Lemma loadTourDetails_run tourId useCachedData s w :
  loadTourDetails P tourId useCachedData s w =
    if useCachedData then
      match getCachedTourData P tourId w with
      | (Ok (Some cached), w1) =>
          (Ok (mkState (Some (tourDetails cached)) (Some cached) false (alerts s)),
           w1)
      | (_, w1) => from_api tourId s w1
      end
    else from_api tourId s w.
Proof.
  assert (Hapi : ∀ w0,
    (s0 <- try_catch
             (response <- ApiService.getTourDetails tourId ;;
              ret (setTour (Some response) s))
             (λ _, Console.error "Failed to load tour details:" ;;;
                   ret (Alert_alert "Error" "Failed to load tour details" s)) ;;
     ret (setIsLoading false s0))%js w0 = from_api tourId s w0).
  { intros w0. unfold bind, try_catch. rewrite getTourDetails_run.
    unfold from_api. destruct (kv_failing w0); [done|].
    by destruct (tour_api w0 tourId). }
  unfold loadTourDetails. cbv zeta.
  destruct useCachedData; [|apply Hapi].
  unfold bind at 1. unfold try_catch at 1. unfold bind at 1.
  rewrite getCachedTourData_run.
  destruct (kv_failing w); [by rewrite <- Hapi|].
  destruct (kv w !! cache_key tourId) as [text|]; [|by rewrite <- Hapi].
  destruct (JsString.truthy text); [|by rewrite <- Hapi].
  destruct (JSON_parse P text); [done|by rewrite <- Hapi].
Qed.

Lemma loadTourDetails_prefers_cache_run tourId s w text c :
  kv_failing w = false →
  kv w !! cache_key tourId = Some text → text ≠ EmptyString →
  JSON_parse P text = Some c →
  loadTourDetails P tourId true s w
  = (Ok (mkState (Some (tourDetails c)) (Some c) false (alerts s)), w).
Proof.
  intros Hkv Htext Hne Hparse. apply truthy_iff in Hne.
  by rewrite loadTourDetails_run, getCachedTourData_run, Hkv, Htext, Hne, Hparse.
Qed.

(** X18.  Opened with [useCachedData], the tour screen shows what the
    store holds for the tour whenever that entry parses: the tour
    record and the cached data come from the entry, loading ends, no
    alert is shown and the world is left as it is.  The server is not
    asked, so the same holds when it is out of reach; the clock is not
    read, so the entry is shown even when it is so old that
    [isTourCached] answers false. *)
Theorem loadTourDetails_prefers_cache tourId s w text c :
  kv_failing w = false →
  kv w !! cache_key tourId = Some text → text ≠ EmptyString →
  JSON_parse P text = Some c →
  loadTourDetails P tourId true s w
  = (Ok (mkState (Some (tourDetails c)) (Some c) false (alerts s)), w)
  ∧ loadTourDetails P tourId true s (offline w)
    = (Ok (mkState (Some (tourDetails c)) (Some c) false (alerts s)), offline w)
  ∧ ∀ d, Date_parse P (downloadedAt c) = Some d →
         d + 24 * 60 * 60 * 1000 ≤ clock w (clock_reads w) →
         (isTourCached P tourId w).1 = Ok false.
Proof.
  intros Hkv Htext Hne Hparse. split_and!.
  - by apply loadTourDetails_prefers_cache_run with (text := text).
  - by apply loadTourDetails_prefers_cache_run with (text := text).
  - intros d Hd Hold. apply truthy_iff in Hne.
    rewrite isTourCached_run, Hkv, Htext, Hne, Hparse, Hd. cbn [fst].
    f_equal. apply Z.ltb_ge. unfold expiry_ms, CACHE_EXPIRY_HOURS. lia.
Qed.

(** X19.  [loadTourDetails] never throws and always ends loading; it
    changes neither the store nor the disk.  Either it shows a tour
    record, the server's or the cached entry's, without any alert; or
    it shows one alert, logs an error last and leaves the tour and the
    cached data of the screen as they were, which happens only when the
    store rejects reads or the server has no answer. *)
Theorem loadTourDetails_always_settles tourId useCachedData s w :
  ∃ s' w',
    loadTourDetails P tourId useCachedData s w = (Ok s', w')
    ∧ isLoading s' = false
    ∧ kv w' = kv w ∧ fs w' = fs w
    ∧ ((alerts s' = alerts s
        ∧ ∃ td, tour s' = Some td
                ∧ (tour_api w tourId = Some td
                   ∨ (useCachedData = true
                      ∧ ∃ c, cachedData s' = Some c ∧ tourDetails c = td)))
       ∨ (alerts s'
          = alerts s ++ [("Error"%string, "Failed to load tour details"%string)]
          ∧ tour s' = tour s ∧ cachedData s' = cachedData s
          ∧ last (console w') = Some (Err "Failed to load tour details:"%string)
          ∧ (kv_failing w = true ∨ tour_api w tourId = None))).
Proof.
  assert (Hapi : ∀ w0,
    kv w0 = kv w → fs w0 = fs w → kv_failing w0 = kv_failing w →
    tour_api w0 = tour_api w →
    ∃ s' w', from_api tourId s w0 = (Ok s', w')
      ∧ isLoading s' = false ∧ kv w' = kv w ∧ fs w' = fs w
      ∧ ((alerts s' = alerts s
          ∧ ∃ td, tour s' = Some td
                  ∧ (tour_api w tourId = Some td
                     ∨ (useCachedData = true
                        ∧ ∃ c, cachedData s' = Some c ∧ tourDetails c = td)))
         ∨ (alerts s'
            = alerts s ++ [("Error"%string, "Failed to load tour details"%string)]
            ∧ tour s' = tour s ∧ cachedData s' = cachedData s
            ∧ last (console w') = Some (Err "Failed to load tour details:"%string)
            ∧ (kv_failing w = true ∨ tour_api w tourId = None)))).
  { intros w0 Hk Hf Hkf Ha. unfold from_api. rewrite Hkf, Ha.
    assert (Hlast : last (console (emit (Logged (Err "Failed to load tour details:"%string)) w0))
                    = Some (Err "Failed to load tour details:"%string)).
    { unfold console. cbn [events emit]. rewrite console_of_app. apply last_snoc. }
    destruct (kv_failing w) eqn:Hkv.
    - eexists _, _. split; [reflexivity|]. split_and!; try done.
      right. split_and!; auto.
    - destruct (tour_api w tourId) as [td|] eqn:Htd.
      + eexists _, _. split; [reflexivity|]. split_and!; try done.
        left. split; [done|]. exists td. auto.
      + eexists _, _. split; [reflexivity|]. split_and!; try done.
        right. split_and!; auto. }
  rewrite loadTourDetails_run. destruct useCachedData; [|by apply Hapi].
  rewrite getCachedTourData_run.
  destruct (kv_failing w) eqn:Hkv; [by apply Hapi|].
  destruct (kv w !! cache_key tourId) as [text|]; [|by apply Hapi].
  destruct (JsString.truthy text); [|by apply Hapi].
  destruct (JSON_parse P text) as [c|]; [|by apply Hapi].
  eexists _, _. split; [reflexivity|]. split_and!; try done.
  left. split; [done|]. exists (tourDetails c). split; [done|].
  right. split; [done|]. by exists c.
Qed.

(** X20.  The source the tour screen gives an image: it is undefined
    exactly when the URL is missing or empty, which is when
    [hasValidImageSource] is false; it is never the empty string; with
    cached data holding a path for the URL it is that path, and in
    every other case the remote URL itself. *)
Theorem getImageSource_falls_back_to_remote s remoteUrl :
  (getImageSource s remoteUrl = None ↔ hasValidImageSource remoteUrl = false)
  ∧ getImageSource s remoteUrl ≠ Some EmptyString
  ∧ ∀ url, remoteUrl = Some url → url ≠ EmptyString →
      (∀ c path, cachedData s = Some c → getLocalPath url c = Some path →
                 getImageSource s remoteUrl = Some path)
      ∧ (cachedData s = None → getImageSource s remoteUrl = Some url)
      ∧ (∀ c, cachedData s = Some c → getLocalPath url c = None →
              getImageSource s remoteUrl = Some url).
Proof.
  unfold getImageSource, hasValidImageSource, getLocalPath.
  destruct remoteUrl as [[|a url]|]; cbn [JsString.truthy_opt JsString.truthy negb default].
  - split_and!; try done. by intros url [= <-].
  - unfold id. split_and!.
    + destruct (cachedData s) as [c|]; [|done].
      by destruct (localAssets c !! String a url) as [[|]|].
    + destruct (cachedData s) as [c|]; [|done].
      by destruct (localAssets c !! String a url) as [[|]|].
    + intros ? [= <-] _. split_and!.
      * by intros c path -> ->.
      * by intros ->.
      * by intros c -> ->.
  - split_and!; done.
Qed.


End TourScreenFacts.

(** ** The home screen and the authentication context *)

Section HomeScreenFacts.
Variable P : Platform.
Variable B : Backend.
Import HomeScreen.

(** [isTourCached] always answers, and what it leaves alone. *)
Lemma isTourCached_frame tourId w :
  ∃ b w0,
    isTourCached P tourId w = (Ok b, w0)
    ∧ kv w0 = kv w ∧ fs w0 = fs w ∧ kv_failing w0 = kv_failing w
    ∧ tour_api w0 = tour_api w ∧ clock w0 = clock w
    ∧ requests w0 = requests w ∧ progress_calls w0 = progress_calls w
    ∧ (clock_reads w ≤ clock_reads w0)%nat
    ∧ (b = true →
       kv_failing w = false ∧ clock_reads w0 = S (clock_reads w)
       ∧ ∃ text c d,
           kv w !! cache_key tourId = Some text ∧ JSON_parse P text = Some c
           ∧ Date_parse P (downloadedAt c) = Some d
           ∧ clock w (clock_reads w) < d + expiry_ms).
Proof.
  rewrite isTourCached_run.
  assert (Hlog : ∀ e, requests (emit (Logged e) w) = requests w
                      ∧ progress_calls (emit (Logged e) w) = progress_calls w).
  { intros e. unfold requests, progress_calls, requests_of, progress_of. cbn.
    by rewrite !omap_app, !app_nil_r. }
  destruct (kv_failing w) eqn:Hkv.
  { eexists _, _. split; [reflexivity|].
    destruct (Hlog (Err "Error checking tour cache:"%string)).
    split_and!; done. }
  destruct (kv w !! cache_key tourId) as [text|] eqn:Htext.
  2:{ eexists _, _. split; [reflexivity|]. split_and!; done. }
  destruct (JsString.truthy text).
  2:{ eexists _, _. split; [reflexivity|]. split_and!; done. }
  destruct (JSON_parse P text) as [c|] eqn:Hc.
  2:{ eexists _, _. split; [reflexivity|].
      destruct (Hlog (Err "Error checking tour cache:"%string)).
      split_and!; done. }
  eexists _, _. split; [reflexivity|]. cbn. split_and!; try done; [lia|].
  destruct (Date_parse P (downloadedAt c)) as [d|] eqn:Hd; [|done].
  intros Hlt. apply Z.ltb_lt in Hlt. split_and!; try done.
  by exists text, c, d.
Qed.




(** The loop of [checkCachedTours]: it runs to its end without
    touching the store or the disk, and adds a tour only after
    [isTourCached] has found a parsable entry that was fresh at one of
    the clock readings made on the way. *)
Lemma check_each_spec tourIds : ∀ cachedSet w,
  ∃ cachedSet' w',
    check_each P tourIds cachedSet w = (Ok cachedSet', w')
    ∧ kv w' = kv w ∧ fs w' = fs w ∧ kv_failing w' = kv_failing w
    ∧ clock w' = clock w ∧ (clock_reads w ≤ clock_reads w')%nat
    ∧ ∀ id, id ∈ cachedSet' →
        id ∈ cachedSet
        ∨ (id ∈ tourIds
           ∧ ∃ text c d n,
               kv w !! cache_key id = Some text ∧ JSON_parse P text = Some c
               ∧ Date_parse P (downloadedAt c) = Some d
               ∧ (clock_reads w ≤ n < clock_reads w')%nat
               ∧ clock w n < d + expiry_ms).
Proof.
  induction tourIds as [|tourId rest IH]; intros cachedSet w.
  - exists cachedSet, w. split_and!; auto.
  - cbn [check_each]. unfold bind at 1.
    destruct (isTourCached_frame tourId w)
      as (b & w0 & Hrun & Hkv & Hfs & Hkf & _ & Hcl & _ & _ & Hreads & Hb).
    rewrite Hrun.
    destruct (IH (if b then {[ tourId ]} ∪ cachedSet else cachedSet) w0)
      as (cs & w' & Hloop & Hkv' & Hfs' & Hkf' & Hcl' & Hreads' & Hin).
    exists cs, w'. split; [exact Hloop|].
    split_and!; try congruence; try lia.
    intros id Hid. destruct (Hin id Hid) as [Hacc|(Hrest & text & c & d & n & H)].
    + destruct b; [|auto].
      apply elem_of_union in Hacc as [Hacc|Hacc]; [|auto].
      apply elem_of_singleton in Hacc as ->. right. split; [left|].
      destruct (Hb eq_refl) as (_ & Hread & text & c & d & H1 & H2 & H3 & H4).
      exists text, c, d, (clock_reads w). split_and!; try done; lia.
    + right. split; [by right|]. exists text, c, d, n.
      destruct H as (H1 & H2 & H3 & H4 & H5). rewrite Hkv, Hcl in *.
      split_and!; try done; lia.
Qed.


(** X24.  [checkCachedTours] never throws and changes neither the
    store nor the disk.  When the list of tours cannot be fetched it
    logs an error and leaves the screen as it is.  Otherwise it
    replaces the set of cached tours, and every tour in the new set is
    one the server lists for which the store holds a parsable entry
    that was less than 24 hours old at a clock reading made during the
    check. *)
Theorem checkCachedTours_marks_only_cached s w :
  ∃ s' w',
    checkCachedTours P B s w = (Ok s', w')
    ∧ kv w' = kv w ∧ fs w' = fs w
    ∧ (kv_failing w = true ∨ get_tours B = None →
       s' = s
       ∧ console w' = console w ++ [Err "Error checking cached tours:"%string])
    ∧ ∀ response, kv_failing w = false → get_tours B = Some response →
        s' = setCachedTours (cachedTours s') s
        ∧ ∀ id, id ∈ cachedTours s' →
            id ∈ map Tour.id (ApiResponse.data response)
            ∧ ∃ text c d n,
                kv w !! cache_key id = Some text ∧ JSON_parse P text = Some c
                ∧ Date_parse P (downloadedAt c) = Some d
                ∧ (clock_reads w ≤ n < clock_reads w')%nat
                ∧ clock w n < d + 24 * 60 * 60 * 1000.
Proof.
  unfold checkCachedTours, try_catch. unfold bind at 1.
  unfold ApiSession.getTours. rewrite makeRequest_run.
  assert (Hlog : console (emit (Logged (Err "Error checking cached tours:"%string)) w)
                 = console w ++ [Err "Error checking cached tours:"%string]).
  { unfold console. cbn. by rewrite console_of_app. }
  destruct (kv_failing w) eqn:Hkv.
  { eexists _, _. split; [reflexivity|]. split_and!; done. }
  destruct (get_tours B) as [response|] eqn:Hans.
  2:{ eexists _, _. split; [reflexivity|]. split_and!; done. }
  cbv zeta. unfold bind at 1.
  destruct (check_each_spec (map Tour.id (ApiResponse.data response)) ∅ w)
    as (cs & w' & Hloop & Hkv' & Hfs' & _ & _ & _ & Hin).
  rewrite Hloop. eexists _, _. split; [reflexivity|]. split_and!; try done.
  - by intros [?|?].
  - intros r _ [= <-]. split; [done|]. cbn. intros id Hid.
    destruct (Hin id Hid) as [Hempty|H]; [by apply elem_of_empty in Hempty|].
    exact H.
Qed.



End HomeScreenFacts.

Section HomeScreenClearing.
Variable P : Platform.

(** X23.  Clearing a tour from the home screen always reports
    success: whatever the world, it returns normally, shows the alert
    for a cleared cache and takes the tour out of the cached tours; the
    alert for a failure is never shown.  When the store rejects the
    call the tour's entry is nevertheless still in the store. *)
Theorem home_clearTourCache_always_reports_success tourId s w :
  HomeScreen.clearTourCache P tourId s w
  = (Ok (HomeScreen.Alert_alert
           (HomeScreen.mkAlert AppConfig.cache_cleared AppConfig.cache_clearedMessage [])
           (HomeScreen.setCachedTours (HomeScreen.cachedTours s ∖ {[ tourId ]}) s)),
     (clearTourCache P tourId w).2)
  ∧ (kv_failing w = true → kv (clearTourCache P tourId w).2 = kv w).
Proof.
  destruct (clearTourCache_frame P tourId w) as (Hok & _ & _ & _ & Hkv & _).
  split.
  - unfold HomeScreen.clearTourCache, try_catch, bind.
    destruct (clearTourCache P tourId w) as [r w'] eqn:Hrun.
    cbn [fst snd] in *. by rewrite Hok.
  - intros Hf. by rewrite Hkv, Hf.
Qed.

End HomeScreenClearing.

Section AuthContextFacts.
Variable B : Backend.
Import AuthContext.

Lemma getSettings_run w :
  ApiSession.getSettings B w =
    if kv_failing w then (Throw AsyncStorage.unavailable, w)
    else match get_settings B with
         | Some r => (Ok r, w)
         | None => (Throw (Error "Request failed"%string), w)
         end.
Proof. apply makeRequest_run. Qed.

(** [checkAuthStatus] with a working store. *)
Lemma checkAuthStatus_run s w :
  kv_failing w = false →
  checkAuthStatus B s w =
    if JsString.truthy_opt (kv w !! STORAGE_KEYS.ACCESS_TOKEN) then
      match (ApiSession.getCurrentUser B w).1 with
      | Ok currentUser =>
          match get_settings B with
          | Some r =>
              (Ok (mkState currentUser (Some (ApiResponse.settings r)) false true), w)
          | None =>
              (Ok (mkState currentUser (settings s) false true),
               emit (Logged (Err "Error fetching settings:"%string)) w)
          end
      | Throw _ =>
          (Ok (setIsLoading false s),
           emit (Logged (Err "Error checking auth status:"%string)) w)
      end
    else (Ok (setIsLoading false s), w).
Proof.
  intros Hkv. unfold checkAuthStatus. unfold bind at 1. unfold try_catch at 1.
  unfold bind at 1. rewrite isAuthenticated_run, Hkv.
  destruct (JsString.truthy_opt (kv w !! STORAGE_KEYS.ACCESS_TOKEN)); [|done].
  unfold bind at 1. rewrite getCurrentUser_run, Hkv.
  assert (Hset : ∀ u w0, kv_failing w0 = false →
    try_catch
      (settingsResponse <- ApiSession.getSettings B ;;
       ret (setSettings (Some (ApiResponse.settings settingsResponse))
              (setIsAuthenticated true (setUser u s))))
      (λ _, Console.error "Error fetching settings:" ;;;
            ret (setIsAuthenticated true (setUser u s))) w0
    = match get_settings B with
      | Some r => (Ok (mkState u (Some (ApiResponse.settings r)) (isLoading s) true),
                   w0)
      | None => (Ok (mkState u (settings s) (isLoading s) true),
                 emit (Logged (Err "Error fetching settings:"%string)) w0)
      end).
  { intros u w0 Hkv0. unfold bind, try_catch. rewrite getSettings_run, Hkv0.
    by destruct (get_settings B). }
  destruct (kv w !! STORAGE_KEYS.USER) as [text|] eqn:Htext.
  - destruct (JsString.truthy text).
    + destruct (JSON_parse_user B text) as [u|]; [|done].
      cbn [fst]. rewrite Hset by done. by destruct (get_settings B).
    + cbn [fst]. rewrite Hset by done. by destruct (get_settings B).
  - cbn [fst]. rewrite Hset by done. by destruct (get_settings B).
Qed.

(** X25.  A stored session is restored at start.  After a login that
    the server accepted, in a world with a working store,
    [checkAuthStatus] run from the provider's initial state never
    throws, ends loading, and sets the authenticated flag exactly when
    the access token is not empty; it then holds the user of the login,
    provided JSON reads that user back from its own non-empty text. *)
Theorem session_is_restored_at_start credentials response w :
  kv_failing w = false → auth_login B credentials = Some response →
  user_reads_back B (AuthResponse.user (ApiResponse.data response)) →
  let r := ApiResponse.data response in
  let w1 := (ApiSession.login B credentials w).2 in
  ∃ s' w2,
    checkAuthStatus B initial w1 = (Ok s', w2)
    ∧ isLoading s' = false
    ∧ isAuthenticated s'
      = JsString.truthy (Session.access_token (AuthResponse.session r))
    ∧ (isAuthenticated s' = true → user s' = Some (AuthResponse.user r))
    ∧ (isAuthenticated s' = false → user s' = None).
Proof.
  intros Hkv Hans Hrt. cbv zeta.
  rewrite login_run, Hkv, Hans. cbn [snd].
  pose proof (session_stored_intro B (ApiResponse.data response) w Hkv) as Hst.
  set (w1 := with_session B _ w) in *.
  destruct (session_stored_reads B _ w w1 Hst) as [_ Huser].
  specialize (Huser Hrt).
  destruct Hst as (Ha & _ & _ & _ & Hkf & _).
  rewrite checkAuthStatus_run by done. rewrite Ha, Huser.
  cbn [JsString.truthy_opt fst].
  destruct (JsString.truthy _); [|by eexists _, _].
  destruct (get_settings B); by eexists _, _.
Qed.

(** X26.  After a logout nothing is restored: with a working store,
    [checkAuthStatus] run from the initial state after [logout] leaves
    the user unset and the authenticated flag false, ends loading,
    logs nothing and asks the server nothing. *)
Theorem nothing_is_restored_after_logout w :
  kv_failing w = false →
  let w1 := (ApiSession.logout w).2 in
  checkAuthStatus B initial w1 = (Ok (mkState None None false false), w1).
Proof.
  intros Hkv. cbv zeta. rewrite logout_run, Hkv. cbn [snd].
  rewrite checkAuthStatus_run by done.
  cbn [kv set_kv]. by rewrite lookup_delete_eq.
Qed.

(** X27.  The logout of the authentication context never throws.  With
    a working store it removes the session keys and clears the user,
    the settings and the authenticated flag.  When the store rejects
    the call it logs one error and leaves the state as it was, so the
    application stays logged in. *)
Theorem context_logout_is_best_effort s w :
  ∃ s' w',
    AuthContext.logout s w = (Ok s', w')
    ∧ (kv_failing w = false →
       s' = mkState None None (isLoading s) false
       ∧ ApiSession.isAuthenticated w' = (Ok false, w')
       ∧ console w' = console w)
    ∧ (kv_failing w = true →
       s' = s ∧ kv w' = kv w
       ∧ console w' = console w ++ [Err "Error logging out:"%string]).
Proof.
  unfold AuthContext.logout, try_catch, bind. rewrite logout_run.
  destruct (kv_failing w) eqn:Hkv.
  - eexists _, _. split; [reflexivity|]. split; [done|]. intros _.
    split_and!; try done. unfold console. cbn. by rewrite console_of_app.
  - eexists _, _. split; [reflexivity|]. split; [|done]. intros _.
    split_and!; try done.
    rewrite isAuthenticated_run. cbn [kv_failing kv set_kv]. rewrite Hkv.
    by rewrite lookup_delete_eq.
Qed.

End AuthContextFacts.

(** ** The further properties at concrete inputs *)

Lemma batch_without_urls_witness :
  ∃ c w',
    downloadTourAssets Demo.platform 0 true Scenario.bare = (Ok c, w')
    ∧ localAssets c = ∅
    ∧ events w' = [Reported (start_report 0)].
Proof.
  destruct (batch_without_urls Demo.platform 0 true Scenario.bare Demo.empty_tour)
    as (c & w' & Hrun & _ & Hla & Hev & _).
  - reflexivity.
  - reflexivity.
  - reflexivity.
  - exists c, w'. split; [exact Hrun|]. split; [exact Hla|exact Hev].
Defined.

Lemma other_tours_are_untouched_witness :
  kv (clearTourCache Demo.platform 3 Demo.cached_23h_ago).2 !! cache_key 7
  = kv Demo.cached_23h_ago !! cache_key 7
  ∧ (isTourCached Demo.platform 7
       (clearTourCache Demo.platform 3 Demo.cached_23h_ago).2).1
    = (isTourCached Demo.platform 7 Demo.cached_23h_ago).1.
Proof.
  destruct (other_tours_are_untouched Demo.platform 3 7 true Demo.cached_23h_ago)
    as (_ & _ & Hkv & Hsame).
  - discriminate.
  - split; [exact Hkv|exact Hsame].
Defined.

Lemma clearTourCache_then_miss_witness :
  isTourCached Demo.platform 7 (clearTourCache Demo.platform 7 Demo.batch7.2).2
  = (Ok false, (clearTourCache Demo.platform 7 Demo.batch7.2).2)
  ∧ getCachedTourData Demo.platform 7
      (clearTourCache Demo.platform 7 Demo.batch7.2).2
    = (Ok None, (clearTourCache Demo.platform 7 Demo.batch7.2).2).
Proof.
  destruct (clearTourCache_then_miss Demo.platform 7 Demo.batch7.2)
    as (_ & _ & Hcached & Hdata).
  - vm_compute. reflexivity.
  - split; [exact Hcached|exact Hdata].
Defined.

Lemma clearAllCache_then_all_miss_witness :
  isTourCached Demo.platform 7 (clearAllCache Demo.platform Demo.batch7.2).2
  = (Ok false, (clearAllCache Demo.platform Demo.batch7.2).2).
Proof.
  destruct (clearAllCache_then_all_miss Demo.platform Demo.batch7.2)
    as (_ & _ & Hall).
  - vm_compute. reflexivity.
  - exact (proj1 (Hall 7)).
Defined.

Lemma fresh_after_download_witness :
  (isTourCached Scenario.platform 7
     (downloadTourAssets Scenario.platform 7 true Demo.fresh).2).1 = Ok true
  ∧ (getCachedTourData Scenario.platform 7
       (downloadTourAssets Scenario.platform 7 true Demo.fresh).2).1
    = Ok (Some Demo.record7).
Proof.
  destruct (fresh_after_download Scenario.platform 7 true Demo.fresh Demo.record7)
    as [Hcached Hdata].
  - vm_compute. reflexivity.
  - vm_compute. reflexivity.
  - intros E. vm_compute in E. discriminate E.
  - exact of_number_parse.
  - split.
    + rewrite Hcached. vm_compute. reflexivity.
    + rewrite Hdata. reflexivity.
Defined.


Lemma progress_ends_complete_witness :
  ∃ calls,
    progress_calls (downloadTourAssets Demo.platform 3 true Demo.fresh3).2 = calls
    ∧ last calls = Some {| total := 3; downloaded := 3;
                           currentFile := "Complete!"%string;
                           percentage := 100 |}
    ∧ List.length calls = 7%nat.
Proof.
  destruct (progress_ends_complete Demo.platform 3 Demo.fresh3 Demo.tour3)
    as (calls & Hcalls & _ & Hlast & _ & Hlen).
  - exact Demo_exact_arithmetic.
  - reflexivity.
  - reflexivity.
  - intros E. vm_compute in E. discriminate E.
  - exists calls. split; [exact Hcalls|]. split; [exact Hlast|exact Hlen].
Defined.

Lemma login_and_signup_open_a_session_witness :
  (ApiSession.login Scenario.backend Scenario.ada_login Demo.fresh).1
  = Ok Scenario.ada_session
  ∧ (ApiSession.isAuthenticated
       (ApiSession.login Scenario.backend Scenario.ada_login Demo.fresh).2).1
    = Ok true
  ∧ (ApiSession.getCurrentUser Scenario.backend
       (ApiSession.login Scenario.backend Scenario.ada_login Demo.fresh).2).1
    = Ok (Some Scenario.ada).
Proof.
  destruct (login_and_signup_open_a_session Scenario.backend Demo.fresh eq_refl)
    as [Hlogin _].
  destruct (Hlogin Scenario.ada_login Scenario.ada_session eq_refl)
    as (Hrun & _ & Hauth & Huser).
  split; [exact Hrun|]. split; [by rewrite Hauth|].
  rewrite Huser; [reflexivity|].
  split; [intros E; vm_compute in E; discriminate E|vm_compute; reflexivity].
Defined.

Lemma logout_closes_the_session_only_witness :
  ∃ w',
    ApiSession.logout Demo.cached_23h_ago = (Ok tt, w')
    ∧ ApiSession.isAuthenticated w' = (Ok false, w')
    ∧ (isTourCached Demo.platform 7 w').1 = Ok true.
Proof.
  destruct (logout_closes_the_session_only Scenario.backend Demo.platform
              Demo.cached_23h_ago eq_refl)
    as (w' & Hrun & Hauth & _ & _ & _ & Hcache).
  exists w'. split; [exact Hrun|]. split; [exact Hauth|].
  rewrite (proj1 (Hcache 7)). vm_compute. reflexivity.
Defined.

Lemma loadTourDetails_prefers_cache_witness :
  ∃ c,
    TourScreen.loadTourDetails Demo.platform 7 true Scenario.screen
      (offline Demo.cached_25h_ago)
    = (Ok (TourScreen.mkState (Some (tourDetails c)) (Some c) false []),
       offline Demo.cached_25h_ago)
    ∧ (isTourCached Demo.platform 7 Demo.cached_25h_ago).1 = Ok false.
Proof.
  destruct (loadTourDetails_prefers_cache Demo.platform 7 Scenario.screen
              Demo.cached_25h_ago "{1699910000000}"%string
              {| tourDetails := Demo.empty_tour;
                 downloadedAt := "1699910000000"%string;
                 localAssets := ∅ |})
    as (_ & Hoffline & Hstale).
  - reflexivity.
  - vm_compute. reflexivity.
  - discriminate.
  - reflexivity.
  - eexists. split; [exact Hoffline|].
    apply (Hstale 1699910000000).
    + reflexivity.
    + vm_compute. discriminate.
Defined.


Lemma session_is_restored_at_start_witness :
  ∃ s' w2,
    AuthContext.checkAuthStatus Scenario.backend AuthContext.initial
      (ApiSession.login Scenario.backend Scenario.ada_login Demo.fresh).2
    = (Ok s', w2)
    ∧ AuthContext.isAuthenticated s' = true
    ∧ AuthContext.user s' = Some Scenario.ada.
Proof.
  destruct (session_is_restored_at_start Scenario.backend Scenario.ada_login
              Scenario.ada_session Demo.fresh)
    as (s' & w2 & Hrun & _ & Hauth & Huser & _).
  - reflexivity.
  - reflexivity.
  - split; [intros E; vm_compute in E; discriminate E|vm_compute; reflexivity].
  - exists s', w2. split; [exact Hrun|]. split; [exact Hauth|].
    apply Huser. exact Hauth.
Defined.

Lemma nothing_is_restored_after_logout_witness :
  (AuthContext.checkAuthStatus Scenario.backend AuthContext.initial
     (ApiSession.logout Demo.fresh).2).1
  = Ok (AuthContext.mkState None None false false).
Proof.
  rewrite (nothing_is_restored_after_logout Scenario.backend Demo.fresh eq_refl).
  reflexivity.
Defined.

(** Starting tour 7 in the fresh installation downloads it, marks it
    as cached and opens the tour screen; starting it again opens the
    screen without a request. *)
Example startTour_twice :
  let tour := Tour.mk 7 "Statues" "A walk among statues" None
                "2023-01-01T00:00:00.000Z" in
  let home := HomeScreen.mkState [] false false ∅
                (HomeScreen.mkModal false None EmptyString
                   {| total := 0; downloaded := 0; currentFile := EmptyString;
                      percentage := 0 |}) [] [] in
  let first := HomeScreen.startTour Scenario.platform tour home Demo.fresh in
  ∃ s1 s2,
    first.1 = Ok s1
    ∧ (HomeScreen.startTour Scenario.platform tour s1 first.2).1 = Ok s2
    ∧ HomeScreen.cachedTours s1 = {[ 7 ]}
    ∧ HomeScreen.progress (HomeScreen.downloadModal s1)
      = {| total := 3; downloaded := 3; currentFile := "Complete!"%string;
           percentage := 100 |}
    ∧ List.length (HomeScreen.navigations s2) = 2%nat
    ∧ requests (HomeScreen.startTour Scenario.platform tour s1 first.2).2
      = requests first.2.
Proof.
  cbv zeta. eexists _, _. split_and!; vm_compute; reflexivity.
Qed.
